(** * update_md5.py: the manifest synchronizer of civ5-mod

    A shallow embedding of [src/civ5-mod/update_md5.py] and the proofs of the
    properties its specification states.

    The program reads [VoxDeorum.modinfo] as UTF-8 text, finds every
    [<File md5=".." import="..">path</File>] entry with [FILE_RE], recomputes
    the MD5 of the file each entry names, substitutes the hash, and writes the
    text back when at least one hash differed.

    Layout: the library functions the script calls ([hashlib.md5], the UTF-8
    text layer of [Path.read_text] / [Path.write_text], [re.sub] on [FILE_RE])
    are modelled first, then the script itself ([md5_of], [replace_match],
    [main]) over an explicit file system and standard output, then the
    theorems. *)

From Stdlib Require Import NArith ZArith List Lia Bool Arith.
From Stdlib.Strings Require Import String Ascii Byte.
From Stdlib Require Import DecimalString.
From Stdlib Require DecimalNat DecimalFacts.
Import ListNotations.

Local Open Scope N_scope.

(** ** Text and bytes

    A Python [str] is a sequence of Unicode code points; a code point is an
    [N].  File contents are sequences of [Byte.byte]. *)

Definition text := list N.
Definition bytes := list byte.

(** A string literal of the source, as text. *)
Definition str (s : string) : text :=
  map N_of_ascii (list_ascii_of_string s).

Fixpoint text_eqb (s t : text) : bool :=
  match s, t with
  | [], [] => true
  | c :: s', d :: t' => (c =? d) && text_eqb s' t'
  | _, _ => false
  end.

(** ** hashlib.md5 (RFC 1321) *)

Module MD5.

Definition modulus : N := 4294967296.
Definition add32 (x y : N) : N := (x + y) mod modulus.
Definition not32 (x : N) : N := N.lxor (x mod modulus) 4294967295.
Definition rotl32 (x s : N) : N :=
  N.lor (N.shiftl x s mod modulus) (N.shiftr x (32 - s)).

Definition F (x y z : N) : N := N.lor (N.land x y) (N.land (not32 x) z).
Definition G (x y z : N) : N := N.lor (N.land x z) (N.land y (not32 z)).
Definition H (x y z : N) : N := N.lxor (N.lxor x y) z.
Definition I (x y z : N) : N := N.lxor y (N.lor x (not32 z)).

Definition S_tab : list N :=
  [ 7; 12; 17; 22; 7; 12; 17; 22; 7; 12; 17; 22; 7; 12; 17; 22;
    5; 9; 14; 20; 5; 9; 14; 20; 5; 9; 14; 20; 5; 9; 14; 20;
    4; 11; 16; 23; 4; 11; 16; 23; 4; 11; 16; 23; 4; 11; 16; 23;
    6; 10; 15; 21; 6; 10; 15; 21; 6; 10; 15; 21; 6; 10; 15; 21 ].

(** [K_tab[i] = floor(2^32 * |sin(i + 1)|)]. *)
Definition K_tab : list N :=
  [ 3614090360; 3905402710; 606105819; 3250441966;
    4118548399; 1200080426; 2821735955; 4249261313;
    1770035416; 2336552879; 4294925233; 2304563134;
    1804603682; 4254626195; 2792965006; 1236535329;
    4129170786; 3225465664; 643717713; 3921069994;
    3593408605; 38016083; 3634488961; 3889429448;
    568446438; 3275163606; 4107603335; 1163531501;
    2850285829; 4243563512; 1735328473; 2368359562;
    4294588738; 2272392833; 1839030562; 4259657740;
    2763975236; 1272893353; 4139469664; 3200236656;
    681279174; 3936430074; 3572445317; 76029189;
    3654602809; 3873151461; 530742520; 3299628645;
    4096336452; 1126891415; 2878612391; 4237533241;
    1700485571; 2399980690; 4293915773; 2240044497;
    1873313359; 4264355552; 2734768916; 1309151649;
    4149444226; 3174756917; 718787259; 3951481745 ].

Definition round_fn (i : nat) (b c d : N) : N :=
  if (i <? 16)%nat then F b c d
  else if (i <? 32)%nat then G b c d
  else if (i <? 48)%nat then H b c d
  else I b c d.

Definition msg_idx (i : nat) : nat :=
  if (i <? 16)%nat then i
  else if (i <? 32)%nat then ((5 * i + 1) mod 16)%nat
  else if (i <? 48)%nat then ((3 * i + 5) mod 16)%nat
  else ((7 * i) mod 16)%nat.

Definition state : Type := N * N * N * N.

Definition init : state := (1732584193, 4023233417, 2562383102, 271733878).

Definition step (M : list N) (s : state) (i : nat) : state :=
  let '(a, b, c, d) := s in
  let x := add32 (add32 (add32 a (round_fn i b c d)) (nth i K_tab 0))
                 (nth (msg_idx i) M 0) in
  (d, add32 b (rotl32 x (nth i S_tab 0)), b, c).

Definition compress (s : state) (M : list N) : state :=
  let '(a0, b0, c0, d0) := s in
  let '(a, b, c, d) := fold_left (step M) (seq 0 64) s in
  (add32 a0 a, add32 b0 b, add32 c0 c, add32 d0 d).

(** Little-endian 32-bit words of a byte sequence. *)
Fixpoint words (l : list N) : list N :=
  match l with
  | b0 :: b1 :: b2 :: b3 :: r =>
      (b0 + 256 * b1 + 65536 * b2 + 16777216 * b3) :: words r
  | _ => []
  end.

Fixpoint blocks (fuel : nat) (l : list N) : list (list N) :=
  match fuel with
  | O => []
  | S fuel' =>
      match l with
      | [] => []
      | _ => words (firstn 64 l) :: blocks fuel' (skipn 64 l)
      end
  end.

Definition le_bytes (n : nat) (x : N) : list N :=
  map (fun k => (x / 256 ^ N.of_nat k) mod 256) (seq 0 n).

Definition pad (msg : list N) : list N :=
  let len := List.length msg in
  msg ++ [128] ++ repeat 0 ((119 - len mod 64) mod 64)%nat
      ++ le_bytes 8 ((8 * N.of_nat len) mod 18446744073709551616).

Definition digest (msg : bytes) : list N :=
  let p := pad (map Byte.to_N msg) in
  let '(a, b, c, d) := fold_left compress (blocks (List.length p) p) init in
  le_bytes 4 a ++ le_bytes 4 b ++ le_bytes 4 c ++ le_bytes 4 d.

Definition hexchar (k : N) : N := if k <? 10 then 48 + k else 87 + k.

Definition hex2 (b : N) : text := [hexchar (b / 16); hexchar (b mod 16)].

(** [hashlib.md5(data).hexdigest()]: 32 lowercase hexadecimal digits. *)
Definition hexdigest (msg : bytes) : text := flat_map hex2 (digest msg).

End MD5.

Definition bytes_of_string (s : string) : bytes := list_byte_of_string s.

Definition in_range (lo hi c : N) : bool := (lo <=? c) && (c <=? hi).

(** [str.upper] on the characters it is applied to here: the group
    [[0-9A-Fa-f]{32}] and a hexdigest hold ASCII only, where [upper] maps
    [a-z] to [A-Z] and leaves every other character alone. *)
Definition upper_char (c : N) : N := if in_range 97 122 c then c - 32 else c.
Definition upper (t : text) : text := map upper_char t.

(** ** The text layer of [Path.read_text] and [Path.write_text]

    [read_text(encoding="utf-8")] decodes the bytes with the strict UTF-8
    codec and then applies universal-newline translation; [write_text]
    translates every line feed to [os.linesep] and encodes. *)

Module Utf8.

Definition cont (b : N) : bool := in_range 128 191 b.

(** The strict decoder: shortest forms only, no surrogates, nothing above
    U+10FFFF (Unicode table 3-7). *)
Fixpoint decode (l : list N) : option text :=
  match l with
  | [] => Some []
  | b0 :: r0 =>
      if b0 <? 128 then option_map (cons b0) (decode r0)
      else if in_range 194 223 b0 then
        match r0 with
        | b1 :: r1 =>
            if cont b1
            then option_map (cons ((b0 - 192) * 64 + (b1 - 128))) (decode r1)
            else None
        | _ => None
        end
      else if in_range 224 239 b0 then
        match r0 with
        | b1 :: b2 :: r2 =>
            if in_range (if b0 =? 224 then 160 else 128)
                        (if b0 =? 237 then 159 else 191) b1 && cont b2
            then option_map
                   (cons ((b0 - 224) * 4096 + (b1 - 128) * 64 + (b2 - 128)))
                   (decode r2)
            else None
        | _ => None
        end
      else if in_range 240 244 b0 then
        match r0 with
        | b1 :: b2 :: b3 :: r3 =>
            if in_range (if b0 =? 240 then 144 else 128)
                        (if b0 =? 244 then 143 else 191) b1
               && cont b2 && cont b3
            then option_map
                   (cons ((b0 - 240) * 262144 + (b1 - 128) * 4096
                          + (b2 - 128) * 64 + (b3 - 128)))
                   (decode r3)
            else None
        | _ => None
        end
      else None
  end.

Definition encode_char (c : N) : list N :=
  if c <? 128 then [c]
  else if c <? 2048 then [192 + c / 64; 128 + c mod 64]
  else if c <? 65536 then
    [224 + c / 4096; 128 + (c / 64) mod 64; 128 + c mod 64]
  else
    [240 + c / 262144; 128 + (c / 4096) mod 64; 128 + (c / 64) mod 64;
     128 + c mod 64].

Definition encode (t : text) : list N := flat_map encode_char t.

(** What the strict decoder can produce, and the strict encoder accepts. *)
Definition scalar (c : N) : bool :=
  (c <? 1114112) && negb (in_range 55296 57343 c).

End Utf8.

Definition byte_of_N (n : N) : byte :=
  match Byte.of_N n with Some b => b | None => x00 end.

(** [os.linesep] is a line feed on POSIX and carriage return, line feed on
    Windows. *)
Inductive platform := Posix | Windows.

(** Universal newlines on input: [\r\n] and a lone [\r] become [\n]. *)
Fixpoint nl_in (t : text) : text :=
  match t with
  | [] => []
  | c :: r =>
      if c =? 13 then
        10 :: match r with
              | d :: r' => if d =? 10 then nl_in r' else nl_in r
              | [] => []
              end
      else c :: nl_in r
  end.

(** On output every [\n] becomes [os.linesep]. *)
Definition nl_out (os : platform) (t : text) : text :=
  match os with
  | Posix => t
  | Windows => flat_map (fun c => if c =? 10 then [13; 10] else [c]) t
  end.

Definition decode_text (b : bytes) : option text :=
  option_map nl_in (Utf8.decode (map Byte.to_N b)).

Definition encode_text (os : platform) (t : text) : bytes :=
  map byte_of_N (Utf8.encode (nl_out os t)).

(** ** FILE_RE

    [(<File\s+md5=")([0-9A-Fa-f]{32})("\s+import="[01]">)(.+?)(</File>)]

    The pattern is compiled without flags, on [str]: [\s] is Unicode white
    space, [.] is any character but the line feed.  Each piece below consumes
    a prefix of the subject and returns what is left.  The two greedy [\s+]
    are each followed by a letter, so only the longest run of white space can
    lead to a match; the lazy [.+?] stops at the first [</File>] that follows
    at least one character. *)

Module Re.

Definition is_space (c : N) : bool :=
  in_range 9 13 c || in_range 28 32 c || (c =? 133) || (c =? 160)
  || (c =? 5760) || in_range 8192 8202 c || (c =? 8232) || (c =? 8233)
  || (c =? 8239) || (c =? 8287) || (c =? 12288).

Definition is_hex (c : N) : bool :=
  in_range 48 57 c || in_range 65 70 c || in_range 97 102 c.

Definition is_dot (c : N) : bool := negb (c =? 10).

Definition quote : N := 34.
Definition tag_open : text := str "<File".
Definition md5_eq : text := str "md5=" ++ [quote].
Definition import_eq : text := str "import=" ++ [quote].
Definition tag_end : text := quote :: str ">".
Definition tag_close : text := str "</File>".

(** A literal. *)
Fixpoint lit (l s : text) : option text :=
  match l with
  | [] => Some s
  | c :: l' =>
      match s with
      | d :: s' => if c =? d then lit l' s' else None
      | [] => None
      end
  end.

(** [\s*], greedy. *)
Fixpoint span_space (s : text) : text * text :=
  match s with
  | c :: s' =>
      if is_space c
      then let (ws, r) := span_space s' in (c :: ws, r)
      else ([], s)
  | [] => ([], [])
  end.

(** [\s+]. *)
Definition spaces1 (s : text) : option (text * text) :=
  match span_space s with
  | ([], _) => None
  | (ws, r) => Some (ws, r)
  end.

(** [[0-9A-Fa-f]{n}]. *)
Fixpoint hexes (n : nat) (s : text) : option (text * text) :=
  match n with
  | O => Some ([], s)
  | S n' =>
      match s with
      | c :: s' =>
          if is_hex c
          then match hexes n' s' with
               | Some (h, r) => Some (c :: h, r)
               | None => None
               end
          else None
      | [] => None
      end
  end.

(** [[01]]. *)
Definition digit01 (s : text) : option (N * text) :=
  match s with
  | c :: s' => if (c =? 48) || (c =? 49) then Some (c, s') else None
  | [] => None
  end.

(** [.*?</File>]: the shortest run of [.] before a closing tag. *)
Fixpoint until_close (s : text) : option (text * text) :=
  match lit tag_close s with
  | Some r => Some ([], r)
  | None =>
      match s with
      | c :: s' =>
          if is_dot c
          then match until_close s' with
               | Some (p, r) => Some (c :: p, r)
               | None => None
               end
          else None
      | [] => None
      end
  end.

(** [.+?</File>]. *)
Definition path1 (s : text) : option (text * text) :=
  match s with
  | c :: s' =>
      if is_dot c
      then match until_close s' with
           | Some (p, r) => Some (c :: p, r)
           | None => None
           end
      else None
  | [] => None
  end.

(** The five groups of a match ([m.group(1)] .. [m.group(5)]). *)
Record groups := Groups { g1 : text; g2 : text; g3 : text; g4 : text; g5 : text }.

(** [m.group(0)]. *)
Definition group0 (m : groups) : text :=
  g1 m ++ g2 m ++ g3 m ++ g4 m ++ g5 m.

(** [FILE_RE.match] at the start of [s]: the groups and the text after the
    match. *)
Definition match_at (s : text) : option (groups * text) :=
  match lit tag_open s with None => None | Some r =>
  match spaces1 r with None => None | Some (ws1, r) =>
  match lit md5_eq r with None => None | Some r =>
  match hexes 32 r with None => None | Some (h, r) =>
  match lit [quote] r with None => None | Some r =>
  match spaces1 r with None => None | Some (ws2, r) =>
  match lit import_eq r with None => None | Some r =>
  match digit01 r with None => None | Some (d, r) =>
  match lit tag_end r with None => None | Some r =>
  match path1 r with None => None | Some (p, r) =>
    Some (Groups (tag_open ++ ws1 ++ md5_eq) h
                 (quote :: ws2 ++ import_eq ++ d :: tag_end) p tag_close, r)
  end end end end end end end end end end.

(** The scan of [re.sub]: the subject cut, left to right, into matches that
    do not overlap and the single characters between them.  [fuel] bounds the
    number of pieces; the length of the subject is enough. *)
Inductive piece := Skip (c : N) | Match (m : groups).

Fixpoint scan (fuel : nat) (s : text) : list piece :=
  match fuel with
  | O => []
  | S fuel' =>
      match s with
      | [] => []
      | c :: s' =>
          match match_at s with
          | Some (m, r) => Match m :: scan fuel' r
          | None => Skip c :: scan fuel' s'
          end
      end
  end.

Definition pieces (s : text) : list piece := scan (List.length s) s.

End Re.

(** ** The file system, standard output and errors

    A resolved path names at most one node.  A node that exists is a regular
    file with its bytes, or something [read_bytes] raises on (a directory, a
    file without read permission).  [writes] records every write to the disk
    in order, so that "not written" can be told from "written with the same
    bytes". *)

Definition path := text.

Inductive node := File (content : bytes) | Locked.

Definition filesystem := path -> option node.

Record world := World {
  disk : filesystem;
  stdout : list text;
  writes : list (path * bytes)
}.

(** Where the script runs: the platform, the manifest's path
    ([MODINFO = Path(__file__).parent / "VoxDeorum.modinfo"]) and the file
    that [MODINFO.parent / rel_path] denotes for each [rel_path]. *)
Record env := Env {
  os : platform;
  MODINFO : path;
  resolve : text -> path
}.

Inductive exn := FileNotFoundError | PermissionError | UnicodeDecodeError.

(** The state [replace_match] works on: the [nonlocal updated] counter and
    the lines printed so far.  A computation returns or raises. *)
Record run_state := RunState { updated : nat; printed : list text }.

Inductive result (A : Type) :=
| Returned (a : A) (s : run_state)
| Raised (x : exn) (s : run_state).
Arguments Returned {A} a s.
Arguments Raised {A} x s.

Definition M (A : Type) := run_state -> result A.

Definition ret {A} (a : A) : M A := fun s => Returned a s.

Definition bind {A B} (m : M A) (k : A -> M B) : M B :=
  fun s => match m s with
           | Returned a s' => k a s'
           | Raised x s' => Raised x s'
           end.

Definition raise {A} (x : exn) : M A := fun s => Raised x s.

Notation "x <- m ;; k" := (bind m (fun x => k))
  (at level 61, m at next level, right associativity).
Notation "m ;;; k" := (bind m (fun _ => k))
  (at level 61, right associativity).

Definition print (line : text) : M unit :=
  fun s => Returned tt (RunState (updated s) (printed s ++ [line])).

Definition incr_updated : M unit :=
  fun s => Returned tt (RunState (S (updated s)) (printed s)).

(** [path.exists()] and [path.read_bytes()]. *)
Definition exists_ (fs : filesystem) (p : path) : bool :=
  match fs p with Some _ => true | None => false end.

Definition read_bytes (fs : filesystem) (p : path) : M bytes :=
  match fs p with
  | Some (File b) => ret b
  | Some Locked => raise PermissionError
  | None => raise FileNotFoundError
  end.

(** [path.read_text(encoding="utf-8")], outside the monad: [main] calls it
    before anything is printed or counted. *)
Definition read_text (fs : filesystem) (p : path) : exn + text :=
  match fs p with
  | Some (File b) =>
      match decode_text b with
      | Some t => inr t
      | None => inl UnicodeDecodeError
      end
  | Some Locked => inl PermissionError
  | None => inl FileNotFoundError
  end.

(** [path.write_text(t, encoding="utf-8")]: the node at [p] becomes a file
    with the encoded text.  The write itself is taken to succeed. *)
Definition write_text (o : platform) (p : path) (t : text) (w : world) : world :=
  let b := encode_text o t in
  World (fun q => if text_eqb q p then Some (File b) else disk w q)
        (stdout w)
        (writes w ++ [(p, b)]).

(** ** update_md5.py *)

Import Re.

(** [md5_of(path)]: [hashlib.md5(path.read_bytes()).hexdigest().upper()]. *)
Definition md5_of (fs : filesystem) (p : path) : M text :=
  b <- read_bytes fs p ;;
  ret (upper (MD5.hexdigest b)).

Definition arrow : text := str " -> ".

(** The closure [replace_match] of [main]. *)
Definition replace_match (e : env) (fs : filesystem) (m : groups) : M text :=
  let rel_path := g4 m in
  let file_path := resolve e rel_path in
  if negb (exists_ fs file_path) then
    print (str "  MISSING: " ++ rel_path) ;;;
    ret (group0 m)
  else
    new_md5 <- md5_of fs file_path ;;
    let old_md5 := upper (g2 m) in
    (if negb (text_eqb old_md5 new_md5) then
       print (str "  " ++ rel_path ++ str ": " ++ old_md5 ++ arrow ++ new_md5) ;;;
       incr_updated
     else ret tt) ;;;
    ret (g1 m ++ new_md5 ++ g3 m ++ g4 m ++ g5 m).

(** [FILE_RE.sub(repl, text)]: [repl] is called on each match in turn, the
    characters between matches are copied. *)
Fixpoint sub_pieces (repl : groups -> M text) (ps : list piece) : M text :=
  match ps with
  | [] => ret []
  | Skip c :: ps' =>
      rest <- sub_pieces repl ps' ;;
      ret (c :: rest)
  | Match m :: ps' =>
      r <- repl m ;;
      rest <- sub_pieces repl ps' ;;
      ret (r ++ rest)
  end.

Definition re_sub (repl : groups -> M text) (t : text) : M text :=
  sub_pieces repl (pieces t).

(** The decimal rendering of [updated] in the f-string. *)
Definition decimal (n : nat) : text :=
  str (NilZero.string_of_uint (Nat.to_uint n)).

Inductive outcome :=
| Exit (w : world)
| Traceback (x : exn) (w : world).

(** [print(line)] at the top level of [main]. *)
Definition put (line : text) (w : world) : world :=
  World (disk w) (stdout w ++ [line]) (writes w).

(** The substitution pass of [main], started with [updated = 0]. *)
Definition substitute (e : env) (w : world) (t : text) : result text :=
  re_sub (replace_match e (disk w)) t (RunState 0 (stdout w)).

Definition main (e : env) (w : world) : outcome :=
  match read_text (disk w) (MODINFO e) with
  | inl x => Traceback x w
  | inr t =>
      match substitute e w t with
      | Raised x s => Traceback x (World (disk w) (printed s) (writes w))
      | Returned new_text s =>
          let w1 := World (disk w) (printed s) (writes w) in
          if negb (updated s =? 0)%nat then
            Exit (put (str "Updated " ++ decimal (updated s) ++ str " hash(es).")
                      (write_text (os e) (MODINFO e) new_text w1))
          else
            Exit (put (str "All hashes up to date.") w1)
      end
  end.

(** ** Vocabulary of the statements *)

(** What [FILE_RE] accepts as the groups of a match. *)
Definition entry_shape (m : groups) : Prop :=
  exists ws1 ws2 d,
    g1 m = tag_open ++ ws1 ++ md5_eq
    /\ ws1 <> [] /\ Forall (fun c => is_space c = true) ws1
    /\ List.length (g2 m) = 32%nat /\ Forall (fun c => is_hex c = true) (g2 m)
    /\ g3 m = quote :: ws2 ++ import_eq ++ d :: tag_end
    /\ ws2 <> [] /\ Forall (fun c => is_space c = true) ws2
    /\ (d = 48 \/ d = 49)
    /\ g4 m <> [] /\ Forall (fun c => is_dot c = true) (g4 m)
    /\ g5 m = tag_close.

(** A match with another hash in group 2. *)
Definition with_hash (h : text) (m : groups) : groups :=
  Groups (g1 m) h (g3 m) (g4 m) (g5 m).

(** The text of a piece when [hash m] stands in group 2 of each match. *)
Definition render (hash : groups -> text) (p : piece) : text :=
  match p with
  | Skip c => [c]
  | Match m => group0 (with_hash (hash m) m)
  end.

Definition rehash (hash : groups -> text) (p : piece) : piece :=
  match p with
  | Skip c => Skip c
  | Match m => Match (with_hash (hash m) m)
  end.

(** The hash a run leaves in an entry: the upper-case digest of the file the
    entry names when that file can be read, the recorded hash otherwise. *)
Definition new_hash (e : env) (fs : filesystem) (m : groups) : text :=
  match fs (resolve e (g4 m)) with
  | Some (File b) => upper (MD5.hexdigest b)
  | _ => g2 m
  end.

(** [rehashed s t]: [t] is [s] with the 32 digits of some [md5="..."]
    attributes replaced by other digits. *)
Inductive rehashed : text -> text -> Prop :=
| rehashed_nil : rehashed [] []
| rehashed_char c s t : rehashed s t -> rehashed (c :: s) (c :: t)
| rehashed_hash h h' s t :
    List.length h = 32%nat -> List.length h' = 32%nat ->
    Forall (fun c => is_hex c = true) h ->
    Forall (fun c => is_hex c = true) h' ->
    rehashed s t ->
    rehashed (md5_eq ++ h ++ quote :: s) (md5_eq ++ h' ++ quote :: t).

(** A literal is [safe] when no [m] in it is followed by a [d]: while it is
    matched, the attribute name [md5=] cannot begin. *)
Fixpoint safe (l : text) : bool :=
  match l with
  | [] => true
  | c :: r =>
      (if c =? 109
       then match r with d :: _ => negb (d =? 100) | [] => false end
       else true) && safe r
  end.

(** Agreement of two partial results up to a relation on the values. *)
Definition agree {A B} (R : A -> B -> Prop) (x : option A) (y : option B) : Prop :=
  match x, y with
  | Some a, Some b => R a b
  | None, None => True
  | _, _ => False
  end.

(** The entries as the specification speaks of them: an entry is missing
    when its file does not exist, outdated when the file can be read and its
    digest differs from the recorded hash compared without regard to case. *)
Definition missing (e : env) (fs : filesystem) (m : groups) : bool :=
  negb (exists_ fs (resolve e (g4 m))).

Definition outdated (e : env) (fs : filesystem) (m : groups) : bool :=
  match fs (resolve e (g4 m)) with
  | Some (File b) => negb (text_eqb (upper (g2 m)) (upper (MD5.hexdigest b)))
  | _ => false
  end.

Definition locked (e : env) (fs : filesystem) (m : groups) : bool :=
  match fs (resolve e (g4 m)) with
  | Some Locked => true
  | _ => false
  end.

(** The lines the specification lists for standard output. *)
Definition spec_missing_line (m : groups) : text :=
  str "  MISSING: " ++ g4 m.

Definition spec_update_line (e : env) (fs : filesystem) (m : groups) : text :=
  str "  " ++ g4 m ++ str ": " ++ upper (g2 m) ++ str " -> " ++ new_hash e fs m.

Definition spec_lines (e : env) (fs : filesystem) (p : piece) : list text :=
  match p with
  | Skip _ => []
  | Match m =>
      if missing e fs m then [spec_missing_line m]
      else if outdated e fs m then [spec_update_line e fs m]
      else []
  end.

Definition spec_count (e : env) (fs : filesystem) (ps : list piece) : nat :=
  List.length
    (filter (fun p => match p with Match m => outdated e fs m | Skip _ => false end)
            ps).

(** The summary line, with [<N>] read as the decimal numeral of the count:
    [numeral d n] says that [d] is made of decimal digits, has the value [n]
    and no leading zero. *)
Definition is_digit (c : N) : bool := in_range 48 57 c.

Definition numeral_value (d : text) : nat :=
  fold_left (fun acc c => (10 * acc + N.to_nat (c - 48))%nat) d 0%nat.

Definition numeral (d : text) (n : nat) : Prop :=
  Forall (fun c => is_digit c = true) d
  /\ numeral_value d = n
  /\ match d with
     | [] => False
     | c :: r => c <> 48 \/ r = []
     end.

Definition spec_summary (n : nat) (line : text) : Prop :=
  (n = 0%nat /\ line = str "All hashes up to date.")
  \/ ((0 < n)%nat
      /\ exists d, numeral d n /\ line = str "Updated " ++ d ++ str " hash(es).").

(** A choice of hashes that keeps entries well formed. *)
Definition hash_ok (hash : groups -> text) : Prop :=
  forall m, entry_shape m ->
    List.length (hash m) = 32%nat /\ Forall (fun c => is_hex c = true) (hash m).

(** Upper-case hexadecimal digits. *)
Definition is_upper_hex (c : N) : bool := in_range 48 57 c || in_range 65 70 c.

(** Text as [read_text] returns it: Unicode scalar values, and no carriage
    return left by the newline translation. *)
Definition clean (t : text) : Prop :=
  Forall (fun c => Utf8.scalar c = true /\ c <> 13) t.

(** The part of a text a run may not change.  [hash_mask sel ps] marks, in
    the text the pieces [ps] spell, the 32 hash characters of the matches
    [sel] selects; [outside mask t] keeps the characters of [t] that are not
    marked. *)
Fixpoint hash_mask (sel : groups -> bool) (ps : list piece) : list bool :=
  match ps with
  | [] => []
  | Skip _ :: r => false :: hash_mask sel r
  | Match m :: r =>
      repeat false (List.length (g1 m))
      ++ repeat (sel m) (List.length (g2 m))
      ++ repeat false (List.length (g3 m ++ g4 m ++ g5 m))
      ++ hash_mask sel r
  end.

Definition outside (mask : list bool) (t : text) : list (option N) :=
  map (fun bc : bool * N => if fst bc then None else Some (snd bc))
      (combine mask t).

(** The hash of an entry changes in a run when the file can be read and the
    recorded characters are not already the upper-case digest. *)
Definition hash_changes (e : env) (fs : filesystem) (m : groups) : bool :=
  negb (text_eqb (g2 m) (new_hash e fs m)).

(** Exactness of a manifest on disk, as the specification words it: every
    entry whose file exists records, up to letter case, the digest of the
    file. *)
Definition entry_exact (e : env) (fs : filesystem) (m : groups) : bool :=
  match fs (resolve e (g4 m)) with
  | Some (File b) => text_eqb (upper (g2 m)) (upper (MD5.hexdigest b))
  | Some Locked => false
  | None => true
  end.

Definition manifest_exact (e : env) (w : world) : bool :=
  match read_text (disk w) (MODINFO e) with
  | inr t =>
      forallb (fun p => match p with Match m => entry_exact e (disk w) m | Skip _ => true end)
              (pieces t)
  | inl _ => false
  end.

(** The shape of an entry read literally off the specification's template,
    with single spaces. *)
Definition template_shape (m : groups) : Prop :=
  g1 m = str "<File md5=" ++ [quote]
  /\ List.length (g2 m) = 32%nat /\ Forall (fun c => is_hex c = true) (g2 m)
  /\ (exists d, (d = 48 \/ d = 49)
                /\ g3 m = quote :: str " import=" ++ quote :: d :: quote :: str ">")
  /\ g4 m <> [] /\ Forall (fun c => is_dot c = true) (g4 m)
  /\ g5 m = tag_close.

(** ** Sample manifests and directories

    A directory keyed by the paths as the entries write them, on POSIX. *)

Definition here : env := Env Posix (str "VoxDeorum.modinfo") (fun p => p).

Definition zeros : string := "00000000000000000000000000000000".

Definition entry_text (sep : text) (h d p : string) : text :=
  str "<File" ++ sep ++ str "md5=" ++ quote :: str h ++ quote :: str " import="
  ++ quote :: str d ++ quote :: str ">" ++ str p ++ str "</File>".

Fixpoint files (l : list (string * node)) : filesystem :=
  fun p =>
    match l with
    | [] => None
    | (k, n) :: r => if text_eqb p (str k) then Some n else files r p
    end.

Definition start (manifest : text) (others : list (string * node)) : world :=
  World (fun p => if text_eqb p (MODINFO here)
                  then Some (File (encode_text Posix manifest))
                  else files others p)
        [] [].

(** The world a run leaves. *)
Definition after (e : env) (w : world) : world :=
  match main e w with Exit w' => w' | Traceback _ w' => w' end.

(** Entry A is outdated, entry B names a file that does not exist. *)
Definition scenario_manifest : text :=
  entry_text [32] zeros "1" "a.xml" ++ 10 :: entry_text [32] zeros "0" "missing.xml".
Definition scenario : world :=
  start scenario_manifest [("a.xml"%string, File (bytes_of_string "abc"))].

(** [a.xml] is empty and recorded with its digest in lower case; [b.xml] is
    outdated. *)
Definition case_manifest : text :=
  entry_text [32] "d41d8cd98f00b204e9800998ecf8427e" "1" "a.xml"
  ++ 10 :: entry_text [32] zeros "0" "b.xml".
Definition case_world : world :=
  start case_manifest [("a.xml"%string, File []); ("b.xml"%string, File (bytes_of_string "abc"))].

(** Only [a.xml], in lower case: nothing is outdated. *)
Definition lower_manifest : text :=
  entry_text [32] "d41d8cd98f00b204e9800998ecf8427e" "1" "a.xml".
Definition lower_world : world := start lower_manifest [("a.xml"%string, File [])].

(** The manifest lists itself. *)
Definition self_manifest : text := entry_text [32] zeros "0" "VoxDeorum.modinfo".
Definition self_world : world := start self_manifest [].

(** A tab after [<File]. *)
Definition tab_manifest : text := entry_text [9] zeros "0" "a.xml".

(** An entry with an empty path, followed on the same line by an entry. *)
Definition empty_path_manifest : text :=
  entry_text [32] zeros "0" "" ++ entry_text [32] zeros "0" "b.xml".
Definition empty_path_world : world :=
  start empty_path_manifest [("b.xml"%string, File (bytes_of_string "abc"))].

(** [a.xml] exists and cannot be read. *)
Definition locked_world : world := start scenario_manifest [("a.xml"%string, Locked)].

(** The groups of the two entries of [scenario_manifest] and of the first
    entry of [case_manifest]. *)
Definition entry_groups (h d p : string) : groups :=
  Groups (str "<File md5=" ++ [quote]) (str h)
         (quote :: str " import=" ++ quote :: str d ++ quote :: str ">")
         (str p) (str "</File>").

Definition scenario_a : groups := entry_groups zeros "1" "a.xml".
Definition case_a : groups :=
  entry_groups "d41d8cd98f00b204e9800998ecf8427e" "1" "a.xml".

(** [scenario] with one more file, which no entry names. *)
Definition scenario_more : world :=
  start scenario_manifest
        [("a.xml"%string, File (bytes_of_string "abc"));
         ("notes.txt"%string, File (bytes_of_string "x"))].

Definition is_skip (p : piece) : bool :=
  match p with Skip _ => true | Match _ => false end.

(** A hash of 31 digits, and an import flag that is neither 0 nor 1. *)
Definition short_hash_manifest : text :=
  entry_text [32] "0000000000000000000000000000000" "0" "a.xml".
Definition import2_manifest : text := entry_text [32] zeros "2" "a.xml".

(** The matches among the pieces, in order, and the number of entries whose
    file does not exist. *)
Definition entries (ps : list piece) : list groups :=
  flat_map (fun p => match p with Match m => [m] | Skip _ => [] end) ps.

Definition count_missing (e : env) (fs : filesystem) (ps : list piece) : nat :=
  List.length (filter (missing e fs) (entries ps)).

(** A manifest with Windows line ends, in a directory on POSIX. *)
Definition crlf_manifest : text :=
  entry_text [32] zeros "1" "a.xml" ++ [13; 10].
Definition crlf_world : world :=
  start crlf_manifest [("a.xml"%string, File (bytes_of_string "abc"))].

(** [crlf_manifest] as [read_text] returns it. *)
Definition crlf_manifest_read : text :=
  entry_text [32] zeros "1" "a.xml" ++ [10].

(** The entry of [missing.xml] first, then the entry of [a.xml], which
    exists and cannot be read. *)
Definition abort_manifest : text :=
  entry_text [32] zeros "0" "missing.xml" ++ 10 :: entry_text [32] zeros "1" "a.xml".
Definition abort_world : world := start abort_manifest [("a.xml"%string, Locked)].

(** Eleven outdated entries of [a.xml]. *)
Definition eleven_manifest : text :=
  flat_map (fun _ => entry_text [32] zeros "1" "a.xml" ++ [10]) (seq 0 11).
Definition eleven_world : world :=
  start eleven_manifest [("a.xml"%string, File (bytes_of_string "abc"))].

(** The frame on disk.  [char_bytes o c] is what [write_text] produces for
    the character [c]; [byte_mask o mask t] marks, in the bytes of the text
    [t], the bytes of the characters [mask] marks; [outside_bytes mask b]
    keeps the bytes of [b] that are not marked. *)
Definition char_bytes (o : platform) (c : N) : bytes := encode_text o [c].

Definition byte_mask (o : platform) (mask : list bool) (t : text) : list bool :=
  flat_map (fun bc : bool * N =>
              repeat (fst bc) (List.length (char_bytes o (snd bc))))
           (combine mask t).

Definition outside_bytes (mask : list bool) (b : bytes) : list (option byte) :=
  map (fun bc : bool * byte => if fst bc then None else Some (snd bc))
      (combine mask b).

(** Near misses.  [near_miss_text ws1 h ws2 d p] is the text
    [<File ws1 md5=(h) ws2 import=(d)>p</File>], with the hash and the import
    character in double quotes.  [closes_on_line s] says that [s] holds a
    closing tag with no line feed before it.  [near_miss c post] says that
    [c], followed in the document by [post], is a near miss of an entry: it
    has white space where an entry has it, a hash of hexadecimal digits and
    a path without [<], and one of: the hash has not 32 digits; the import
    character is neither 0 nor 1; the path holds a line feed; the path is
    empty and no closing tag follows on the same line. *)
Definition near_miss_text (ws1 h ws2 : text) (d : N) (p : text) : text :=
  tag_open ++ ws1 ++ md5_eq ++ h ++ quote :: ws2 ++ import_eq
  ++ d :: tag_end ++ p ++ tag_close.

Definition closes_on_line (s : text) : Prop :=
  exists a b, s = a ++ tag_close ++ b /\ ~ In 10 a.

Definition near_miss (c post : text) : Prop :=
  exists ws1 h ws2 d p,
    c = near_miss_text ws1 h ws2 d p
    /\ ws1 <> [] /\ Forall (fun x => is_space x = true) ws1
    /\ Forall (fun x => is_hex x = true) h
    /\ ws2 <> [] /\ Forall (fun x => is_space x = true) ws2
    /\ d <> 60
    /\ Forall (fun x => x <> 60) p
    /\ (List.length h <> 32%nat
        \/ (d <> 48 /\ d <> 49)
        \/ In 10 p
        \/ (p = [] /\ ~ closes_on_line post)).

(** An outdated entry, then three near misses, each on a line of its own:
    an import character 2, a hash of 31 digits, an empty path. *)
Definition near_miss_manifest : text :=
  entry_text [32] zeros "1" "a.xml" ++ 10 :: import2_manifest
  ++ 10 :: short_hash_manifest ++ 10 :: entry_text [32] zeros "0" "".
Definition near_miss_world : world :=
  start near_miss_manifest [("a.xml"%string, File (bytes_of_string "abc"))].

(** An outdated entry, then a near miss whose path holds a line end, which
    the file writes as a carriage return and a line feed. *)
Definition crlf_path : text := str "a" ++ [13; 10] ++ str "b".
Definition crlf_near_miss_manifest : text :=
  entry_text [32] zeros "1" "a.xml" ++ 10
  :: str "<File md5=" ++ quote :: str zeros ++ quote :: str " import="
  ++ quote :: str "0" ++ quote :: str ">" ++ crlf_path ++ str "</File>".
Definition crlf_near_miss_world : world :=
  start crlf_near_miss_manifest [("a.xml"%string, File (bytes_of_string "abc"))].

(** Two texts are alike when they are equal character by character, save
    where both have a hexadecimal digit. *)
Definition alike : text -> text -> Prop :=
  Forall2 (fun a b : N => a = b \/ (is_hex a = true /\ is_hex b = true)).

(** A candidate whose path holds a line feed and then a whole entry, the
    outdated entry of [a.xml]. *)
Definition nested_path : text :=
  str "a" ++ 10 :: str "<File md5=" ++ quote :: str zeros ++ quote
  :: str " import=" ++ quote :: str "1" ++ quote :: str ">a.xml".
Definition nested_manifest : text :=
  near_miss_text [32] (str zeros) [32] 48 nested_path.
Definition nested_world : world :=
  start nested_manifest [("a.xml"%string, File (bytes_of_string "abc"))].

(** * Proofs *)

(** ** hashlib.md5: the RFC 1321 test suite *)

Example md5_empty :
  MD5.hexdigest [] = str "d41d8cd98f00b204e9800998ecf8427e".
Proof. vm_compute. reflexivity. Qed.

Example md5_abc :
  MD5.hexdigest (bytes_of_string "abc") = str "900150983cd24fb0d6963f7d28e17f72".
Proof. vm_compute. reflexivity. Qed.

Example md5_message_digest :
  MD5.hexdigest (bytes_of_string "message digest")
  = str "f96b697d7cb7938d525a2f31aaf161d0".
Proof. vm_compute. reflexivity. Qed.

Example md5_two_blocks :
  MD5.hexdigest (bytes_of_string
    "12345678901234567890123456789012345678901234567890123456789012345678901234567890")
  = str "57edf4a22be3c955ac49da2e2107b67a".
Proof. vm_compute. reflexivity. Qed.

(** ** FILE_RE *)

Lemma text_eqb_eq (s t : text) : text_eqb s t = true <-> s = t.
Proof.
  revert t; induction s as [|c s IH]; intros [|d t]; simpl; split;
    try discriminate; try reflexivity; intro E.
  - apply andb_true_iff in E as [E1 E2]. apply N.eqb_eq in E1.
    apply IH in E2. congruence.
  - injection E as -> ->. rewrite N.eqb_refl. simpl. now apply IH.
Qed.

Lemma text_eqb_refl (s : text) : text_eqb s s = true.
Proof. now apply text_eqb_eq. Qed.

Lemma lit_app (l r : text) : lit l (l ++ r) = Some r.
Proof. induction l as [|c l IH]; simpl; [reflexivity|]. now rewrite N.eqb_refl. Qed.

Lemma lit_Some (l s r : text) : lit l s = Some r -> s = l ++ r.
Proof.
  revert s; induction l as [|c l IH]; intros [|d s]; simpl; intro E;
    try discriminate; try congruence.
  destruct (N.eqb_spec c d) as [->|]; [|discriminate].
  f_equal. now apply IH.
Qed.

(** A literal looks at no more than its own length. *)
Lemma lit_None_app (l x r r' : text) :
  (List.length l <= List.length x)%nat ->
  lit l (x ++ r) = None -> lit l (x ++ r') = None.
Proof.
  revert x; induction l as [|c l IH]; intros [|d x]; simpl; intros L E;
    try discriminate; try lia.
  destruct (c =? d); [|reflexivity]. apply IH; [lia|exact E].
Qed.

Lemma span_space_spec (s ws r : text) :
  span_space s = (ws, r) ->
  s = ws ++ r /\ Forall (fun c => is_space c = true) ws
  /\ match r with c :: _ => is_space c = false | [] => True end.
Proof.
  revert ws r; induction s as [|c s IH]; simpl; intros ws r E.
  - injection E as <- <-. repeat split; constructor.
  - destruct (is_space c) eqn:Sp.
    + destruct (span_space s) as [ws' r'] eqn:E'. injection E as <- <-.
      destruct (IH _ _ eq_refl) as (-> & F & T).
      repeat split; [constructor; assumption | exact T].
    + injection E as <- <-. repeat split; [constructor | exact Sp].
Qed.

Lemma span_space_app (ws r : text) :
  Forall (fun c => is_space c = true) ws ->
  match r with c :: _ => is_space c = false | [] => True end ->
  span_space (ws ++ r) = (ws, r).
Proof.
  intros F T; induction F as [|c ws Hc F IH]; simpl.
  - destruct r as [|c r]; [reflexivity|]. simpl. now rewrite T.
  - now rewrite Hc, IH.
Qed.

Lemma spaces1_spec (s ws r : text) :
  spaces1 s = Some (ws, r) ->
  s = ws ++ r /\ ws <> [] /\ Forall (fun c => is_space c = true) ws
  /\ match r with c :: _ => is_space c = false | [] => True end.
Proof.
  unfold spaces1. destruct (span_space s) as [ws' r'] eqn:E.
  destruct ws' as [|c ws']; [discriminate|]. intro H; injection H as <- <-.
  destruct (span_space_spec _ _ _ E) as (-> & F & T).
  repeat split; [discriminate | exact F | exact T].
Qed.

Lemma spaces1_app (ws r : text) :
  ws <> [] -> Forall (fun c => is_space c = true) ws ->
  match r with c :: _ => is_space c = false | [] => True end ->
  spaces1 (ws ++ r) = Some (ws, r).
Proof.
  intros N F T. unfold spaces1. rewrite span_space_app by assumption.
  destruct ws; [contradiction|reflexivity].
Qed.

Lemma hexes_spec (n : nat) (s h r : text) :
  hexes n s = Some (h, r) ->
  s = h ++ r /\ List.length h = n /\ Forall (fun c => is_hex c = true) h.
Proof.
  revert s h r; induction n as [|n IH]; simpl; intros s h r E.
  - injection E as <- <-. repeat split; constructor.
  - destruct s as [|c s]; [discriminate|].
    destruct (is_hex c) eqn:Hc; [|discriminate].
    destruct (hexes n s) as [[h' r']|] eqn:E'; [|discriminate].
    injection E as <- <-. destruct (IH _ _ _ E') as (-> & L & F).
    repeat split; [simpl; congruence | constructor; assumption].
Qed.

Lemma hexes_app (h r : text) :
  Forall (fun c => is_hex c = true) h ->
  hexes (List.length h) (h ++ r) = Some (h, r).
Proof.
  intro F; induction F as [|c h Hc F IH]; simpl; [reflexivity|].
  now rewrite Hc, IH.
Qed.

Lemma until_close_eq (s : text) :
  until_close s =
  match lit tag_close s with
  | Some r => Some ([], r)
  | None =>
      match s with
      | c :: s' =>
          if is_dot c
          then match until_close s' with
               | Some (p, r) => Some (c :: p, r)
               | None => None
               end
          else None
      | [] => None
      end
  end.
Proof. destruct s; reflexivity. Qed.

Lemma until_close_spec (s p r : text) :
  until_close s = Some (p, r) ->
  s = p ++ tag_close ++ r /\ Forall (fun c => is_dot c = true) p.
Proof.
  revert p r; induction s as [|c s IH]; intros p r; rewrite until_close_eq.
  - simpl. discriminate.
  - destruct (lit tag_close (c :: s)) as [r0|] eqn:L.
    + intro E; injection E as <- <-. apply lit_Some in L.
      split; [exact L | constructor].
    + destruct (is_dot c) eqn:D; [|discriminate].
      destruct (until_close s) as [[p' r']|] eqn:E'; [|discriminate].
      intro E; injection E as <- <-. destruct (IH _ _ eq_refl) as (-> & F).
      split; [reflexivity | constructor; assumption].
Qed.

Lemma until_close_app (s p r r' : text) :
  until_close s = Some (p, r) ->
  until_close (p ++ tag_close ++ r') = Some (p, r').
Proof.
  revert p r; induction s as [|c s IH]; intros p r; rewrite until_close_eq.
  - simpl. discriminate.
  - destruct (lit tag_close (c :: s)) as [r0|] eqn:L.
    + intro E; injection E as <- <-.
      change ([] ++ tag_close ++ r') with (tag_close ++ r').
      now rewrite until_close_eq, lit_app.
    + destruct (is_dot c) eqn:D; [|discriminate].
      destruct (until_close s) as [[p' r0]|] eqn:E'; [|discriminate].
      intro E; injection E as <- <-.
      destruct (until_close_spec _ _ _ E') as (-> & F).
      rewrite until_close_eq.
      assert (A : forall x, (c :: p') ++ tag_close ++ x
                            = ((c :: p') ++ tag_close) ++ x)
        by (intro; now rewrite app_assoc).
      rewrite A, (lit_None_app tag_close ((c :: p') ++ tag_close) r0 r').
      * rewrite <- A, <- app_comm_cons, D, (IH _ _ eq_refl). reflexivity.
      * rewrite length_app. lia.
      * rewrite <- A, <- app_comm_cons. exact L.
Qed.

Lemma path1_spec (s p r : text) :
  path1 s = Some (p, r) ->
  s = p ++ tag_close ++ r /\ p <> [] /\ Forall (fun c => is_dot c = true) p
  /\ forall r', path1 (p ++ tag_close ++ r') = Some (p, r').
Proof.
  unfold path1. destruct s as [|c s]; [discriminate|].
  destruct (is_dot c) eqn:D; [|discriminate].
  destruct (until_close s) as [[p' r0]|] eqn:E; [|discriminate].
  intro H; injection H as <- <-.
  destruct (until_close_spec _ _ _ E) as (-> & F).
  repeat split; [discriminate | constructor; assumption |].
  intro r'. rewrite <- app_comm_cons, D, (until_close_app _ _ _ r' E).
  reflexivity.
Qed.

Lemma digit01_spec (s : text) (d : N) (r : text) :
  digit01 s = Some (d, r) -> s = d :: r /\ (d = 48 \/ d = 49).
Proof.
  unfold digit01. destruct s as [|c s]; [discriminate|].
  destruct (N.eqb_spec c 48), (N.eqb_spec c 49); simpl; intro E;
    try discriminate; injection E as <- <-; auto.
Qed.

Lemma match_at_inv (s : text) (m : groups) (r : text) :
  match_at s = Some (m, r) ->
  entry_shape m /\ s = group0 m ++ r
  /\ forall r', path1 (g4 m ++ tag_close ++ r') = Some (g4 m, r').
Proof.
  unfold match_at. intro H.
  destruct (lit tag_open s) as [r1|] eqn:E1; [|discriminate].
  destruct (spaces1 r1) as [[ws1 r2]|] eqn:E2; [|discriminate].
  destruct (lit md5_eq r2) as [r3|] eqn:E3; [|discriminate].
  destruct (hexes 32 r3) as [[h r4]|] eqn:E4; [|discriminate].
  destruct (lit [quote] r4) as [r5|] eqn:E5; [|discriminate].
  destruct (spaces1 r5) as [[ws2 r6]|] eqn:E6; [|discriminate].
  destruct (lit import_eq r6) as [r7|] eqn:E7; [|discriminate].
  destruct (digit01 r7) as [[d r8]|] eqn:E8; [|discriminate].
  destruct (lit tag_end r8) as [r9|] eqn:E9; [|discriminate].
  destruct (path1 r9) as [[p r10]|] eqn:E10; [|discriminate].
  injection H as <- <-.
  apply lit_Some in E1, E3, E5, E7, E9.
  apply spaces1_spec in E2 as (E2 & N1 & F1 & _), E6 as (E6 & N2 & F2 & _).
  apply hexes_spec in E4 as (E4 & L & Fh).
  apply digit01_spec in E8 as (E8 & D).
  apply path1_spec in E10 as (E10 & Np & Fp & Pp).
  split; [|split].
  - exists ws1, ws2, d. cbn [g1 g2 g3 g4 g5]. repeat split; auto.
  - unfold group0; cbn [g1 g2 g3 g4 g5]. subst.
    repeat rewrite <- ?app_assoc, <- ?app_comm_cons. reflexivity.
  - exact Pp.
Qed.

Lemma is_space_md5_eq r :
  match md5_eq ++ r with c :: _ => is_space c = false | [] => True end.
Proof. reflexivity. Qed.

Lemma is_space_import_eq r :
  match import_eq ++ r with c :: _ => is_space c = false | [] => True end.
Proof. reflexivity. Qed.

Lemma lit_quote (x : text) : lit [quote] (quote :: x) = Some x.
Proof. reflexivity. Qed.

Lemma match_at_intro (m : groups) (r : text) :
  entry_shape m ->
  path1 (g4 m ++ tag_close ++ r) = Some (g4 m, r) ->
  match_at (group0 m ++ r) = Some (m, r).
Proof.
  intros (ws1 & ws2 & d & G1 & N1 & F1 & L & Fh & G3 & N2 & F2 & D & Np & Fp & G5) P.
  destruct m as [a h b p c]; cbn [g1 g2 g3 g4 g5] in *. subst a b c.
  unfold group0; cbn [g1 g2 g3 g4 g5]. unfold match_at.
  repeat rewrite <- ?app_assoc, <- ?app_comm_cons.
  rewrite lit_app.
  rewrite (spaces1_app ws1) by (assumption || reflexivity).
  rewrite lit_app. rewrite <- L at 1. rewrite (hexes_app h _ Fh).
  rewrite lit_quote.
  rewrite (spaces1_app ws2) by (assumption || reflexivity).
  rewrite lit_app.
  assert (Dg : forall x, digit01 (d :: x) = Some (d, x))
    by (intro; destruct D; subst d; reflexivity).
  rewrite Dg, lit_app, P. reflexivity.
Qed.

(** Replacing the hash of a match, and what follows the match, leaves a
    match with the same other groups. *)
Lemma match_at_with_hash (s : text) (m : groups) (r : text) (h r' : text) :
  match_at s = Some (m, r) ->
  List.length h = 32%nat -> Forall (fun c => is_hex c = true) h ->
  match_at (group0 (with_hash h m) ++ r') = Some (with_hash h m, r').
Proof.
  intros E L F. destruct (match_at_inv _ _ _ E) as (Sh & _ & P).
  apply match_at_intro; [|apply P].
  destruct Sh as (ws1 & ws2 & d & G1 & N1 & F1 & _ & _ & G3 & N2 & F2 & D & Np & Fp & G5).
  exists ws1, ws2, d. cbn [with_hash g1 g2 g3 g4 g5]. repeat split; auto.
Qed.

Lemma rehashed_refl (s : text) : rehashed s s.
Proof. induction s; constructor; assumption. Qed.

Lemma rehashed_app (a b c d : text) :
  rehashed a b -> rehashed c d -> rehashed (a ++ c) (b ++ d).
Proof.
  induction 1; intro R; [exact R| |].
  - simpl. constructor; auto.
  - rewrite <- !app_assoc, <- !app_comm_cons. apply rehashed_hash; auto.
Qed.

Lemma md5_eq_cons : md5_eq = 109 :: [100; 53; 61; 34].
Proof. reflexivity. Qed.

Lemma agree_refl_None {A B} (R : A -> B -> Prop) : agree R None None.
Proof. exact Logic.I. Qed.

Lemma lit_rehashed (l s t : text) :
  safe l = true -> rehashed s t -> agree rehashed (lit l s) (lit l t).
Proof.
  revert s t; induction l as [|c l IH]; intros s t Sf R; [exact R|].
  cbn [safe] in Sf. apply andb_true_iff in Sf as [Sf1 Sf2].
  inversion R; subst.
  - exact Logic.I.
  - cbn [lit]. destruct (c =? c0); [apply IH; assumption | exact Logic.I].
  - rewrite md5_eq_cons, <- !app_comm_cons. cbn [lit].
    destruct (c =? 109); [|exact Logic.I].
    destruct l as [|d l]; [discriminate|]. cbn [lit app].
    destruct (d =? 100); [discriminate | exact Logic.I].
Qed.

Lemma hexes_rehashed (n : nat) (s t : text) :
  rehashed s t ->
  agree (fun a b => fst a = fst b /\ rehashed (snd a) (snd b))
        (hexes n s) (hexes n t).
Proof.
  revert s t; induction n as [|n IH]; intros s t R; [split; [reflexivity|exact R]|].
  inversion R; subst.
  - exact Logic.I.
  - cbn [hexes]. destruct (is_hex c); [|exact Logic.I].
    specialize (IH _ _ H). unfold agree in *.
    destruct (hexes n s0) as [[h1 r1]|], (hexes n t0) as [[h2 r2]|]; try tauto.
    simpl in *. destruct IH as [-> IH]. split; [reflexivity|exact IH].
  - rewrite md5_eq_cons, <- !app_comm_cons. exact Logic.I.
Qed.

Lemma span_space_rehashed (s t : text) :
  rehashed s t ->
  fst (span_space s) = fst (span_space t)
  /\ rehashed (snd (span_space s)) (snd (span_space t)).
Proof.
  induction 1 as [|c s t R IH|h h' s t L L' F F' R IH].
  - split; constructor.
  - cbn [span_space]. destruct (is_space c).
    + destruct (span_space s) as [a b], (span_space t) as [a' b'].
      simpl in *. destruct IH as [-> IH]. split; [reflexivity | exact IH].
    + split; [reflexivity | constructor; exact R].
  - rewrite md5_eq_cons, <- !app_comm_cons. cbn [span_space].
    change (is_space 109) with false. cbv iota.
    split; [reflexivity|]. rewrite !app_comm_cons, <- md5_eq_cons.
    apply rehashed_hash; assumption.
Qed.

Lemma spaces1_rehashed (s t : text) :
  rehashed s t ->
  agree (fun a b => fst a = fst b /\ rehashed (snd a) (snd b))
        (spaces1 s) (spaces1 t).
Proof.
  intro R. apply span_space_rehashed in R. unfold spaces1.
  destruct (span_space s) as [a b], (span_space t) as [a' b'].
  simpl in R. destruct R as [<- R]. destruct a; [exact Logic.I | split; [reflexivity|exact R]].
Qed.

Lemma digit01_rehashed (s t : text) :
  rehashed s t ->
  agree (fun a b => fst a = fst b /\ rehashed (snd a) (snd b))
        (digit01 s) (digit01 t).
Proof.
  intro R; inversion R; subst.
  - exact Logic.I.
  - cbn [digit01]. destruct (_ || _); [split; [reflexivity|assumption] | exact Logic.I].
  - rewrite md5_eq_cons, <- !app_comm_cons. exact Logic.I.
Qed.

(** A run of characters that are neither [<] nor a line feed is swallowed by
    the lazy [.*?]. *)
Lemma until_close_skip (x s : text) :
  Forall (fun c => c <> 60 /\ is_dot c = true) x ->
  until_close (x ++ s) =
  match until_close s with
  | Some (p, r) => Some (x ++ p, r)
  | None => None
  end.
Proof.
  induction 1 as [|c x [Hc Hd] F IH].
  - simpl. destruct (until_close s) as [[p r]|]; reflexivity.
  - rewrite <- app_comm_cons, until_close_eq.
    assert (L : lit tag_close (c :: x ++ s) = None).
    { change tag_close with (60 :: str "/File>"). cbn [lit].
      destruct (N.eqb_spec 60 c); [congruence | reflexivity]. }
    rewrite L, Hd, IH.
    destruct (until_close s) as [[p r]|]; reflexivity.
Qed.

Lemma hash_attr_plain (h : text) :
  Forall (fun c => is_hex c = true) h ->
  Forall (fun c => c <> 60 /\ is_dot c = true) (md5_eq ++ h ++ [quote]).
Proof.
  intro F. apply Forall_app; split; [|apply Forall_app; split].
  - repeat constructor; discriminate.
  - eapply Forall_impl; [|exact F]. intros c Hc.
    split; [intros ->; discriminate|]. unfold is_dot.
    destruct (N.eqb_spec c 10) as [->|]; [discriminate|reflexivity].
  - repeat constructor; discriminate.
Qed.

Lemma until_close_rehashed (s t : text) :
  rehashed s t ->
  agree (fun a b => rehashed (fst a) (fst b) /\ rehashed (snd a) (snd b))
        (until_close s) (until_close t).
Proof.
  induction 1 as [|c s t R IH|h h' s t L L' F F' R IH].
  - exact Logic.I.
  - rewrite (until_close_eq (c :: s)), (until_close_eq (c :: t)).
    pose proof (lit_rehashed tag_close (c :: s) (c :: t) eq_refl
                  (rehashed_char c s t R)) as A.
    unfold agree in A.
    destruct (lit tag_close (c :: s)), (lit tag_close (c :: t)); try tauto.
    + simpl. split; [constructor | exact A].
    + destruct (is_dot c); [|exact Logic.I]. unfold agree in *.
      destruct (until_close s) as [[p r]|], (until_close t) as [[p' r']|];
        try tauto.
      simpl in *. destruct IH as [IH1 IH2]. split; [constructor|]; assumption.
  - assert (A : forall k x, md5_eq ++ k ++ quote :: x = (md5_eq ++ k ++ [quote]) ++ x)
      by (intros; now rewrite <- !app_assoc).
    rewrite (A h s), (A h' t), !until_close_skip
      by (apply hash_attr_plain; assumption).
    unfold agree in *.
    destruct (until_close s) as [[p r]|], (until_close t) as [[p' r']|];
      try tauto.
    simpl in *. destruct IH as [IH1 IH2]. split; [|assumption].
    rewrite <- !A. apply rehashed_hash; assumption.
Qed.

Lemma path1_rehashed (s t : text) :
  rehashed s t ->
  agree (fun a b => rehashed (fst a) (fst b) /\ rehashed (snd a) (snd b))
        (path1 s) (path1 t).
Proof.
  intro R; inversion R as [|c s0 t0 R0|h h' s0 t0 L L' F F' R0]; subst.
  - exact Logic.I.
  - cbn [path1]. destruct (is_dot c); [|exact Logic.I].
    pose proof (until_close_rehashed _ _ R0) as A. unfold agree in *.
    destruct (until_close s0) as [[p r]|], (until_close t0) as [[p' r']|];
      try tauto.
    simpl in *. destruct A as [A1 A2]. split; [constructor|]; assumption.
  - assert (A : forall k x, md5_eq ++ k ++ quote :: x
                            = 109 :: ([100; 53; 61; 34] ++ k ++ [quote]) ++ x)
      by (intros; rewrite md5_eq_cons, <- !app_assoc; reflexivity).
    rewrite (A h s0), (A h' t0). cbn [path1].
    change (is_dot 109) with true. cbv iota.
    assert (P : forall k, Forall (fun c => is_hex c = true) k ->
                Forall (fun c => c <> 60 /\ is_dot c = true)
                       ([100; 53; 61; 34] ++ k ++ [quote])).
    { intros k Fk. pose proof (hash_attr_plain k Fk) as Q.
      rewrite md5_eq_cons in Q. now inversion Q. }
    rewrite !until_close_skip by (apply P; assumption).
    pose proof (until_close_rehashed _ _ R0) as B. unfold agree in *.
    destruct (until_close s0) as [[p r]|], (until_close t0) as [[p' r']|];
      try tauto.
    simpl in *. destruct B as [B1 B2]. split; [|assumption].
    change (109 :: ?x ++ ?y) with ((109 :: x) ++ y).
    rewrite <- !A. apply rehashed_hash; assumption.
Qed.

Lemma lit_cons (c : N) (l : text) (d : N) (s : text) :
  lit (c :: l) (d :: s) = if c =? d then lit l s else None.
Proof. reflexivity. Qed.

Lemma md5_attr_rehashed (s t : text) :
  rehashed s t ->
  (lit md5_eq s = None /\ lit md5_eq t = None)
  \/ exists s1 t1,
       lit md5_eq s = Some s1 /\ lit md5_eq t = Some t1
       /\ ((hexes 32 s1 = None /\ hexes 32 t1 = None)
           \/ exists h h' s2 t2,
                hexes 32 s1 = Some (h, s2) /\ hexes 32 t1 = Some (h', t2)
                /\ agree rehashed (lit [quote] s2) (lit [quote] t2)).
Proof.
  intro R; inversion R as [|c s0 t0 R0|h h' s0 t0 L L' F F' R0]; subst.
  - left; split; reflexivity.
  - rewrite md5_eq_cons, !lit_cons. destruct (109 =? c); [|left; split; reflexivity].
    pose proof (lit_rehashed [100; 53; 61; 34] s0 t0 eq_refl R0) as A.
    unfold agree in A.
    destruct (lit [100; 53; 61; 34] s0) as [s1|], (lit [100; 53; 61; 34] t0) as [t1|];
      try tauto.
    right. exists s1, t1. split; [reflexivity|split; [reflexivity|]].
    pose proof (hexes_rehashed 32 s1 t1 A) as B. unfold agree in B.
    destruct (hexes 32 s1) as [[h1 s2]|], (hexes 32 t1) as [[h2 t2]|]; try tauto.
    right. exists h1, h2, s2, t2. split; [reflexivity|split; [reflexivity|]].
    simpl in B. apply lit_rehashed; [reflexivity | tauto].
  - right. exists (h ++ quote :: s0), (h' ++ quote :: t0).
    rewrite !lit_app. split; [reflexivity|split; [reflexivity|]].
    right. exists h, h', (quote :: s0), (quote :: t0).
    split; [rewrite <- L; now apply hexes_app|].
    split; [rewrite <- L'; now apply hexes_app|].
    rewrite !lit_quote. exact R0.
Qed.

(** Where a text has no match at its head, the text with hashes replaced has
    none either, and conversely. *)
Lemma match_at_rehashed (s t : text) :
  rehashed s t ->
  agree (fun a b => rehashed (snd a) (snd b)) (match_at s) (match_at t).
Proof.
  intro R. unfold match_at.
  pose proof (lit_rehashed tag_open s t eq_refl R) as A1. unfold agree in A1.
  destruct (lit tag_open s) as [s1|], (lit tag_open t) as [t1|]; try tauto.
  pose proof (spaces1_rehashed s1 t1 A1) as A2. unfold agree in A2.
  destruct (spaces1 s1) as [[ws1 s2]|], (spaces1 t1) as [[ws1' t2]|]; try tauto.
  simpl in A2. destruct A2 as [<- A2].
  destruct (md5_attr_rehashed s2 t2 A2) as [[-> ->]|(s3 & t3 & -> & -> & A3)];
    [exact Logic.I|].
  destruct A3 as [[-> ->]|(h & h' & s4 & t4 & -> & -> & A4)]; [exact Logic.I|].
  unfold agree in A4.
  destruct (lit [quote] s4) as [s5|], (lit [quote] t4) as [t5|]; try tauto.
  pose proof (spaces1_rehashed s5 t5 A4) as A6. unfold agree in A6.
  destruct (spaces1 s5) as [[ws2 s6]|], (spaces1 t5) as [[ws2' t6]|]; try tauto.
  simpl in A6. destruct A6 as [<- A6].
  pose proof (lit_rehashed import_eq s6 t6 eq_refl A6) as A7. unfold agree in A7.
  destruct (lit import_eq s6) as [s7|], (lit import_eq t6) as [t7|]; try tauto.
  pose proof (digit01_rehashed s7 t7 A7) as A8. unfold agree in A8.
  destruct (digit01 s7) as [[d s8]|], (digit01 t7) as [[d' t8]|]; try tauto.
  simpl in A8. destruct A8 as [<- A8].
  pose proof (lit_rehashed tag_end s8 t8 eq_refl A8) as A9. unfold agree in A9.
  destruct (lit tag_end s8) as [s9|], (lit tag_end t8) as [t9|]; try tauto.
  pose proof (path1_rehashed s9 t9 A9) as A10. unfold agree in A10.
  destruct (path1 s9) as [[p s10]|], (path1 t9) as [[p' t10]|]; tauto.
Qed.

Lemma match_at_rehashed_None (s t : text) :
  rehashed s t -> match_at s = None -> match_at t = None.
Proof.
  intros R E. pose proof (match_at_rehashed s t R) as A. rewrite E in A.
  unfold agree in A. destruct (match_at t); [contradiction|reflexivity].
Qed.

(** *** The scan *)

Lemma group0_length_pos (m : groups) : entry_shape m -> (0 < List.length (group0 m))%nat.
Proof.
  intros (ws1 & ws2 & d & G1 & _). unfold group0. rewrite length_app, G1.
  cbn. lia.
Qed.

Lemma match_at_shorter (s : text) (m : groups) (r : text) :
  match_at s = Some (m, r) -> (List.length r < List.length s)%nat.
Proof.
  intro E. destruct (match_at_inv _ _ _ E) as (Sh & -> & _).
  rewrite length_app. pose proof (group0_length_pos m Sh). lia.
Qed.

(** The fuel of [pieces] is enough: more changes nothing. *)
Lemma scan_fuel (n : nat) (s : text) :
  (List.length s <= n)%nat -> scan n s = pieces s.
Proof.
  unfold pieces. remember (List.length s) as k eqn:K.
  assert (G : forall a b s, (List.length s <= a)%nat -> (List.length s <= b)%nat ->
                            scan a s = scan b s).
  { clear. induction a as [|a IH]; intros b s La Lb.
    - destruct s; [|simpl in La; lia]. destruct b; reflexivity.
    - destruct b as [|b]; [destruct s; [reflexivity|simpl in Lb; lia]|].
      destruct s as [|c s]; [reflexivity|]. cbn [scan].
      destruct (match_at (c :: s)) as [[m r]|] eqn:E.
      + f_equal. pose proof (match_at_shorter _ _ _ E).
        apply IH; simpl in *; lia.
      + f_equal. apply IH; simpl in *; lia. }
  intro L. apply G; lia.
Qed.

Lemma pieces_nil : pieces [] = [].
Proof. reflexivity. Qed.

Lemma pieces_cons (c : N) (s : text) :
  pieces (c :: s) =
  match match_at (c :: s) with
  | Some (m, r) => Match m :: pieces r
  | None => Skip c :: pieces s
  end.
Proof.
  unfold pieces at 1. cbn [List.length scan].
  destruct (match_at (c :: s)) as [[m r]|] eqn:E.
  - f_equal. apply scan_fuel. pose proof (match_at_shorter _ _ _ E).
    simpl in *; lia.
  - f_equal.
Qed.

(** An induction principle that follows the scan. *)
Lemma pieces_ind (P : text -> Prop) :
  P [] ->
  (forall c s, match_at (c :: s) = None -> P s -> P (c :: s)) ->
  (forall s m r, match_at s = Some (m, r) -> P r -> P s) ->
  forall s, P s.
Proof.
  intros H0 Hs Hm s. remember (List.length s) as n eqn:N.
  revert s N. induction n as [n IH] using lt_wf_ind. intros s N.
  destruct s as [|c s]; [exact H0|].
  destruct (match_at (c :: s)) as [[m r]|] eqn:E.
  - apply (Hm _ _ _ E). pose proof (match_at_shorter _ _ _ E).
    apply (IH (List.length r)); [lia|reflexivity].
  - apply (Hs _ _ E). apply (IH (List.length s)); [simpl in N; lia|reflexivity].
Qed.

Lemma pieces_match (s : text) (m : groups) (r : text) :
  match_at s = Some (m, r) -> pieces s = Match m :: pieces r.
Proof.
  intro E. destruct s as [|c s]; [discriminate|]. now rewrite pieces_cons, E.
Qed.

Lemma pieces_skip (c : N) (s : text) :
  match_at (c :: s) = None -> pieces (c :: s) = Skip c :: pieces s.
Proof. intro E. now rewrite pieces_cons, E. Qed.

(** The pieces of a text spell the text. *)
Lemma pieces_spell (s : text) : flat_map (render g2) (pieces s) = s.
Proof.
  induction s as [|c s E IH|s m r E IH] using pieces_ind.
  - reflexivity.
  - rewrite (pieces_skip _ _ E). cbn [flat_map render]. now rewrite IH.
  - rewrite (pieces_match _ _ _ E). cbn [flat_map render]. rewrite IH.
    destruct (match_at_inv _ _ _ E) as (_ & -> & _).
    destruct m; reflexivity.
Qed.

Lemma pieces_shape (s : text) (m : groups) :
  In (Match m) (pieces s) -> entry_shape m.
Proof.
  induction s as [|c s E IH|s m' r E IH] using pieces_ind.
  - intros [].
  - rewrite (pieces_skip _ _ E). intros [H|H]; [discriminate|auto].
  - rewrite (pieces_match _ _ _ E). intros [H|H]; [|auto].
    injection H as <-. now destruct (match_at_inv _ _ _ E).
Qed.

Lemma group0_split (m : groups) :
  entry_shape m ->
  exists a b, forall h,
    group0 (with_hash h m) = a ++ md5_eq ++ h ++ quote :: b.
Proof.
  intros (ws1 & ws2 & d & G1 & _ & _ & _ & _ & G3 & _).
  exists (tag_open ++ ws1), (ws2 ++ import_eq ++ d :: tag_end ++ g4 m ++ g5 m).
  intro h. unfold group0; cbn [with_hash g1 g2 g3 g4 g5]. rewrite G1, G3.
  repeat rewrite <- ?app_assoc, <- ?app_comm_cons. reflexivity.
Qed.

Lemma entry_shape_g2 (m : groups) :
  entry_shape m ->
  List.length (g2 m) = 32%nat /\ Forall (fun c => is_hex c = true) (g2 m).
Proof. intros (? & ? & ? & _ & _ & _ & L & F & _). now split. Qed.

Lemma with_hash_g2 (m : groups) : with_hash (g2 m) m = m.
Proof. now destruct m. Qed.

Lemma rehashed_render (hash : groups -> text) (s : text) :
  hash_ok hash -> rehashed s (flat_map (render hash) (pieces s)).
Proof.
  intro Ok. induction s as [|c s E IH|s m r E IH] using pieces_ind.
  - constructor.
  - rewrite (pieces_skip _ _ E). cbn [flat_map render app]. now constructor.
  - rewrite (pieces_match _ _ _ E). cbn [flat_map render].
    destruct (match_at_inv _ _ _ E) as (Sh & -> & _).
    destruct (group0_split m Sh) as (a & b & G).
    rewrite <- (with_hash_g2 m) at 1. rewrite !G, <- !app_assoc.
    apply rehashed_app; [apply rehashed_refl|].
    rewrite <- !app_comm_cons.
    destruct (Ok m Sh) as [L F]. destruct (entry_shape_g2 m Sh) as [L2 F2].
    apply rehashed_hash; try assumption.
    apply rehashed_app; [apply rehashed_refl | exact IH].
Qed.

(** Stability of the scan: in a text whose hashes were replaced, [FILE_RE]
    finds the same entries at the same places. *)
Lemma pieces_render (hash : groups -> text) (s : text) :
  hash_ok hash ->
  pieces (flat_map (render hash) (pieces s)) = map (rehash hash) (pieces s).
Proof.
  intro Ok. induction s as [|c s E IH|s m r E IH] using pieces_ind.
  - reflexivity.
  - rewrite (pieces_skip _ _ E). cbn [flat_map render app map rehash].
    rewrite pieces_skip, IH; [reflexivity|].
    apply (match_at_rehashed_None (c :: s)); [|exact E].
    constructor. now apply rehashed_render.
  - rewrite (pieces_match _ _ _ E). cbn [flat_map render map rehash].
    destruct (match_at_inv _ _ _ E) as (Sh & _ & _).
    destruct (Ok m Sh) as [L F].
    rewrite (pieces_match _ _ _
               (match_at_with_hash _ _ _ (hash m) _ E L F)).
    now rewrite IH.
Qed.

Ltac bools :=
  unfold is_upper_hex, is_hex, is_dot, in_range in *;
  repeat match goal with
  | |- context [?a <=? ?b] => destruct (N.leb_spec a b)
  | |- context [?a <? ?b] => destruct (N.ltb_spec a b)
  | |- context [?a =? ?b] => destruct (N.eqb_spec a b)
  | H : context [?a <=? ?b] |- _ => destruct (N.leb_spec a b)
  | H : context [?a <? ?b] |- _ => destruct (N.ltb_spec a b)
  | H : context [?a =? ?b] |- _ => destruct (N.eqb_spec a b)
  end; cbn [andb orb negb] in *; try reflexivity; try discriminate; try lia.

Lemma upper_char_idem (c : N) : upper_char (upper_char c) = upper_char c.
Proof. unfold upper_char. bools. Qed.

Lemma upper_idem (t : text) : upper (upper t) = upper t.
Proof. unfold upper. rewrite map_map. apply map_ext, upper_char_idem. Qed.

Lemma upper_length (t : text) : List.length (upper t) = List.length t.
Proof. apply length_map. Qed.

Lemma upper_char_hex (c : N) : is_hex c = true -> is_upper_hex (upper_char c) = true.
Proof. unfold upper_char. bools. Qed.

Lemma is_upper_hex_hex (c : N) : is_upper_hex c = true -> is_hex c = true.
Proof. bools. Qed.

Lemma upper_char_fix (c : N) : is_upper_hex c = true -> upper_char c = c.
Proof. unfold upper_char. bools. Qed.

Lemma upper_hex (t : text) :
  Forall (fun c => is_hex c = true) t ->
  Forall (fun c => is_upper_hex c = true) (upper t).
Proof.
  intro F. apply Forall_map. eapply Forall_impl; [|exact F].
  intros c; apply upper_char_hex.
Qed.

Lemma upper_fix (t : text) :
  Forall (fun c => is_upper_hex c = true) t -> upper t = t.
Proof.
  induction 1 as [|c t Hc F IH]; [reflexivity|].
  unfold upper in *. cbn [map]. now rewrite IH, upper_char_fix.
Qed.

Lemma upper_hex_weak (t : text) :
  Forall (fun c => is_upper_hex c = true) t -> Forall (fun c => is_hex c = true) t.
Proof. intro F; eapply Forall_impl; [|exact F]. apply is_upper_hex_hex. Qed.

Module MD5Facts.
Import MD5.

Lemma hexchar_hex (k : N) : k < 16 -> is_hex (hexchar k) = true.
Proof. intro K. unfold hexchar. destruct (N.ltb_spec k 10); bools. Qed.

Lemma le_bytes_length (n : nat) (x : N) : List.length (le_bytes n x) = n.
Proof. unfold le_bytes. now rewrite length_map, length_seq. Qed.

Lemma le_bytes_bound (n : nat) (x : N) : Forall (fun b => b < 256) (le_bytes n x).
Proof.
  unfold le_bytes. apply Forall_map, Forall_forall. intros k _.
  apply N.mod_lt. discriminate.
Qed.

Lemma digest_length (msg : bytes) : List.length (digest msg) = 16%nat.
Proof.
  unfold digest. destruct (fold_left _ _ _) as [[[a b] c] d].
  now rewrite !length_app, !le_bytes_length.
Qed.

Lemma digest_bound (msg : bytes) : Forall (fun b => b < 256) (digest msg).
Proof.
  unfold digest. destruct (fold_left _ _ _) as [[[a b] c] d].
  repeat (apply Forall_app; split); apply le_bytes_bound.
Qed.

Lemma hex2_hex (b : N) : b < 256 -> Forall (fun c => is_hex c = true) (hex2 b).
Proof.
  intro B. unfold hex2. repeat constructor; apply hexchar_hex.
  - apply N.Div0.div_lt_upper_bound. exact B.
  - apply N.mod_lt. discriminate.
Qed.

Lemma flat_map_hex2_length (l : list N) :
  List.length (flat_map hex2 l) = (2 * List.length l)%nat.
Proof. induction l as [|b l IH]; [reflexivity|]. cbn [flat_map hex2 app List.length]. lia. Qed.

(** The hexdigest is 32 hexadecimal digits. *)
Lemma hexdigest_length (msg : bytes) : List.length (hexdigest msg) = 32%nat.
Proof. unfold hexdigest. now rewrite flat_map_hex2_length, digest_length. Qed.

Lemma hexdigest_hex (msg : bytes) : Forall (fun c => is_hex c = true) (hexdigest msg).
Proof.
  unfold hexdigest. pose proof (digest_bound msg) as B.
  induction B as [|b l Hb B IH]; [constructor|].
  cbn [flat_map]. apply Forall_app; split; [now apply hex2_hex | exact IH].
Qed.

End MD5Facts.

Lemma new_hash_ok (e : env) (fs : filesystem) : hash_ok (new_hash e fs).
Proof.
  intros m Sh. unfold new_hash.
  destruct (fs (resolve e (g4 m))) as [[b|]|]; try now apply entry_shape_g2.
  split.
  - now rewrite upper_length, MD5Facts.hexdigest_length.
  - apply upper_hex_weak, upper_hex, MD5Facts.hexdigest_hex.
Qed.

Ltac cmp1 :=
  match goal with
  | |- context [?a =? ?b] => destruct (N.eqb_spec a b)
  | H : context [?a =? ?b] |- _ => destruct (N.eqb_spec a b)
  | |- context [?a <=? ?b] => destruct (N.leb_spec a b)
  | |- context [?a <? ?b] => destruct (N.ltb_spec a b)
  | H : context [?a <=? ?b] |- _ => destruct (N.leb_spec a b)
  | H : context [?a <? ?b] |- _ => destruct (N.ltb_spec a b)
  end.

Ltac cmp :=
  repeat (cmp1; cbn [andb orb negb] in *; try discriminate; try lia).

Lemma div_mod_64 (x : N) : x = 64 * (x / 64) + x mod 64 /\ x mod 64 < 64.
Proof. split; [apply N.div_mod; discriminate | apply N.mod_lt; discriminate]. Qed.

Lemma div_4096 (x : N) : x / 4096 = x / 64 / 64.
Proof. rewrite N.Div0.div_div. reflexivity. Qed.

Lemma div_262144 (x : N) : x / 262144 = x / 64 / 64 / 64.
Proof. rewrite !N.Div0.div_div. reflexivity. Qed.

Lemma decode_encode_char (c : N) (r : list N) :
  Utf8.scalar c = true ->
  Utf8.decode (Utf8.encode_char c ++ r) = option_map (cons c) (Utf8.decode r).
Proof.
  unfold Utf8.scalar, Utf8.encode_char, in_range. intro Sc.
  destruct (N.ltb_spec c 128) as [C1|C1].
  - cbn [app Utf8.decode]. destruct (N.ltb_spec c 128); [reflexivity|lia].
  - rewrite div_4096, div_262144.
    destruct (div_mod_64 c) as [E0 M0].
    destruct (div_mod_64 (c / 64)) as [E1 M1].
    destruct (div_mod_64 (c / 64 / 64)) as [E2 M2].
    set (m0 := c mod 64) in *. set (q0 := c / 64) in *.
    set (m1 := q0 mod 64) in *. set (q1 := q0 / 64) in *.
    set (m2 := q1 mod 64) in *. set (q2 := q1 / 64) in *.
    clearbody m0 q0 m1 q1 m2 q2.
    destruct (N.ltb_spec c 2048) as [C2|C2];
      [|destruct (N.ltb_spec c 65536) as [C3|C3]];
      cbn [app Utf8.decode]; unfold Utf8.cont, in_range;
      cmp; f_equal; f_equal; lia.
Qed.

Lemma decode_encode (t : text) :
  Forall (fun c => Utf8.scalar c = true) t ->
  Utf8.decode (Utf8.encode t) = Some t.
Proof.
  induction 1 as [|c t Hc F IH]; [reflexivity|].
  unfold Utf8.encode in *. cbn [flat_map].
  now rewrite decode_encode_char, IH.
Qed.

Lemma encode_char_bound (c : N) :
  Utf8.scalar c = true -> Forall (fun b => b < 256) (Utf8.encode_char c).
Proof.
  unfold Utf8.scalar, Utf8.encode_char, in_range. intro Sc.
  rewrite div_4096, div_262144.
  destruct (div_mod_64 c) as [E0 M0].
  destruct (div_mod_64 (c / 64)) as [E1 M1].
  destruct (div_mod_64 (c / 64 / 64)) as [E2 M2].
  set (m0 := c mod 64) in *. set (q0 := c / 64) in *.
  set (m1 := q0 mod 64) in *. set (q1 := q0 / 64) in *.
  set (m2 := q1 mod 64) in *. set (q2 := q1 / 64) in *.
  clearbody m0 q0 m1 q1 m2 q2.
  cmp; repeat constructor; lia.
Qed.

Lemma encode_bound (t : text) :
  Forall (fun c => Utf8.scalar c = true) t ->
  Forall (fun b => b < 256) (Utf8.encode t).
Proof.
  induction 1 as [|c t Hc F IH]; [constructor|].
  unfold Utf8.encode in *. cbn [flat_map]. apply Forall_app. split; [|exact IH].
  now apply encode_char_bound.
Qed.

Lemma to_N_byte_of_N (n : N) : n < 256 -> Byte.to_N (byte_of_N n) = n.
Proof.
  intro B. unfold byte_of_N. destruct (Byte.of_N n) as [b|] eqn:E.
  - now apply Byte.to_of_N.
  - apply Byte.of_N_None_iff in E. lia.
Qed.

Lemma to_N_bytes (l : list N) :
  Forall (fun b => b < 256) l -> map Byte.to_N (map byte_of_N l) = l.
Proof.
  induction 1 as [|b l Hb F IH]; [reflexivity|].
  cbn [map]. now rewrite IH, to_N_byte_of_N.
Qed.

(** What the decoder yields is made of scalar values. *)
Lemma decode_scalar (l : list N) (t : text) :
  Utf8.decode l = Some t -> Forall (fun c => Utf8.scalar c = true) t.
Proof.
  remember (List.length l) as n eqn:N. revert l t N.
  induction n as [n IH] using lt_wf_ind. intros l t N.
  destruct l as [|b0 r0]; [intro E; injection E as <-; constructor|].
  cbn [Utf8.decode]. unfold Utf8.cont, in_range.
  assert (K : forall c r t, (List.length r < n)%nat -> Utf8.scalar c = true ->
              option_map (cons c) (Utf8.decode r) = Some t ->
              Forall (fun c => Utf8.scalar c = true) t).
  { intros c r t' Lr Sc E. destruct (Utf8.decode r) as [t0|] eqn:D; [|discriminate].
    injection E as <-. constructor; [exact Sc|]. eapply IH; [exact Lr|reflexivity|exact D]. }
  subst n. cbn [List.length] in K.
  destruct (N.ltb_spec b0 128).
  { apply K; [lia|]. unfold Utf8.scalar, in_range. cmp. }
  destruct ((194 <=? b0) && (b0 <=? 223)) eqn:R2.
  { destruct r0 as [|b1 r1]; [discriminate|].
    destruct ((128 <=? b1) && (b1 <=? 191)) eqn:C1; [|discriminate].
    apply K; [cbn [List.length]; lia|]. unfold Utf8.scalar, in_range. cmp. }
  destruct ((224 <=? b0) && (b0 <=? 239)) eqn:R3.
  { destruct r0 as [|b1 [|b2 r2]]; try discriminate.
    match goal with |- (if ?x then _ else _) = _ -> _ => destruct x eqn:C1; [|discriminate] end.
    apply K; [cbn [List.length]; lia|]. unfold Utf8.scalar, in_range.
    clear K IH. cmp. }
  destruct ((240 <=? b0) && (b0 <=? 244)) eqn:R4; [|discriminate].
  destruct r0 as [|b1 [|b2 [|b3 r3]]]; try discriminate.
  match goal with |- (if ?x then _ else _) = _ -> _ => destruct x eqn:C1; [|discriminate] end.
  apply K; [cbn [List.length]; lia|]. unfold Utf8.scalar, in_range.
  clear K IH. cmp.
Qed.

Lemma nl_in_cons (c : N) (r : text) :
  nl_in (c :: r) =
  if c =? 13 then
    10 :: match r with
          | d :: r' => if d =? 10 then nl_in r' else nl_in r
          | [] => []
          end
  else c :: nl_in r.
Proof. reflexivity. Qed.

(** Properties of every element carry through the newline translation. *)
Lemma nl_in_Forall (P : N -> Prop) (t : text) :
  P 10 -> Forall P t -> Forall P (nl_in t).
Proof.
  intro P10. remember (List.length t) as n eqn:N. revert t N.
  induction n as [n IH] using lt_wf_ind. intros t N F.
  destruct t as [|c r]; [constructor|]. rewrite nl_in_cons.
  inversion F as [|? ? Pc Fr]; subst.
  destruct (c =? 13).
  - constructor; [exact P10|]. destruct r as [|d r']; [constructor|].
    inversion Fr; subst.
    destruct (d =? 10); (eapply IH; [|reflexivity|]); cbn [List.length]; auto; lia.
  - constructor; [exact Pc|]. eapply IH; [|reflexivity|exact Fr]. cbn [List.length]; lia.
Qed.

Lemma nl_in_no_cr (t : text) : Forall (fun c => c <> 13) (nl_in t).
Proof.
  remember (List.length t) as n eqn:N. revert t N.
  induction n as [n IH] using lt_wf_ind. intros t N.
  destruct t as [|c r]; [constructor|]. rewrite nl_in_cons.
  destruct (N.eqb_spec c 13).
  - constructor; [discriminate|]. destruct r as [|d r']; [constructor|].
    destruct (d =? 10); (eapply IH; [|reflexivity]); subst n; cbn [List.length]; lia.
  - constructor; [assumption|]. eapply IH; [|reflexivity]. subst n; cbn [List.length]; lia.
Qed.

Lemma nl_in_id (t : text) : Forall (fun c => c <> 13) t -> nl_in t = t.
Proof.
  induction 1 as [|c t Hc F IH]; [reflexivity|]. rewrite nl_in_cons.
  destruct (N.eqb_spec c 13); [contradiction|]. now rewrite IH.
Qed.

Lemma nl_in_out (o : platform) (t : text) :
  Forall (fun c => c <> 13) t -> nl_in (nl_out o t) = t.
Proof.
  destruct o; [apply nl_in_id|]. cbn [nl_out].
  induction 1 as [|c t Hc F IH]; [reflexivity|]. cbn [flat_map].
  destruct (N.eqb_spec c 10) as [->|Hn].
  - cbn [app]. rewrite nl_in_cons. cbn. now rewrite IH.
  - cbn [app]. rewrite nl_in_cons.
    destruct (N.eqb_spec c 13); [contradiction|]. now rewrite IH.
Qed.

Lemma nl_out_scalar (o : platform) (t : text) :
  Forall (fun c => Utf8.scalar c = true) t ->
  Forall (fun c => Utf8.scalar c = true) (nl_out o t).
Proof.
  destruct o; [trivial|]. cbn [nl_out].
  induction 1 as [|c t Hc F IH]; [constructor|]. cbn [flat_map].
  destruct (c =? 10); cbn [app]; repeat constructor; assumption.
Qed.

Lemma clean_scalar (t : text) : clean t -> Forall (fun c => Utf8.scalar c = true) t.
Proof. intro C; eapply Forall_impl; [|exact C]. now intros c [? ?]. Qed.

Lemma clean_no_cr (t : text) : clean t -> Forall (fun c => c <> 13) t.
Proof. intro C; eapply Forall_impl; [|exact C]. now intros c [? ?]. Qed.

(** Round trip of the text layer: what is written is read back unchanged. *)
Lemma decode_encode_text (o : platform) (t : text) :
  clean t -> decode_text (encode_text o t) = Some t.
Proof.
  intro C. unfold decode_text, encode_text.
  rewrite to_N_bytes
    by (apply encode_bound, nl_out_scalar, clean_scalar, C).
  rewrite decode_encode by (apply nl_out_scalar, clean_scalar, C).
  cbn [option_map]. now rewrite nl_in_out by (apply clean_no_cr, C).
Qed.

Lemma decode_text_clean (b : bytes) (t : text) : decode_text b = Some t -> clean t.
Proof.
  unfold decode_text. destruct (Utf8.decode _) as [t0|] eqn:D; [|discriminate].
  intro E; injection E as <-. apply decode_scalar in D.
  unfold clean. apply Forall_and.
  - apply nl_in_Forall; [reflexivity | exact D].
  - apply nl_in_no_cr.
Qed.

Lemma clean_hex (h : text) : Forall (fun c => is_hex c = true) h -> clean h.
Proof.
  intro F; eapply Forall_impl; [|exact F]. intros c Hc.
  unfold Utf8.scalar, is_hex, in_range in *. split; [|intros ->; discriminate].
  destruct (N.ltb_spec c 1114112), (N.leb_spec 55296 c); cbn; try reflexivity;
    revert Hc; cmp.
Qed.

Lemma clean_rehashed (s t : text) : rehashed s t -> clean s -> clean t.
Proof.
  unfold clean. induction 1 as [|c s t R IH|h h' s t L L' F F' R IH]; intro C.
  - constructor.
  - inversion C; subst. constructor; auto.
  - apply Forall_app in C as [C1 C2]. apply Forall_app in C2 as [_ C2].
    inversion C2; subst.
    apply Forall_app; split; [exact C1|]. apply Forall_app; split.
    + now apply clean_hex.
    + constructor; auto.
Qed.

(** *** One call of [replace_match] *)

Lemma replace_match_missing (e : env) (fs : filesystem) (m : groups) (s : run_state) :
  fs (resolve e (g4 m)) = None ->
  replace_match e fs m s
  = Returned (group0 m) (RunState (updated s) (printed s ++ [str "  MISSING: " ++ g4 m])).
Proof.
  intro E. unfold replace_match, exists_. rewrite E. reflexivity.
Qed.

Lemma replace_match_locked (e : env) (fs : filesystem) (m : groups) (s : run_state) :
  fs (resolve e (g4 m)) = Some Locked ->
  replace_match e fs m s = Raised PermissionError s.
Proof.
  intro E. unfold replace_match, exists_, md5_of, read_bytes. rewrite E. reflexivity.
Qed.

Lemma replace_match_file (e : env) (fs : filesystem) (m : groups) (s : run_state) (b : bytes) :
  fs (resolve e (g4 m)) = Some (File b) ->
  replace_match e fs m s
  = Returned (group0 (with_hash (upper (MD5.hexdigest b)) m))
      (if text_eqb (upper (g2 m)) (upper (MD5.hexdigest b)) then s
       else RunState (S (updated s))
              (printed s ++ [str "  " ++ g4 m ++ str ": " ++ upper (g2 m)
                               ++ str " -> " ++ upper (MD5.hexdigest b)])).
Proof.
  intro E. unfold replace_match, exists_, md5_of, read_bytes. rewrite E.
  cbn [negb]. unfold bind, ret. cbn beta iota.
  destruct (text_eqb (upper (g2 m)) (upper (MD5.hexdigest b))); reflexivity.
Qed.

(** One call, in the vocabulary of the statements. *)
Lemma replace_match_spec (e : env) (fs : filesystem) (m : groups) (s : run_state) :
  replace_match e fs m s
  = if locked e fs m then Raised PermissionError s
    else Returned (render (new_hash e fs) (Match m))
           (RunState (updated s + spec_count e fs [Match m])
                     (printed s ++ spec_lines e fs (Match m))).
Proof.
  unfold locked, spec_count, spec_lines, missing, outdated, exists_, new_hash, render.
  cbn [filter].
  destruct (fs (resolve e (g4 m))) as [[b|]|] eqn:E.
  - rewrite (replace_match_file _ _ _ _ _ E). cbn [negb].
    destruct (text_eqb (upper (g2 m)) (upper (MD5.hexdigest b))); cbn [negb List.length].
    + rewrite Nat.add_0_r, app_nil_r. now destruct s.
    + rewrite Nat.add_1_r. unfold spec_update_line, new_hash. now rewrite E.
  - now rewrite (replace_match_locked _ _ _ _ E).
  - rewrite (replace_match_missing _ _ _ _ E). cbn [negb List.length].
    rewrite Nat.add_0_r, with_hash_g2. reflexivity.
Qed.

(** *** The substitution pass *)

Lemma spec_count_cons (e : env) (fs : filesystem) (p : piece) (ps : list piece) :
  spec_count e fs (p :: ps) = (spec_count e fs [p] + spec_count e fs ps)%nat.
Proof.
  unfold spec_count. cbn [filter].
  destruct (match p with Match m => outdated e fs m | Skip _ => false end); reflexivity.
Qed.

Lemma sub_pieces_returned (e : env) (fs : filesystem) (ps : list piece) (s : run_state) :
  (forall m, In (Match m) ps -> locked e fs m = false) ->
  sub_pieces (replace_match e fs) ps s
  = Returned (flat_map (render (new_hash e fs)) ps)
      (RunState (updated s + spec_count e fs ps)
                (printed s ++ flat_map (spec_lines e fs) ps)).
Proof.
  revert s; induction ps as [|[c|m] ps IH]; intros s NL.
  - cbn. rewrite Nat.add_0_r, app_nil_r. now destruct s.
  - cbn [sub_pieces]. unfold bind. rewrite IH by (intros; apply NL; now right).
    reflexivity.
  - cbn [sub_pieces]. unfold bind at 1. rewrite replace_match_spec.
    rewrite (NL m (or_introl eq_refl)). unfold bind.
    rewrite IH by (intros; apply NL; now right). unfold ret.
    cbn [updated printed flat_map]. rewrite (spec_count_cons e fs (Match m) ps).
    now rewrite Nat.add_assoc, <- app_assoc.
Qed.

Lemma sub_pieces_raised (e : env) (fs : filesystem) (ps : list piece) (s : run_state) :
  (exists m, In (Match m) ps /\ locked e fs m = true) ->
  exists n lines,
    sub_pieces (replace_match e fs) ps s
    = Raised PermissionError (RunState n (printed s ++ lines)).
Proof.
  revert s; induction ps as [|[c|m] ps IH]; intros s (m0 & I & L).
  - destruct I.
  - destruct I as [I|I]; [discriminate|].
    destruct (IH s (ex_intro _ m0 (conj I L))) as (n & lines & E).
    exists n, lines. cbn [sub_pieces]. unfold bind. now rewrite E.
  - cbn [sub_pieces]. unfold bind at 1. rewrite replace_match_spec.
    destruct (locked e fs m) eqn:Lm.
    + exists (updated s), []. rewrite app_nil_r. now destruct s.
    + destruct I as [I|I]; [injection I as ->; congruence|].
      destruct (IH (RunState (updated s + spec_count e fs [Match m])
                             (printed s ++ spec_lines e fs (Match m)))
                   (ex_intro _ m0 (conj I L))) as (n & lines & E).
      exists n, (spec_lines e fs (Match m) ++ lines).
      unfold bind. rewrite E. cbn [printed]. now rewrite app_assoc.
Qed.

Lemma locked_dec (e : env) (fs : filesystem) (ps : list piece) :
  (forall m, In (Match m) ps -> locked e fs m = false)
  \/ (exists m, In (Match m) ps /\ locked e fs m = true).
Proof.
  induction ps as [|[c|m] ps [IH|(m0 & I & L)]].
  - left; intros m [].
  - left; intros m [H|H]; [discriminate|auto].
  - right; exists m0; split; [now right|exact L].
  - destruct (locked e fs m) eqn:Lm.
    + right; exists m; split; [now left|exact Lm].
    + left; intros m' [H|H]; [injection H as <-; exact Lm|auto].
  - right; exists m0; split; [now right|exact L].
Qed.

(** What a run that returns has done. *)
Lemma substitute_returned (e : env) (w : world) (t new_text : text) (s : run_state) :
  substitute e w t = Returned new_text s ->
  (forall m, In (Match m) (pieces t) -> locked e (disk w) m = false)
  /\ new_text = flat_map (render (new_hash e (disk w))) (pieces t)
  /\ updated s = spec_count e (disk w) (pieces t)
  /\ printed s = stdout w ++ flat_map (spec_lines e (disk w)) (pieces t).
Proof.
  unfold substitute, re_sub. intro E.
  destruct (locked_dec e (disk w) (pieces t)) as [NL|L].
  - rewrite (sub_pieces_returned _ _ _ _ NL) in E. injection E as <- <-.
    cbn [updated printed]. auto.
  - destruct (sub_pieces_raised e (disk w) (pieces t) (RunState 0 (stdout w)) L)
      as (n & lines & E'). congruence.
Qed.

(** *** [main] *)


Lemma main_read_error (e : env) (w : world) (x : exn) :
  read_text (disk w) (MODINFO e) = inl x -> main e w = Traceback x w.
Proof. intro E. unfold main. now rewrite E. Qed.

Lemma main_raised (e : env) (w : world) (t : text) (x : exn) (s : run_state) :
  read_text (disk w) (MODINFO e) = inr t ->
  substitute e w t = Raised x s ->
  main e w = Traceback x (World (disk w) (printed s) (writes w)).
Proof. intros E1 E2. unfold main. now rewrite E1, E2. Qed.

Lemma main_unchanged (e : env) (w : world) (t nt : text) (s : run_state) :
  read_text (disk w) (MODINFO e) = inr t ->
  substitute e w t = Returned nt s ->
  updated s = 0%nat ->
  main e w = Exit (World (disk w) (printed s ++ [str "All hashes up to date."]) (writes w)).
Proof. intros E1 E2 U. unfold main. rewrite E1, E2, U. reflexivity. Qed.

Lemma main_written (e : env) (w : world) (t nt : text) (s : run_state) :
  read_text (disk w) (MODINFO e) = inr t ->
  substitute e w t = Returned nt s ->
  (0 < updated s)%nat ->
  main e w =
  Exit (World (fun q => if text_eqb q (MODINFO e)
                        then Some (File (encode_text (os e) nt)) else disk w q)
              (printed s ++ [str "Updated " ++ decimal (updated s) ++ str " hash(es)."])
              (writes w ++ [(MODINFO e, encode_text (os e) nt)])).
Proof.
  intros E1 E2 U. unfold main. rewrite E1, E2.
  destruct (updated s) as [|n]; [lia|]. reflexivity.
Qed.

Lemma main_exit_inv (e : env) (w w' : world) :
  main e w = Exit w' ->
  exists t nt s,
    read_text (disk w) (MODINFO e) = inr t
    /\ substitute e w t = Returned nt s.
Proof.
  unfold main. destruct (read_text (disk w) (MODINFO e)) as [x|t]; [discriminate|].
  destruct (substitute e w t) as [nt s|x s] eqn:E; [|discriminate].
  intros _. now exists t, nt, s.
Qed.

Lemma read_text_file (fs : filesystem) (p : path) (t : text) :
  read_text fs p = inr t -> exists b, fs p = Some (File b) /\ decode_text b = Some t.
Proof.
  unfold read_text. destruct (fs p) as [[b|]|]; try discriminate.
  destruct (decode_text b) as [t0|] eqn:D; [|discriminate].
  intro E; injection E as <-. now exists b.
Qed.

Lemma read_text_clean (fs : filesystem) (p : path) (t : text) :
  read_text fs p = inr t -> clean t.
Proof. intro E. destruct (read_text_file _ _ _ E) as (b & _ & D). eapply decode_text_clean, D. Qed.

(** The text a run writes reads back as it was written. *)
Lemma read_back (e : env) (fs : filesystem) (t : text) (hash : groups -> text) :
  clean t -> hash_ok hash ->
  decode_text (encode_text (os e) (flat_map (render hash) (pieces t)))
  = Some (flat_map (render hash) (pieces t)).
Proof.
  intros C Ok. apply decode_encode_text.
  eapply clean_rehashed; [|exact C]. now apply rehashed_render.
Qed.

(** What the files named by the entries hold decides everything. *)
Lemma entry_facts_ext (e : env) (fs fs' : filesystem) (m : groups) :
  fs' (resolve e (g4 m)) = fs (resolve e (g4 m)) ->
  locked e fs' m = locked e fs m
  /\ new_hash e fs' m = new_hash e fs m
  /\ missing e fs' m = missing e fs m
  /\ outdated e fs' m = outdated e fs m.
Proof.
  intro E. unfold locked, new_hash, missing, outdated, exists_. now rewrite E.
Qed.

Lemma spec_lines_ext (e : env) (fs fs' : filesystem) (ps : list piece) :
  (forall m, In (Match m) ps -> fs' (resolve e (g4 m)) = fs (resolve e (g4 m))) ->
  flat_map (spec_lines e fs') ps = flat_map (spec_lines e fs) ps
  /\ spec_count e fs' ps = spec_count e fs ps
  /\ flat_map (render (new_hash e fs')) ps = flat_map (render (new_hash e fs)) ps.
Proof.
  induction ps as [|[c|m] ps IH]; intro A.
  - repeat split.
  - destruct IH as (I1 & I2 & I3); [intros; apply A; now right|].
    rewrite (spec_count_cons e fs'), (spec_count_cons e fs).
    cbn [flat_map spec_lines render]. rewrite I1, I2, I3. repeat split.
  - destruct IH as (I1 & I2 & I3); [intros; apply A; now right|].
    destruct (entry_facts_ext e fs fs' m (A m (or_introl eq_refl)))
      as (L & H & M & O).
    rewrite (spec_count_cons e fs'), (spec_count_cons e fs).
    cbn [flat_map]. rewrite I1, I2, I3.
    unfold spec_count, spec_lines, spec_update_line, render. cbn [filter].
    rewrite M, O, H. repeat split.
Qed.

Lemma sub_pieces_ext (e : env) (fs fs' : filesystem) (ps : list piece) (s : run_state) :
  (forall m, In (Match m) ps -> fs' (resolve e (g4 m)) = fs (resolve e (g4 m))) ->
  sub_pieces (replace_match e fs') ps s = sub_pieces (replace_match e fs) ps s.
Proof.
  revert s; induction ps as [|[c|m] ps IH]; intros s A.
  - reflexivity.
  - cbn [sub_pieces]. unfold bind. rewrite IH by (intros; apply A; now right).
    reflexivity.
  - cbn [sub_pieces]. unfold bind at 1 3. rewrite !replace_match_spec.
    destruct (entry_facts_ext e fs fs' m (A m (or_introl eq_refl)))
      as (L & H & M & O).
    rewrite L. destruct (locked e fs m); [reflexivity|].
    unfold spec_count, spec_lines, spec_update_line, render. cbn [filter].
    rewrite M, O, H. unfold bind.
    rewrite IH by (intros; apply A; now right). reflexivity.
Qed.

(** C4. The manifest is written exactly when the counter is positive after
    the substitution: then the file holds the encoded new text and one write
    is recorded; with the counter at zero, which is the case in particular
    when nothing matches, the disk is the same and no write is recorded. *)
Theorem written_iff_updated
    (e : env) (w : world) (t new_text : text) (s : run_state) :
  read_text (disk w) (MODINFO e) = inr t ->
  substitute e w t = Returned new_text s ->
  exists w',
    main e w = Exit w'
    /\ ((0 < updated s)%nat ->
        writes w' = writes w ++ [(MODINFO e, encode_text (os e) new_text)]
        /\ disk w' (MODINFO e) = Some (File (encode_text (os e) new_text))
        /\ forall p, p <> MODINFO e -> disk w' p = disk w p)
    /\ (updated s = 0%nat -> writes w' = writes w /\ disk w' = disk w)
    /\ (writes w' <> writes w <-> (0 < updated s)%nat)
    /\ ((forall m, ~ In (Match m) (pieces t)) -> updated s = 0%nat).
Proof.
  intros E1 E2.
  assert (Z : (forall m, ~ In (Match m) (pieces t)) -> updated s = 0%nat).
  { intro NM. destruct (substitute_returned _ _ _ _ _ E2) as (_ & _ & -> & _).
    unfold spec_count. induction (pieces t) as [|[c|m] ps IH]; [reflexivity| |].
    - cbn [filter]. apply IH. intros m I. apply (NM m). now right.
    - destruct (NM m). now left. }
  destruct (Nat.eq_dec (updated s) 0) as [U|U].
  - eexists. split; [apply (main_unchanged _ _ _ _ _ E1 E2 U)|].
    cbn [writes disk]. repeat split; auto; try lia.
    intro H; now destruct H.
  - eexists. split; [apply (main_written _ _ _ _ _ E1 E2); lia|].
    cbn [writes disk]. rewrite text_eqb_refl. repeat split; auto; try lia.
    + intros p N. destruct (text_eqb p (MODINFO e)) eqn:Q; [|reflexivity].
      apply text_eqb_eq in Q. contradiction.
    + intros _ H. apply (f_equal (@List.length _)) in H.
      rewrite length_app in H. cbn in H. lia.
Qed.

Lemma written_iff_updated_witness :
  exists w',
    main here scenario = Exit w'
    /\ writes w' <> writes scenario.
Proof.
  destruct (written_iff_updated here scenario scenario_manifest
              (flat_map (render (new_hash here (disk scenario))) (pieces scenario_manifest))
              (RunState 1 [str "  a.xml: 00000000000000000000000000000000 -> 900150983CD24FB0D6963F7D28E17F72";
                           str "  MISSING: missing.xml"]))
    as (w' & M & _ & _ & I & _).
  - vm_compute; reflexivity.
  - vm_compute; reflexivity.
  - exists w'. split; [exact M|]. apply I. cbn. lia.
Defined.

(** C6. When the manifest cannot be read (it does not exist, it cannot be
    opened, it is not valid UTF-8), or when a file an entry names exists and
    cannot be read, [main] ends in a traceback; the disk is the one it was
    started on and no write is recorded. *)
Theorem fatal_errors_leave_the_disk (e : env) (w : world) :
  ((disk w (MODINFO e) = None
    \/ disk w (MODINFO e) = Some Locked
    \/ exists b, disk w (MODINFO e) = Some (File b) /\ decode_text b = None) ->
   exists x, main e w = Traceback x w)
  /\ (forall t m,
        read_text (disk w) (MODINFO e) = inr t ->
        In (Match m) (pieces t) ->
        disk w (resolve e (g4 m)) = Some Locked ->
        exists w', main e w = Traceback PermissionError w'
                   /\ disk w' = disk w /\ writes w' = writes w).
Proof.
  split.
  - intros [E|[E|(b & E & D)]]; eexists; apply main_read_error;
      unfold read_text; rewrite E; try rewrite D; reflexivity.
  - intros t m E I L.
    destruct (sub_pieces_raised e (disk w) (pieces t) (RunState 0 (stdout w)))
      as (n & lines & R).
    { exists m. split; [exact I|]. unfold locked. now rewrite L. }
    eexists. split; [apply (main_raised _ _ _ _ _ E R)|]. split; reflexivity.
Qed.

Lemma fatal_errors_leave_the_disk_witness :
  exists w', main here locked_world = Traceback PermissionError w'
             /\ disk w' = disk locked_world /\ writes w' = writes locked_world.
Proof.
  apply (proj2 (fatal_errors_leave_the_disk here locked_world)
               scenario_manifest scenario_a).
  - vm_compute; reflexivity.
  - vm_compute. left; reflexivity.
  - reflexivity.
Defined.

(** C10. A run is decided by the text of the manifest and by what the
    paths of its entries resolve to: two worlds that agree on these (and on
    what standard output already holds) give the same result of the
    substitution (text, counter, lines), the same standard output, the same
    bytes written, and end the same way. *)
Theorem run_is_determined (e : env) (w1 w2 : world) (t : text) :
  read_text (disk w1) (MODINFO e) = inr t ->
  read_text (disk w2) (MODINFO e) = inr t ->
  (forall m, In (Match m) (pieces t) ->
             disk w1 (resolve e (g4 m)) = disk w2 (resolve e (g4 m))) ->
  stdout w1 = stdout w2 ->
  substitute e w1 t = substitute e w2 t
  /\ match main e w1, main e w2 with
     | Exit a, Exit b =>
         stdout a = stdout b
         /\ read_text (disk a) (MODINFO e) = read_text (disk b) (MODINFO e)
         /\ exists ws, writes a = writes w1 ++ ws /\ writes b = writes w2 ++ ws
     | Traceback x a, Traceback y b =>
         x = y /\ stdout a = stdout b
         /\ writes a = writes w1 /\ writes b = writes w2
     | _, _ => False
     end.
Proof.
  intros E1 E2 A O.
  assert (S : substitute e w1 t = substitute e w2 t).
  { unfold substitute, re_sub. rewrite O. now apply sub_pieces_ext. }
  split; [exact S|].
  destruct (substitute e w2 t) as [nt s|x s] eqn:R.
  - destruct (Nat.eq_dec (updated s) 0) as [Z|Z].
    + rewrite (main_unchanged _ _ _ _ _ E1 S Z), (main_unchanged _ _ _ _ _ E2 R Z).
      cbn [stdout disk writes]. split; [reflexivity|]. split.
      * now rewrite E1, E2.
      * exists []. now rewrite !app_nil_r.
    + rewrite (main_written _ _ _ _ _ E1 S), (main_written _ _ _ _ _ E2 R) by lia.
      cbn [stdout disk writes]. unfold read_text. rewrite text_eqb_refl.
      repeat split. eexists; split; reflexivity.
  - rewrite (main_raised _ _ _ _ _ E1 S), (main_raised _ _ _ _ _ E2 R).
    cbn [stdout writes]. repeat split.
Qed.

Lemma run_is_determined_witness :
  substitute here scenario scenario_manifest
  = substitute here scenario_more scenario_manifest.
Proof.
  assert (H1 : read_text (disk scenario) (MODINFO here) = inr scenario_manifest)
    by (vm_compute; reflexivity).
  assert (H2 : read_text (disk scenario_more) (MODINFO here) = inr scenario_manifest)
    by (vm_compute; reflexivity).
  assert (H3 : forall m, In (Match m) (pieces scenario_manifest) ->
               disk scenario (resolve here (g4 m))
               = disk scenario_more (resolve here (g4 m))).
  { intros m I. vm_compute in I.
    destruct I as [I|[I|[I|[]]]]; try discriminate; injection I as <-;
      vm_compute; reflexivity. }
  pose proof (run_is_determined here scenario scenario_more scenario_manifest
                  H1 H2 H3) as H.
  assert (H4 : stdout scenario = stdout scenario_more) by reflexivity.
  specialize (H H4).
  destruct H as [H _].
  exact H.
Defined.

(** *** The frame of a run *)

Lemma outside_app (m1 m2 : list bool) (t1 t2 : text) :
  List.length m1 = List.length t1 ->
  outside (m1 ++ m2) (t1 ++ t2) = outside m1 t1 ++ outside m2 t2.
Proof.
  revert t1; induction m1 as [|b m1 IH]; intros [|c t1] L; try discriminate.
  - reflexivity.
  - unfold outside in *. cbn [app combine map]. f_equal. apply IH.
    now injection L.
Qed.

Lemma outside_marked (h h' : text) :
  List.length h = List.length h' ->
  outside (repeat true (List.length h)) h = outside (repeat true (List.length h)) h'.
Proof.
  revert h'; induction h as [|c h IH]; intros [|c' h'] L; try discriminate.
  - reflexivity.
  - unfold outside in *. cbn [List.length repeat combine map fst]. f_equal.
    apply IH. now injection L.
Qed.

Lemma render_eq (hash : groups -> text) (m : groups) :
  render hash (Match m) = g1 m ++ hash m ++ g3 m ++ g4 m ++ g5 m.
Proof. reflexivity. Qed.

Lemma outside_render (sel : groups -> bool) (hash : groups -> text) (ps : list piece) :
  (forall m, In (Match m) ps -> List.length (hash m) = List.length (g2 m)) ->
  (forall m, In (Match m) ps -> sel m = false -> hash m = g2 m) ->
  outside (hash_mask sel ps) (flat_map (render hash) ps)
  = outside (hash_mask sel ps) (flat_map (render g2) ps)
  /\ List.length (flat_map (render hash) ps) = List.length (flat_map (render g2) ps).
Proof.
  induction ps as [|[c|m] ps IH]; intros L K.
  - split; reflexivity.
  - destruct IH as [I1 I2]; [intros; apply L; now right | intros; apply K; [now right | assumption]|].
    cbn [hash_mask flat_map render]. split.
    + change (false :: ?x) with ([false] ++ x).
      rewrite !(outside_app [false] _ [c]) by reflexivity. now rewrite I1.
    + cbn [app List.length]. now rewrite I2.
  - destruct IH as [I1 I2]; [intros; apply L; now right | intros; apply K; [now right | assumption]|].
    specialize (L m (or_introl eq_refl)). specialize (K m (or_introl eq_refl)).
    cbn [hash_mask flat_map]. rewrite !render_eq. split.
    + rewrite <- !app_assoc.
      rewrite !(outside_app (repeat false _)) by now rewrite repeat_length.
      f_equal.
      rewrite !(outside_app (repeat (sel m) _))
        by (rewrite repeat_length; auto).
      f_equal.
      * destruct (sel m); [symmetry; now apply outside_marked | now rewrite K].
      * assert (A : forall x, g3 m ++ g4 m ++ g5 m ++ x = (g3 m ++ g4 m ++ g5 m) ++ x)
          by (intro; now rewrite <- !app_assoc).
        rewrite !A.
        rewrite !(outside_app (repeat false _)) by now rewrite repeat_length.
        now rewrite I1.
    + rewrite !length_app, L, I2. reflexivity.
Qed.

Lemma new_hash_length (e : env) (fs : filesystem) (t : text) (m : groups) :
  In (Match m) (pieces t) ->
  List.length (new_hash e fs m) = List.length (g2 m).
Proof.
  intro I. pose proof (pieces_shape _ _ I) as Sh.
  destruct (new_hash_ok e fs m Sh) as [L _].
  destruct (entry_shape_g2 m Sh) as [L' _]. congruence.
Qed.

Lemma spec_count_zero (e : env) (fs : filesystem) (ps : list piece) :
  spec_count e fs ps = 0%nat <->
  forall m, In (Match m) ps -> outdated e fs m = false.
Proof.
  induction ps as [|[c|m] ps IH].
  - split; [intros _ m []|reflexivity].
  - rewrite spec_count_cons. change (spec_count e fs [Skip c]) with 0%nat.
    rewrite Nat.add_0_l, IH. split; intros H m I.
    + destruct I as [I|I]; [discriminate|auto].
    + apply H. now right.
  - rewrite spec_count_cons. unfold spec_count at 1. cbn [filter].
    destruct (outdated e fs m) eqn:O.
    + split; [discriminate|]. intro H. rewrite (H m (or_introl eq_refl)) in O.
      discriminate.
    + cbn [List.length]. rewrite Nat.add_0_l, IH. split; intros H m' I.
      * destruct I as [I|I]; [injection I as <-; exact O|auto].
      * apply H. now right.
Qed.

Lemma in_map_rehash (hash : groups -> text) (ps : list piece) (m' : groups) :
  In (Match m') (map (rehash hash) ps) ->
  exists m, In (Match m) ps /\ m' = with_hash (hash m) m.
Proof.
  intro I. apply in_map_iff in I as ([c|m] & E & I); [discriminate|].
  injection E as <-. now exists m.
Qed.

Lemma disk_after_write (e : env) (w : world) (b : bytes) (p : path) :
  p <> MODINFO e ->
  (if text_eqb p (MODINFO e) then Some (File b) else disk w p) = disk w p.
Proof.
  intro N. destruct (text_eqb p (MODINFO e)) eqn:Q; [|reflexivity].
  apply text_eqb_eq in Q. contradiction.
Qed.

Lemma digest_upper_hex (b : bytes) :
  List.length (upper (MD5.hexdigest b)) = 32%nat
  /\ Forall (fun c => is_upper_hex c = true) (upper (MD5.hexdigest b)).
Proof.
  split; [now rewrite upper_length, MD5Facts.hexdigest_length|].
  apply upper_hex, MD5Facts.hexdigest_hex.
Qed.

(** C1, as the code has it.  After a run that completes the manifest on
    disk can be read, and each of its entries whose file exists, the manifest
    itself apart, names a file that can be read and records, up to letter
    case, the MD5 of the bytes of that file in 32 upper-case hexadecimal
    digits. *)
Theorem exactness (e : env) (w w' : world) :
  main e w = Exit w' ->
  exists t',
    read_text (disk w') (MODINFO e) = inr t'
    /\ forall m,
         In (Match m) (pieces t') ->
         resolve e (g4 m) <> MODINFO e ->
         disk w' (resolve e (g4 m)) <> None ->
         exists b,
           disk w' (resolve e (g4 m)) = Some (File b)
           /\ upper (g2 m) = upper (MD5.hexdigest b)
           /\ List.length (upper (MD5.hexdigest b)) = 32%nat
           /\ Forall (fun c => is_upper_hex c = true) (upper (MD5.hexdigest b)).
Proof.
  intro M. destruct (main_exit_inv _ _ _ M) as (t & nt & s & E1 & E2).
  destruct (substitute_returned _ _ _ _ _ E2) as (NL & Nt & U & _).
  destruct (Nat.eq_dec (updated s) 0) as [Z|Z].
  - rewrite (main_unchanged _ _ _ _ _ E1 E2 Z) in M. injection M as <-.
    cbn [disk]. exists t. split; [exact E1|]. intros m I _ Ex.
    rewrite Z in U. symmetry in U.
    pose proof (proj1 (spec_count_zero _ _ _) U m I) as O.
    specialize (NL m I). unfold outdated in O. unfold locked in NL.
    destruct (disk w (resolve e (g4 m))) as [[b|]|]; try discriminate; [|contradiction].
    exists b. split; [reflexivity|].
    apply negb_false_iff, text_eqb_eq in O. split; [exact O|].
    apply digest_upper_hex.
  - rewrite (main_written _ _ _ _ _ E1 E2) in M by lia. injection M as <-.
    cbn [disk]. exists nt. split.
    { unfold read_text. rewrite text_eqb_refl. subst nt.
      now rewrite (read_back e (disk w) t _ (read_text_clean _ _ _ E1)
                     (new_hash_ok e (disk w))). }
    intros m' I N Ex. subst nt.
    rewrite (pieces_render _ _ (new_hash_ok e (disk w))) in I.
    apply in_map_rehash in I as (m & I & ->). cbn [with_hash g2 g4] in *.
    rewrite disk_after_write in * by assumption.
    specialize (NL m I). unfold locked in NL. unfold new_hash.
    destruct (disk w (resolve e (g4 m))) as [[b|]|]; try discriminate; [|contradiction].
    exists b. split; [reflexivity|]. split; [apply upper_idem|].
    apply digest_upper_hex.
Qed.

Lemma exactness_witness :
  exists t',
    read_text (disk (after here scenario)) (MODINFO here) = inr t'
    /\ forall m,
         In (Match m) (pieces t') ->
         resolve here (g4 m) <> MODINFO here ->
         disk (after here scenario) (resolve here (g4 m)) <> None ->
         exists b,
           disk (after here scenario) (resolve here (g4 m)) = Some (File b)
           /\ upper (g2 m) = upper (MD5.hexdigest b)
           /\ List.length (upper (MD5.hexdigest b)) = 32%nat
           /\ Forall (fun c => is_upper_hex c = true) (upper (MD5.hexdigest b)).
Proof.
  apply (exactness here scenario (after here scenario)).
  vm_compute; reflexivity.
Defined.

(** C1 as stated fails when the manifest lists itself: the run records the
    digest of the manifest as it was, and writing that digest changes the
    manifest. *)
Lemma exactness_fails_on_self_reference :
  main here self_world = Exit (after here self_world)
  /\ manifest_exact here (after here self_world) = false
  /\ read_text (disk (after here self_world)) (MODINFO here)
     = inr (entry_text [32] "B9FE38C76E0CACD68DB6206443CC0B32" "0" "VoxDeorum.modinfo")
  /\ exists b,
       disk (after here self_world) (resolve here (str "VoxDeorum.modinfo"))
       = Some (File b)
       /\ upper (MD5.hexdigest b) = str "D1A638E83BC7BC0A0B7B7BA6C95B78B0".
Proof.
  split; [vm_compute; reflexivity|]. split; [vm_compute; reflexivity|].
  split; [vm_compute; reflexivity|]. eexists. split; vm_compute; reflexivity.
Qed.

(** C7, as the code has it.  When no entry of the manifest names the
    manifest itself, a second run started where a completed first run ended
    counts no update, writes nothing, and ends with the line
    [All hashes up to date.]. *)
Theorem second_run_changes_nothing (e : env) (w w1 : world) (t : text) :
  read_text (disk w) (MODINFO e) = inr t ->
  (forall m, In (Match m) (pieces t) -> resolve e (g4 m) <> MODINFO e) ->
  main e w = Exit w1 ->
  exists t1 t2 s,
    read_text (disk w1) (MODINFO e) = inr t1
    /\ substitute e w1 t1 = Returned t2 s
    /\ updated s = 0%nat
    /\ main e w1
       = Exit (World (disk w1) (printed s ++ [str "All hashes up to date."])
                     (writes w1)).
Proof.
  intros E1 NS M. destruct (main_exit_inv _ _ _ M) as (t0 & nt & s & E1' & E2).
  rewrite E1 in E1'. injection E1' as <-.
  destruct (substitute_returned _ _ _ _ _ E2) as (NL & Nt & U & _).
  assert (K : forall w1 t1,
            read_text (disk w1) (MODINFO e) = inr t1 ->
            (forall m, In (Match m) (pieces t1) -> locked e (disk w1) m = false) ->
            spec_count e (disk w1) (pieces t1) = 0%nat ->
            exists t1 t2 s,
              read_text (disk w1) (MODINFO e) = inr t1
              /\ substitute e w1 t1 = Returned t2 s
              /\ updated s = 0%nat
              /\ main e w1
                 = Exit (World (disk w1) (printed s ++ [str "All hashes up to date."])
                               (writes w1))).
  { clear. intros w1 t1 R NL C. eexists t1, _, _.
    assert (S : substitute e w1 t1 = _)
      by (unfold substitute, re_sub; apply (sub_pieces_returned _ _ _ _ NL)).
    split; [exact R|]. split; [exact S|]. split; [exact C|].
    apply (main_unchanged _ _ _ _ _ R S). exact C. }
  destruct (Nat.eq_dec (updated s) 0) as [Z|Z].
  - rewrite (main_unchanged _ _ _ _ _ E1 E2 Z) in M. injection M as <-.
    apply (K _ t); cbn [disk]; [exact E1 | exact NL | congruence].
  - rewrite (main_written _ _ _ _ _ E1 E2) in M by lia. injection M as <-.
    apply (K _ nt); cbn [disk].
    + unfold read_text. rewrite text_eqb_refl. subst nt.
      now rewrite (read_back e (disk w) t _ (read_text_clean _ _ _ E1)
                     (new_hash_ok e (disk w))).
    + intros m' I. subst nt.
      rewrite (pieces_render _ _ (new_hash_ok e (disk w))) in I.
      apply in_map_rehash in I as (m & I & ->).
      unfold locked. cbn [with_hash g4].
      rewrite disk_after_write by (apply NS, I). apply (NL m I).
    + apply spec_count_zero. intros m' I. subst nt.
      rewrite (pieces_render _ _ (new_hash_ok e (disk w))) in I.
      apply in_map_rehash in I as (m & I & ->).
      unfold outdated. cbn [with_hash g4 g2].
      rewrite disk_after_write by (apply NS, I).
      unfold new_hash. destruct (disk w (resolve e (g4 m))) as [[b|]|]; try reflexivity.
      now rewrite upper_idem, text_eqb_refl.
Qed.

Lemma second_run_changes_nothing_witness :
  exists t1 t2 s,
    read_text (disk (after here scenario)) (MODINFO here) = inr t1
    /\ substitute here (after here scenario) t1 = Returned t2 s
    /\ updated s = 0%nat
    /\ main here (after here scenario)
       = Exit (World (disk (after here scenario))
                     (printed s ++ [str "All hashes up to date."])
                     (writes (after here scenario))).
Proof.
  apply (second_run_changes_nothing here scenario (after here scenario)
           scenario_manifest).
  - vm_compute; reflexivity.
  - intros m I. vm_compute in I.
    destruct I as [I|[I|[I|[]]]]; try discriminate; injection I as <-;
      vm_compute; discriminate.
  - vm_compute; reflexivity.
Defined.

(** C7 as stated fails when the manifest lists itself: the second run finds
    the digest the first run recorded out of date, and writes again. *)
Lemma second_run_rewrites_self_reference :
  main here self_world = Exit (after here self_world)
  /\ main here (after here self_world) = Exit (after here (after here self_world))
  /\ List.length (writes (after here self_world)) = 1%nat
  /\ List.length (writes (after here (after here self_world))) = 2%nat
  /\ last (stdout (after here (after here self_world))) []
     = str "Updated 1 hash(es).".
Proof. repeat split; vm_compute; reflexivity. Qed.

Lemma no_match_skips (ps : list piece) :
  forallb is_skip ps = true <-> forall m, ~ In (Match m) ps.
Proof.
  induction ps as [|[c|m] ps IH]; cbn [forallb is_skip andb].
  - split; [intros _ m []|reflexivity].
  - rewrite IH. split; intros H m I.
    + destruct I as [I|I]; [discriminate|]. now apply (H m).
    + apply (H m). now right.
  - split; [discriminate|]. intro H. destruct (H m). now left.
Qed.

(** No piece is a match exactly when the pattern matches at no position. *)
Lemma no_match_anywhere (t : text) :
  (forall m, ~ In (Match m) (pieces t))
  <-> (forall a b, t = a ++ b -> match_at b = None).
Proof.
  induction t as [|c t E IH|t m r E IH] using pieces_ind.
  - split; [|intros _ m []]. intros _ a b H.
    symmetry in H. apply app_eq_nil in H as [_ ->]. reflexivity.
  - rewrite (pieces_skip _ _ E). split.
    + intros H [|c' a] b Eq.
      * cbn in Eq. now subst b.
      * injection Eq as <- ->. apply (proj1 IH) with (a := a); [|reflexivity].
        intros m I. apply (H m). now right.
    + intros H m [I|I]; [discriminate|]. revert m I. apply IH.
      intros a b ->. apply (H (c :: a)). reflexivity.
  - rewrite (pieces_match _ _ _ E). split.
    + intro H. destruct (H m). now left.
    + intro H. rewrite (H [] t eq_refl) in E. discriminate.
Qed.

Lemma spec_count_zero_skips (e : env) (fs : filesystem) (ps : list piece) :
  (forall m, ~ In (Match m) ps) -> (0 + spec_count e fs ps)%nat = 0%nat.
Proof.
  intro H. unfold spec_count. induction ps as [|[c|m] ps IH]; [reflexivity| |].
  - cbn [filter]. apply IH. intros m I. apply (H m). now right.
  - destruct (H m). now left.
Qed.

(** The other near misses, each alone in a manifest, are not entries. *)
Example wrong_length_hash_is_no_entry :
  forallb is_skip (pieces short_hash_manifest) = true.
Proof. vm_compute; reflexivity. Qed.

Example other_import_digit_is_no_entry :
  forallb is_skip (pieces import2_manifest) = true.
Proof. vm_compute; reflexivity. Qed.

Example newline_in_path_is_no_entry :
  forallb is_skip
    (pieces (str "<File md5=" ++ quote :: str zeros ++ quote :: str " import="
             ++ quote :: str "0" ++ quote :: str ">a" ++ 10 :: str "b</File>"))
  = true.
Proof. vm_compute; reflexivity. Qed.

Example empty_path_alone_is_no_entry :
  forallb is_skip (pieces (entry_text [32] zeros "0" "")) = true.
Proof. vm_compute; reflexivity. Qed.

(** ** Further properties of the script *)

(** X1. [md5_of] on a file that can be read returns 32 upper-case
    hexadecimal digits, which [upper] leaves as they are, and touches
    neither the counter nor the output. *)
Theorem md5_of_is_upper_hex (fs : filesystem) (p : path) (s : run_state) (b : bytes) :
  fs p = Some (File b) ->
  exists h,
    md5_of fs p s = Returned h s
    /\ List.length h = 32%nat
    /\ Forall (fun c => is_upper_hex c = true) h
    /\ upper h = h.
Proof.
  intro E. exists (upper (MD5.hexdigest b)). split.
  - unfold md5_of, read_bytes, bind, ret. now rewrite E.
  - destruct (digest_upper_hex b) as [L F]. repeat split; [exact L | exact F|].
    apply upper_idem.
Qed.

Lemma md5_of_is_upper_hex_witness :
  exists h,
    md5_of (disk scenario) (str "a.xml") (RunState 0 []) = Returned h (RunState 0 [])
    /\ List.length h = 32%nat
    /\ Forall (fun c => is_upper_hex c = true) h
    /\ upper h = h.
Proof.
  pose proof (md5_of_is_upper_hex (disk scenario) (str "a.xml") (RunState 0 [])
                (bytes_of_string "abc")) as H.
  apply H. reflexivity.
Defined.

Lemma entries_cons_match (m : groups) (ps : list piece) :
  entries (Match m :: ps) = m :: entries ps.
Proof. reflexivity. Qed.

Lemma entries_cons_skip (c : N) (ps : list piece) :
  entries (Skip c :: ps) = entries ps.
Proof. reflexivity. Qed.

Lemma in_entries (m : groups) (ps : list piece) :
  In m (entries ps) <-> In (Match m) ps.
Proof.
  induction ps as [|[c|m'] ps IH].
  - reflexivity.
  - rewrite entries_cons_skip, IH. split; [now right|].
    intros [H|H]; [discriminate|exact H].
  - rewrite entries_cons_match. cbn [In]. rewrite IH. split.
    + intros [->|H]; [now left|now right].
    + intros [H|H]; [injection H as ->; now left|now right].
Qed.

(** X2. When none of the files the entries name exists, the substitution
    returns the text as it was, counts nothing, and prints one [MISSING]
    line per entry, in the order of the entries. *)
Theorem all_missing_changes_nothing (e : env) (w : world) (t : text) :
  (forall m, In (Match m) (pieces t) -> disk w (resolve e (g4 m)) = None) ->
  substitute e w t
  = Returned t (RunState 0 (stdout w ++ map spec_missing_line (entries (pieces t)))).
Proof.
  intro A. unfold substitute, re_sub. rewrite sub_pieces_returned.
  - cbn [updated printed].
    assert (K : flat_map (render (new_hash e (disk w))) (pieces t)
                = flat_map (render g2) (pieces t)
                /\ spec_count e (disk w) (pieces t) = 0%nat
                /\ flat_map (spec_lines e (disk w)) (pieces t)
                   = map spec_missing_line (entries (pieces t))).
    { induction (pieces t) as [|[c|m] ps IH].
      - repeat split.
      - destruct IH as (I1 & I2 & I3); [intros; apply A; now right|].
        rewrite spec_count_cons, entries_cons_skip. cbn [flat_map render spec_lines app].
        rewrite I1, I2, I3. repeat split.
      - destruct IH as (I1 & I2 & I3); [intros; apply A; now right|].
        pose proof (A m (or_introl eq_refl)) as Em.
        rewrite spec_count_cons, entries_cons_match. cbn [flat_map map].
        rewrite I1, I2, I3. unfold spec_count, spec_lines, missing, outdated, exists_.
        cbn [filter]. rewrite Em. cbn [negb List.length app]. repeat split.
        rewrite !render_eq. unfold new_hash. now rewrite Em. }
    destruct K as (K1 & K2 & K3). now rewrite K1, K2, K3, pieces_spell.
  - intros m I. unfold locked. now rewrite (A m I).
Qed.

Lemma all_missing_changes_nothing_witness :
  substitute here (start scenario_manifest []) scenario_manifest
  = Returned scenario_manifest
      (RunState 0 (stdout (start scenario_manifest [])
                   ++ map spec_missing_line (entries (pieces scenario_manifest)))).
Proof.
  pose proof (all_missing_changes_nothing here (start scenario_manifest [])
                scenario_manifest) as H.
  apply H. intros m I. vm_compute in I.
  destruct I as [I|[I|[I|[]]]]; try discriminate; injection I as <-; reflexivity.
Defined.

(** X3. [FILE_RE] matches every entry of the shape whose path holds no
    [<], whatever text follows it, with the groups of the entry. *)
Theorem plain_entry_is_matched (m : groups) (r : text) :
  entry_shape m ->
  Forall (fun c => c <> 60) (g4 m) ->
  match_at (group0 m ++ r) = Some (m, r).
Proof.
  intros Sh Pl. apply match_at_intro; [exact Sh|].
  destruct Sh as (_ & _ & _ & _ & _ & _ & _ & _ & _ & _ & _ & _ & Np & Fp & _).
  destruct (g4 m) as [|c p]; [contradiction|].
  inversion Pl as [|? ? Pc Pp]; subst. inversion Fp as [|? ? Dc Dp]; subst.
  rewrite <- app_comm_cons. cbn [path1]. rewrite Dc.
  rewrite until_close_skip.
  - now rewrite until_close_eq, lit_app, app_nil_r.
  - clear - Pp Dp. induction Pp as [|d p Hd Pp IH]; [constructor|].
    inversion Dp; subst. constructor; [now split|auto].
Qed.

Lemma plain_entry_is_matched_witness :
  match_at (group0 scenario_a ++ [10]) = Some (scenario_a, [10]).
Proof.
  pose proof (plain_entry_is_matched scenario_a [10]) as H.
  apply H.
  - exists [32], [32], 49. repeat split; try discriminate; try (now right);
      repeat constructor.
  - repeat constructor; discriminate.
Defined.

Lemma tag_close_cons : tag_close = 60 :: str "/File>".
Proof. reflexivity. Qed.

Lemma until_close_shortest (s p r : text) :
  until_close s = Some (p, r) ->
  forall a b, p <> a ++ tag_close ++ b.
Proof.
  revert p r; induction s as [|c s IH]; intros p r; rewrite until_close_eq.
  - simpl. discriminate.
  - destruct (lit tag_close (c :: s)) as [r0|] eqn:L.
    + intro E; injection E as <- <-. intros a b H.
      symmetry in H. apply app_eq_nil in H as [_ H].
      rewrite tag_close_cons in H. discriminate.
    + destruct (is_dot c) eqn:D; [|discriminate].
      destruct (until_close s) as [[p' r']|] eqn:E'; [|discriminate].
      intro E; injection E as <- <-. intros [|c' a] b H.
      * destruct (until_close_spec _ _ _ E') as (Es & _).
        cbn [app] in H.
        assert (Q : c :: s = tag_close ++ b ++ tag_close ++ r').
        { rewrite Es, app_comm_cons, H, <- app_assoc. reflexivity. }
        rewrite Q, lit_app in L. discriminate.
      * injection H as <- H. exact (IH _ _ eq_refl a b H).
Qed.

(** X4. The path of a match is the shortest possible: [</File>] does not
    occur in it after its first character. *)
Theorem path_is_lazy (s : text) (m : groups) (r : text) :
  match_at s = Some (m, r) ->
  ~ exists c a b, g4 m = c :: a ++ tag_close ++ b.
Proof.
  intros E (c' & a & b & H). destruct (match_at_inv _ _ _ E) as (_ & _ & P).
  specialize (P []). unfold path1 in P.
  destruct (g4 m ++ tag_close ++ []) as [|c x] eqn:G; [discriminate|].
  destruct (is_dot c); [|discriminate].
  destruct (until_close x) as [[p' r']|] eqn:U; [|discriminate].
  injection P as P _. rewrite H in P. injection P as _ P.
  destruct (until_close_shortest _ _ _ U a b). exact P.
Qed.

Lemma path_is_lazy_witness :
  ~ exists c a b,
      str "</File><File md5=" ++ quote :: str zeros ++ quote
      :: str " import=" ++ quote :: str "0" ++ quote :: str ">b.xml"
      = c :: a ++ tag_close ++ b.
Proof.
  pose proof (path_is_lazy empty_path_manifest
                (Groups (str "<File md5=" ++ [quote]) (str zeros)
                        (quote :: str " import=" ++ quote :: str "0" ++ quote :: str ">")
                        (str "</File><File md5=" ++ quote :: str zeros ++ quote
                         :: str " import=" ++ quote :: str "0" ++ quote :: str ">b.xml")
                        (str "</File>"))
                []) as H.
  apply H. vm_compute; reflexivity.
Defined.

(** X5. A run that completes leaves the manifest alone exactly when no
    entry is outdated, that is when every entry whose file exists already
    records the digest of the file up to letter case. *)
Theorem untouched_iff_nothing_outdated (e : env) (w w' : world) (t : text) :
  read_text (disk w) (MODINFO e) = inr t ->
  main e w = Exit w' ->
  (writes w' = writes w
   <-> forall m, In (Match m) (pieces t) -> outdated e (disk w) m = false).
Proof.
  intros E1 M. destruct (main_exit_inv _ _ _ M) as (t0 & nt & s & E1' & E2).
  rewrite E1 in E1'. injection E1' as <-.
  destruct (substitute_returned _ _ _ _ _ E2) as (_ & _ & U & _).
  rewrite <- spec_count_zero, <- U.
  destruct (Nat.eq_dec (updated s) 0) as [Z|Z].
  - rewrite (main_unchanged _ _ _ _ _ E1 E2 Z) in M. injection M as <-.
    cbn [writes]. tauto.
  - rewrite (main_written _ _ _ _ _ E1 E2) in M by lia. injection M as <-.
    cbn [writes]. split; [|contradiction]. intro H.
    apply (f_equal (@List.length _)) in H. rewrite length_app in H. cbn in H. lia.
Qed.

Lemma untouched_iff_nothing_outdated_witness :
  writes (after here lower_world) = writes lower_world
  <-> forall m, In (Match m) (pieces lower_manifest) ->
                outdated here (disk lower_world) m = false.
Proof.
  pose proof (untouched_iff_nothing_outdated here lower_world
                (after here lower_world) lower_manifest) as H.
  apply H; vm_compute; reflexivity.
Defined.

Lemma sub_pieces_raised_inv (e : env) (fs : filesystem) (ps : list piece)
    (s s' : run_state) (x : exn) :
  sub_pieces (replace_match e fs) ps s = Raised x s' ->
  x = PermissionError
  /\ exists ps1 m ps2,
       ps = ps1 ++ Match m :: ps2
       /\ fs (resolve e (g4 m)) = Some Locked
       /\ (forall m', In (Match m') ps1 -> locked e fs m' = false)
       /\ s' = RunState (updated s + spec_count e fs ps1)
                        (printed s ++ flat_map (spec_lines e fs) ps1).
Proof.
  revert s; induction ps as [|[c|m] ps IH]; intros s.
  - discriminate.
  - cbn [sub_pieces]. unfold bind.
    destruct (sub_pieces (replace_match e fs) ps s) as [a s1|x1 s1] eqn:E;
      [discriminate|].
    intro H; injection H as -> ->.
    destruct (IH _ E) as (-> & ps1 & m & ps2 & -> & L & NL & ->).
    split; [reflexivity|]. exists (Skip c :: ps1), m, ps2.
    split; [reflexivity|]. split; [exact L|]. split.
    + intros m' [I|I]; [discriminate|auto].
    + rewrite (spec_count_cons e fs (Skip c) ps1). reflexivity.
  - cbn [sub_pieces]. unfold bind at 1. rewrite replace_match_spec.
    destruct (locked e fs m) eqn:Lm.
    + intro H; injection H as <- <-. split; [reflexivity|].
      exists [], m, ps. split; [reflexivity|]. split.
      * unfold locked in Lm. destruct (fs (resolve e (g4 m))) as [[b|]|];
          try discriminate; reflexivity.
      * split; [intros m' []|]. cbn. rewrite Nat.add_0_r, app_nil_r. now destruct s.
    + unfold bind.
      destruct (sub_pieces (replace_match e fs) ps _) as [a s1|x1 s1] eqn:E;
        [discriminate|].
      intro H; injection H as -> ->.
      destruct (IH _ E) as (-> & ps1 & m0 & ps2 & -> & L & NL & ->).
      split; [reflexivity|]. exists (Match m :: ps1), m0, ps2.
      split; [reflexivity|]. split; [exact L|]. split.
      * intros m' [I|I]; [injection I as <-; exact Lm|auto].
      * cbn [updated printed flat_map].
        rewrite (spec_count_cons e fs (Match m) ps1), Nat.add_assoc, <- app_assoc.
        reflexivity.
Qed.




(** X7. Text that was read from a file reads back the same after it is
    written to a file, on POSIX and on Windows. *)
Theorem write_then_read (o : platform) (w : world) (p q : path) (t : text) :
  read_text (disk w) p = inr t ->
  read_text (disk (write_text o q t w)) q = inr t.
Proof.
  intro E. unfold read_text, write_text. cbn [disk]. rewrite text_eqb_refl.
  now rewrite (decode_encode_text o t (read_text_clean _ _ _ E)).
Qed.

Lemma write_then_read_witness :
  read_text (disk (write_text Windows (str "copy.modinfo") crlf_manifest_read crlf_world))
            (str "copy.modinfo")
  = inr crlf_manifest_read.
Proof.
  pose proof (write_then_read Windows crlf_world (MODINFO here) (str "copy.modinfo")
                crlf_manifest_read) as H.
  apply H. vm_compute; reflexivity.
Defined.

Lemma high_byte_no_cr (a x : N) : 14 <= a -> a + x <> 13.
Proof. lia. Qed.

Lemma encode_char_no_cr (c : N) :
  c <> 13 -> Forall (fun b => b <> 13) (Utf8.encode_char c).
Proof.
  intro Hc. unfold Utf8.encode_char.
  destruct (N.ltb_spec c 128); [repeat constructor; assumption|].
  destruct (N.ltb_spec c 2048); [|destruct (N.ltb_spec c 65536)];
    repeat (apply Forall_cons; [apply high_byte_no_cr; lia|]); apply Forall_nil.
Qed.

Lemma encode_no_cr (t : text) :
  Forall (fun c => c <> 13) t -> Forall (fun b => b <> 13) (Utf8.encode t).
Proof.
  induction 1 as [|c t Hc F IH]; [constructor|].
  unfold Utf8.encode in *. cbn [flat_map]. apply Forall_app. split; [|exact IH].
  now apply encode_char_no_cr.
Qed.

Lemma byte_of_N_cr (n : N) : byte_of_N n = x0d -> n = 13.
Proof.
  unfold byte_of_N. destruct (Byte.of_N n) as [b|] eqn:E; [|discriminate].
  intros ->. apply Byte.to_of_N in E. now rewrite <- E.
Qed.

(** X8. On POSIX the bytes a run writes hold no carriage return: a
    manifest with Windows line ends comes back with line feeds alone. *)
Theorem posix_rewrite_drops_carriage_returns
    (e : env) (w w' : world) (p : path) (b : bytes) :
  os e = Posix ->
  main e w = Exit w' ->
  writes w' = writes w ++ [(p, b)] ->
  ~ In x0d b.
Proof.
  intros O M W. destruct (main_exit_inv _ _ _ M) as (t & nt & s & E1 & E2).
  destruct (substitute_returned _ _ _ _ _ E2) as (_ & Nt & _ & _).
  destruct (Nat.eq_dec (updated s) 0) as [Z|Z].
  { rewrite (main_unchanged _ _ _ _ _ E1 E2 Z) in M. injection M as <-.
    cbn [writes] in W. apply (f_equal (@List.length _)) in W.
    rewrite length_app in W. cbn in W. lia. }
  rewrite (main_written _ _ _ _ _ E1 E2) in M by lia. injection M as <-.
  cbn [writes] in W. apply app_inj_tail in W as [_ W]. injection W as _ <-.
  assert (C : clean nt).
  { subst nt. eapply clean_rehashed;
      [apply rehashed_render, new_hash_ok | apply (read_text_clean _ _ _ E1)]. }
  unfold encode_text. rewrite O. cbn [nl_out]. intro I.
  apply in_map_iff in I as (n & Bn & I). apply byte_of_N_cr in Bn. subst n.
  pose proof (encode_no_cr nt (clean_no_cr _ C)) as F.
  rewrite Forall_forall in F. now apply (F 13 I).
Qed.

Lemma posix_rewrite_drops_carriage_returns_witness :
  ~ In x0d (encode_text Posix
              (entry_text [32] "900150983CD24FB0D6963F7D28E17F72" "1" "a.xml" ++ [10])).
Proof.
  pose proof (posix_rewrite_drops_carriage_returns here crlf_world
                (after here crlf_world) (MODINFO here)
                (encode_text Posix
                   (entry_text [32] "900150983CD24FB0D6963F7D28E17F72" "1" "a.xml"
                    ++ [10]))) as H.
  apply H; [reflexivity | vm_compute; reflexivity | vm_compute; reflexivity].
Defined.

Lemma spec_lines_length (e : env) (fs : filesystem) (ps : list piece) :
  List.length (flat_map (spec_lines e fs) ps)
  = (count_missing e fs ps + spec_count e fs ps)%nat
  /\ (count_missing e fs ps + spec_count e fs ps <= List.length (entries ps))%nat.
Proof.
  induction ps as [|[c|m] ps [I1 I2]].
  - split; [reflexivity|apply Nat.le_refl].
  - rewrite (spec_count_cons e fs (Skip c) ps). split; [exact I1 | exact I2].
  - unfold count_missing, spec_count in *. rewrite entries_cons_match.
    cbn [flat_map filter spec_lines]. rewrite length_app, I1.
    destruct (missing e fs m) eqn:Mi, (outdated e fs m) eqn:Ou;
      cbn [List.length]; try lia.
    unfold missing, outdated, exists_ in Mi, Ou.
    destruct (fs (resolve e (g4 m))) as [[b|]|]; discriminate.
Qed.

(** X9. In a substitution that returns, the number of lines printed is the
    number of missing entries plus the final value of the counter, and these
    two together do not exceed the number of entries. *)
Theorem lines_and_counter (e : env) (w : world) (t nt : text) (s : run_state) :
  substitute e w t = Returned nt s ->
  List.length (printed s)
  = (List.length (stdout w) + count_missing e (disk w) (pieces t) + updated s)%nat
  /\ (count_missing e (disk w) (pieces t) + updated s
      <= List.length (entries (pieces t)))%nat.
Proof.
  intro E. destruct (substitute_returned _ _ _ _ _ E) as (_ & _ & -> & ->).
  destruct (spec_lines_length e (disk w) (pieces t)) as [L B].
  rewrite length_app, L. split; [lia|exact B].
Qed.

Lemma lines_and_counter_witness :
  let s := RunState 1 [str "  a.xml: 00000000000000000000000000000000 -> 900150983CD24FB0D6963F7D28E17F72";
                       str "  MISSING: missing.xml"] in
  List.length (printed s)
  = (List.length (stdout scenario)
     + count_missing here (disk scenario) (pieces scenario_manifest)
     + updated s)%nat
  /\ (count_missing here (disk scenario) (pieces scenario_manifest) + updated s
      <= List.length (entries (pieces scenario_manifest)))%nat.
Proof.
  intro s.
  pose proof (lines_and_counter here scenario scenario_manifest
                (flat_map (render (new_hash here (disk scenario)))
                          (pieces scenario_manifest)) s) as H.
  apply H. vm_compute; reflexivity.
Defined.

(** X10. Replacing the hash of every entry of a text by any 32 hexadecimal
    digits gives a text of the same length in which [FILE_RE] finds the same
    entries, with the new hashes, at the same places: a substitution can
    neither create nor destroy an entry. *)
Theorem scan_is_stable (hash : groups -> text) (t : text) :
  hash_ok hash ->
  pieces (flat_map (render hash) (pieces t)) = map (rehash hash) (pieces t)
  /\ List.length (flat_map (render hash) (pieces t)) = List.length t.
Proof.
  intro Ok. split; [now apply pieces_render|].
  destruct (outside_render (fun _ => true) hash (pieces t)) as [_ L].
  - intros m I. pose proof (pieces_shape _ _ I) as Sh.
    destruct (Ok m Sh) as [L1 _]. destruct (entry_shape_g2 m Sh) as [L2 _]. congruence.
  - discriminate.
  - now rewrite pieces_spell in L.
Qed.

Lemma scan_is_stable_witness :
  pieces (flat_map (render (fun _ => str zeros)) (pieces case_manifest))
  = map (rehash (fun _ => str zeros)) (pieces case_manifest)
  /\ List.length (flat_map (render (fun _ => str zeros)) (pieces case_manifest))
     = List.length case_manifest.
Proof.
  pose proof (scan_is_stable (fun _ => str zeros) case_manifest) as H.
  apply H. intros m _. split; [reflexivity|]. repeat constructor.
Defined.

Lemma encode_cons (c : N) (t : text) :
  Utf8.encode (c :: t) = Utf8.encode_char c ++ Utf8.encode t.
Proof. reflexivity. Qed.

(** The strict decoder accepts exactly one byte sequence for each text. *)
Lemma encode_decode (l : list N) (t : text) :
  Utf8.decode l = Some t -> Utf8.encode t = l.
Proof.
  remember (List.length l) as n eqn:N. revert l t N.
  induction n as [n IH] using lt_wf_ind. intros l t N.
  destruct l as [|b0 r0]; [intro E; injection E as <-; reflexivity|].
  cbn [Utf8.decode]. unfold Utf8.cont, in_range.
  assert (K : forall c r t bs, (List.length r < n)%nat -> Utf8.encode_char c = bs ->
              option_map (cons c) (Utf8.decode r) = Some t ->
              Utf8.encode t = bs ++ r).
  { intros c r t' bs Lr Ec E. destruct (Utf8.decode r) as [t0|] eqn:D; [|discriminate].
    injection E as <-. rewrite encode_cons, Ec. f_equal.
    eapply IH; [exact Lr|reflexivity|exact D]. }
  subst n. cbn [List.length] in K. clear IH.
  destruct (N.ltb_spec b0 128).
  { intro E. apply (K b0 r0 t [b0]); [lia| |exact E].
    unfold Utf8.encode_char. destruct (N.ltb_spec b0 128); [reflexivity|lia]. }
  destruct ((194 <=? b0) && (b0 <=? 223)) eqn:R2.
  { destruct r0 as [|b1 r1]; [discriminate|].
    destruct ((128 <=? b1) && (b1 <=? 191)) eqn:C1; [|discriminate].
    intro E. apply (K _ r1 t [b0; b1]) in E; [exact E | cbn [List.length]; lia|].
    clear K E. unfold Utf8.encode_char.
    set (cp := (b0 - 192) * 64 + (b1 - 128)).
    destruct (div_mod_64 cp) as [E0 M0].
    set (m0 := cp mod 64) in *. set (q0 := cp / 64) in *. clearbody m0 q0.
    subst cp. cmp; repeat f_equal; lia. }
  destruct ((224 <=? b0) && (b0 <=? 239)) eqn:R3.
  { destruct r0 as [|b1 [|b2 r2]]; try discriminate.
    match goal with |- (if ?x then _ else _) = _ -> _ => destruct x eqn:C1; [|discriminate] end.
    intro E. apply (K _ r2 t [b0; b1; b2]) in E; [exact E | cbn [List.length]; lia|].
    clear K E. unfold Utf8.encode_char.
    set (cp := (b0 - 224) * 4096 + (b1 - 128) * 64 + (b2 - 128)).
    rewrite div_4096.
    destruct (div_mod_64 cp) as [E0 M0].
    destruct (div_mod_64 (cp / 64)) as [E1 M1].
    set (m0 := cp mod 64) in *. set (q0 := cp / 64) in *.
    set (m1 := q0 mod 64) in *. set (q1 := q0 / 64) in *. clearbody m0 q0 m1 q1.
    subst cp. clear R2. cmp; repeat f_equal; lia. }
  destruct ((240 <=? b0) && (b0 <=? 244)) eqn:R4; [|discriminate].
  destruct r0 as [|b1 [|b2 [|b3 r3]]]; try discriminate.
  match goal with |- (if ?x then _ else _) = _ -> _ => destruct x eqn:C1; [|discriminate] end.
  intro E. apply (K _ r3 t [b0; b1; b2; b3]) in E; [exact E | cbn [List.length]; lia|].
  clear K E. unfold Utf8.encode_char.
  set (cp := (b0 - 240) * 262144 + (b1 - 128) * 4096 + (b2 - 128) * 64 + (b3 - 128)).
  rewrite div_4096, div_262144.
  destruct (div_mod_64 cp) as [E0 M0].
  destruct (div_mod_64 (cp / 64)) as [E1 M1].
  destruct (div_mod_64 (cp / 64 / 64)) as [E2 M2].
  set (m0 := cp mod 64) in *. set (q0 := cp / 64) in *.
  set (m1 := q0 mod 64) in *. set (q1 := q0 / 64) in *.
  set (m2 := q1 mod 64) in *. set (q2 := q1 / 64) in *. clearbody m0 q0 m1 q1 m2 q2.
  subst cp. clear R2 R3. cmp; repeat f_equal; lia.
Qed.

Lemma byte_of_N_to_N (x : byte) : byte_of_N (Byte.to_N x) = x.
Proof. unfold byte_of_N. now rewrite Byte.of_to_N. Qed.

Lemma to_N_cr (x : byte) : Byte.to_N x = 13 -> x = x0d.
Proof.
  intro E. pose proof (Byte.of_to_N x) as H. rewrite E in H.
  now injection H.
Qed.

(** X11. On POSIX, the text read from a file that holds no carriage return
    encodes back to the bytes of the file: in such a manifest a run changes
    no byte by decoding and encoding. *)
Theorem posix_write_back_is_identity (w : world) (p : path) (b : bytes) (t : text) :
  disk w p = Some (File b) ->
  ~ In x0d b ->
  read_text (disk w) p = inr t ->
  encode_text Posix t = b.
Proof.
  intros E NC R. unfold read_text in R. rewrite E in R. unfold decode_text in R.
  destruct (Utf8.decode (map Byte.to_N b)) as [t0|] eqn:D; [|discriminate].
  injection R as <-. pose proof (encode_decode _ _ D) as Enc.
  assert (F : Forall (fun c => c <> 13) t0).
  { apply Forall_forall. intros c I ->. apply NC.
    assert (I13 : In 13 (Utf8.encode t0)).
    { unfold Utf8.encode. apply in_flat_map. exists 13. split; [exact I|now left]. }
    rewrite Enc in I13. apply in_map_iff in I13 as (x & Ex & Ix).
    apply to_N_cr in Ex. now subst x. }
  rewrite (nl_in_id _ F). unfold encode_text. cbn [nl_out]. rewrite Enc, map_map.
  rewrite <- (map_id b) at 2. apply map_ext. exact byte_of_N_to_N.
Qed.

Lemma posix_write_back_is_identity_witness :
  encode_text Posix scenario_manifest = encode_text Posix scenario_manifest.
Proof.
  pose proof (posix_write_back_is_identity scenario (MODINFO here)
                (encode_text Posix scenario_manifest) scenario_manifest) as H.
  apply H.
  - reflexivity.
  - vm_compute. intuition discriminate.
  - vm_compute; reflexivity.
Defined.

(** X12. However a run ends, it writes no file but the manifest, and that
    at most once: every other path resolves after the run to what it
    resolved to before, and standard output has only grown. *)
Theorem only_the_manifest_is_written (e : env) (w : world) :
  (forall p, p <> MODINFO e -> disk (after e w) p = disk w p)
  /\ (exists ws,
        writes (after e w) = writes w ++ ws
        /\ (List.length ws <= 1)%nat
        /\ forall p b, In (p, b) ws -> p = MODINFO e)
  /\ exists lines, stdout (after e w) = stdout w ++ lines.
Proof.
  unfold after, main.
  destruct (read_text (disk w) (MODINFO e)) as [x|t] eqn:E1.
  { split; [reflexivity|]. split.
    - exists []. rewrite app_nil_r. repeat split; [apply Nat.le_0_l | intros p b []].
    - exists []. now rewrite app_nil_r. }
  destruct (substitute e w t) as [nt s|x s] eqn:E2.
  - destruct (substitute_returned _ _ _ _ _ E2) as (_ & _ & _ & P).
    destruct (negb (updated s =? 0)%nat).
    + cbn [put write_text disk writes stdout]. split; [|split].
      * intros p Np. now apply disk_after_write.
      * eexists. split; [reflexivity|]. split; [apply Nat.le_refl|].
        intros p b [H|[]]. now injection H as <- _.
      * eexists. rewrite P, <- app_assoc. reflexivity.
    + cbn [put disk writes stdout]. split; [reflexivity|]. split.
      * exists []. rewrite app_nil_r. repeat split; [apply Nat.le_0_l | intros p b []].
      * eexists. rewrite P, <- app_assoc. reflexivity.
  - cbn [disk writes stdout]. split; [reflexivity|]. split.
    + exists []. rewrite app_nil_r. repeat split; [apply Nat.le_0_l | intros p b []].
    + unfold substitute, re_sub in E2.
      destruct (sub_pieces_raised_inv _ _ _ _ _ _ E2) as (_ & ps1 & _ & _ & _ & _ & _ & ->).
      eexists. reflexivity.
Qed.

(** ** The decimal numeral in the summary line *)

Lemma str_String (a : ascii) (s : string) : str (String a s) = N_of_ascii a :: str s.
Proof. reflexivity. Qed.

Lemma uint_digits (d : Decimal.uint) :
  Forall (fun c => is_digit c = true) (str (NilEmpty.string_of_uint d)).
Proof.
  induction d; cbn [NilEmpty.string_of_uint]; try rewrite str_String;
    constructor; (reflexivity || assumption).
Qed.

Lemma uint_value (d : Decimal.uint) (acc : nat) :
  fold_left (fun acc c => (10 * acc + N.to_nat (c - 48))%nat)
            (str (NilEmpty.string_of_uint d)) acc
  = Nat.of_uint_acc d acc.
Proof.
  revert acc; induction d; intro acc; cbn [NilEmpty.string_of_uint Nat.of_uint_acc];
    try rewrite str_String; [reflexivity|..];
    cbn [fold_left]; rewrite IHd, Nat.tail_mul_spec; f_equal;
    change (N.to_nat (N_of_ascii _ - 48)) with 0%nat
    || change (N.to_nat (N_of_ascii _ - 48)) with 1%nat
    || change (N.to_nat (N_of_ascii _ - 48)) with 2%nat
    || change (N.to_nat (N_of_ascii _ - 48)) with 3%nat
    || change (N.to_nat (N_of_ascii _ - 48)) with 4%nat
    || change (N.to_nat (N_of_ascii _ - 48)) with 5%nat
    || change (N.to_nat (N_of_ascii _ - 48)) with 6%nat
    || change (N.to_nat (N_of_ascii _ - 48)) with 7%nat
    || change (N.to_nat (N_of_ascii _ - 48)) with 8%nat
    || change (N.to_nat (N_of_ascii _ - 48)) with 9%nat; lia.
Qed.

Lemma to_uint_normal (n : nat) : Nat.to_uint n = Decimal.unorm (Nat.to_uint n).
Proof.
  rewrite <- (DecimalNat.Unsigned.to_of (Nat.to_uint n)), DecimalNat.Unsigned.of_to. reflexivity.
Qed.

Lemma unorm_no_leading_zero (d d' : Decimal.uint) :
  Decimal.unorm d = Decimal.D0 d' -> d' = Decimal.Nil.
Proof.
  unfold Decimal.unorm. destruct (Decimal.nzhead d) eqn:E; intro H;
    try discriminate.
  - now injection H.
  - destruct (DecimalFacts.nzhead_nonzero d u). exact E.
Qed.

(** The numeral [main] prints for the counter is the decimal numeral of the
    counter. *)
Lemma decimal_numeral (n : nat) : numeral (decimal n) n.
Proof.
  unfold numeral, decimal, NilZero.string_of_uint.
  pose proof (to_uint_normal n) as Nm.
  pose proof (DecimalFacts.unorm_nonnil (Nat.to_uint n)) as NN. rewrite <- Nm in NN.
  destruct (Nat.to_uint n) as [|d|d|d|d|d|d|d|d|d|d] eqn:E; [contradiction|..];
    (split; [apply uint_digits|]); (split;
      [unfold numeral_value; rewrite uint_value;
       change (Nat.of_uint_acc ?x 0) with (Nat.of_uint x); rewrite <- E;
       apply DecimalNat.Unsigned.of_to|]);
    cbn [NilEmpty.string_of_uint]; rewrite str_String;
    try (left; discriminate).
  right. symmetry in Nm. apply unorm_no_leading_zero in Nm. now subst d.
Qed.

(** C8, as the code has it.  A run that completes prints, after what
    standard output held, one line per entry that is missing or outdated, in
    the order of the entries and of the form the specification gives, and
    then exactly one summary line: [All hashes up to date.] when the count is
    zero, [Updated <N> hash(es).] with [<N>] the decimal numeral of the count
    otherwise.  A run that aborts on a file that exists and cannot be read
    prints the lines of the entries before that one and no summary line; a
    run that cannot read the manifest prints nothing. *)
Theorem stdout_of_a_run (e : env) (w : world) :
  match main e w with
  | Exit w' =>
      exists t last,
        read_text (disk w) (MODINFO e) = inr t
        /\ stdout w' = stdout w
                       ++ flat_map (spec_lines e (disk w)) (pieces t)
                       ++ [last]
        /\ spec_summary (spec_count e (disk w) (pieces t)) last
  | Traceback x w' =>
      (read_text (disk w) (MODINFO e) = inl x /\ stdout w' = stdout w)
      \/ exists t ps1 m ps2,
           read_text (disk w) (MODINFO e) = inr t
           /\ pieces t = ps1 ++ Match m :: ps2
           /\ disk w (resolve e (g4 m)) = Some Locked
           /\ (forall m', In (Match m') ps1 -> locked e (disk w) m' = false)
           /\ stdout w' = stdout w ++ flat_map (spec_lines e (disk w)) ps1
  end.
Proof.
  unfold main. destruct (read_text (disk w) (MODINFO e)) as [x|t] eqn:E1.
  { left. split; reflexivity. }
  destruct (substitute e w t) as [nt s|x s] eqn:E2.
  - destruct (substitute_returned _ _ _ _ _ E2) as (_ & _ & U & P).
    destruct (updated s) as [|k] eqn:Z; cbn [Nat.eqb negb].
    + exists t, (str "All hashes up to date."). split; [reflexivity|].
      cbn [put stdout]. rewrite P, <- app_assoc. split; [reflexivity|].
      left. split; [now symmetry | reflexivity].
    + exists t, (str "Updated " ++ decimal (S k) ++ str " hash(es).").
      split; [reflexivity|]. cbn [put write_text stdout].
      rewrite P, <- app_assoc. split; [reflexivity|].
      right. rewrite <- U. split; [lia|]. exists (decimal (S k)).
      split; [apply decimal_numeral | reflexivity].
  - right. unfold substitute, re_sub in E2.
    destruct (sub_pieces_raised_inv _ _ _ _ _ _ E2)
      as (_ & ps1 & m & ps2 & P & L & NL & ->).
    exists t, ps1, m, ps2. cbn [stdout printed]. repeat split; assumption.
Qed.

(** C8 as stated fails for a run that aborts: in [abort_world] the line of
    the missing entry is printed, then [a.xml] cannot be read, and no summary
    line follows. *)
Lemma aborted_run_prints_no_summary :
  main here abort_world = Traceback PermissionError (after here abort_world)
  /\ stdout (after here abort_world) = [str "  MISSING: missing.xml"].
Proof. split; vm_compute; reflexivity. Qed.

(** With eleven updates the summary line reads [Updated 11 hash(es).]. *)
Example summary_of_eleven :
  last (stdout (after here eleven_world)) [] = str "Updated 11 hash(es).".
Proof. vm_compute; reflexivity. Qed.

(** ** One entry within a run *)


Lemma spec_count_app (e : env) (fs : filesystem) (a b : list piece) :
  spec_count e fs (a ++ b) = (spec_count e fs a + spec_count e fs b)%nat.
Proof. unfold spec_count. now rewrite filter_app, length_app. Qed.

Lemma locked_of_node (e : env) (fs : filesystem) (m : groups) :
  locked e fs m = true <-> fs (resolve e (g4 m)) = Some Locked.
Proof.
  unfold locked. destruct (fs (resolve e (g4 m))) as [[b|]|]; split;
    intro H; try discriminate; reflexivity.
Qed.

(** The text a run that completes leaves in the manifest. *)
Lemma manifest_after (e : env) (w w' : world) (t nt : text) (s : run_state) :
  read_text (disk w) (MODINFO e) = inr t ->
  substitute e w t = Returned nt s ->
  main e w = Exit w' ->
  (updated s = 0%nat /\ disk w' = disk w /\ writes w' = writes w
   /\ read_text (disk w') (MODINFO e) = inr t)
  \/ ((0 < updated s)%nat
      /\ writes w' = writes w ++ [(MODINFO e, encode_text (os e) nt)]
      /\ disk w' (MODINFO e) = Some (File (encode_text (os e) nt))
      /\ read_text (disk w') (MODINFO e) = inr nt).
Proof.
  intros E1 E2 M. destruct (substitute_returned _ _ _ _ _ E2) as (_ & Nt & _ & _).
  destruct (Nat.eq_dec (updated s) 0) as [Z|Z].
  - rewrite (main_unchanged _ _ _ _ _ E1 E2 Z) in M. injection M as <-.
    left. cbn [disk writes]. auto.
  - rewrite (main_written _ _ _ _ _ E1 E2) in M by lia. injection M as <-.
    right. cbn [disk writes]. rewrite text_eqb_refl.
    split; [lia|]. split; [reflexivity|]. split; [reflexivity|].
    unfold read_text. rewrite text_eqb_refl. subst nt.
    now rewrite (read_back e (disk w) t _ (read_text_clean _ _ _ E1)
                   (new_hash_ok e (disk w))).
Qed.


Lemma stdout_lines (e : env) (w w' : world) (t nt : text) (s : run_state) :
  read_text (disk w) (MODINFO e) = inr t ->
  substitute e w t = Returned nt s ->
  main e w = Exit w' ->
  exists last, stdout w' = printed s ++ [last].
Proof.
  intros E1 E2 M. unfold main in M. rewrite E1, E2 in M.
  destruct (negb _); injection M as <-; cbn [put write_text stdout];
    eexists; reflexivity.
Qed.

Lemma main_completes (e : env) (w : world) (t nt : text) (s : run_state) :
  read_text (disk w) (MODINFO e) = inr t ->
  substitute e w t = Returned nt s ->
  exists w' last, main e w = Exit w' /\ stdout w' = printed s ++ [last].
Proof.
  intros E1 E2. destruct (main e w) as [w'|x w'] eqn:M.
  - destruct (stdout_lines _ _ _ _ _ _ E1 E2 M) as (last & O). now exists w', last.
  - unfold main in M. rewrite E1, E2 in M. destruct (negb _); discriminate.
Qed.



(** C3, as the code has it.  An entry whose file exists and whose recorded
    hash differs from the digest in letter case at most is up to date: the
    call of [replace_match] on it prints nothing and counts nothing, so a
    run that completes has no line for it and a counter made of the other
    entries alone.  In the reconstructed document its hash stands in upper
    case, the rest of the entry as it was; that document reaches the disk
    exactly when the counter, that is some other entry, is positive, and
    otherwise the disk is left as it was. *)
Theorem case_only_entry_is_up_to_date
    (e : env) (w w' : world) (t : text) (ps1 : list piece) (m : groups)
    (ps2 : list piece) (b : bytes) :
  read_text (disk w) (MODINFO e) = inr t ->
  pieces t = ps1 ++ Match m :: ps2 ->
  disk w (resolve e (g4 m)) = Some (File b) ->
  upper (g2 m) = upper (MD5.hexdigest b) ->
  main e w = Exit w' ->
  exists nt s last,
    substitute e w t = Returned nt s
    /\ (forall s0, replace_match e (disk w) m s0
                   = Returned (group0 (with_hash (upper (g2 m)) m)) s0)
    /\ stdout w' = stdout w ++ flat_map (spec_lines e (disk w)) ps1
                   ++ flat_map (spec_lines e (disk w)) ps2 ++ [last]
    /\ updated s = (spec_count e (disk w) ps1 + spec_count e (disk w) ps2)%nat
    /\ nt = flat_map (render (new_hash e (disk w))) ps1
            ++ group0 (with_hash (upper (g2 m)) m)
            ++ flat_map (render (new_hash e (disk w))) ps2
    /\ (updated s = 0%nat -> writes w' = writes w /\ disk w' = disk w)
    /\ ((0 < updated s)%nat ->
        writes w' = writes w ++ [(MODINFO e, encode_text (os e) nt)]
        /\ read_text (disk w') (MODINFO e) = inr nt).
Proof.
  intros E1 P Em U M. destruct (main_exit_inv _ _ _ M) as (t0 & nt & s & E1' & E2).
  rewrite E1 in E1'. injection E1' as <-.
  destruct (substitute_returned _ _ _ _ _ E2) as (_ & Nt & Us & Ps).
  assert (Sm : spec_lines e (disk w) (Match m) = []).
  { unfold spec_lines, missing, outdated, exists_. rewrite Em, U, text_eqb_refl.
    reflexivity. }
  assert (Cm : spec_count e (disk w) [Match m] = 0%nat).
  { unfold spec_count, outdated. cbn [filter]. rewrite Em, U, text_eqb_refl.
    reflexivity. }
  assert (Rm : render (new_hash e (disk w)) (Match m)
               = group0 (with_hash (upper (g2 m)) m)).
  { unfold render, new_hash. now rewrite Em, U. }
  exists nt, s. destruct (stdout_lines _ _ _ _ _ _ E1 E2 M) as (last & O).
  exists last. split; [exact E2|]. split.
  { intro s0. rewrite (replace_match_file _ _ _ _ _ Em), <- U, text_eqb_refl.
    reflexivity. }
  rewrite P in Nt, Us, Ps.
  rewrite flat_map_app in Nt, Ps. cbn [flat_map] in Nt, Ps.
  rewrite Rm in Nt. rewrite Sm in Ps. cbn [app] in Ps.
  rewrite spec_count_app, (spec_count_cons e (disk w) (Match m) ps2), Cm in Us.
  cbn [Nat.add] in Us.
  split; [rewrite O, Ps, <- ?app_assoc; reflexivity|].
  split; [exact Us|]. split; [exact Nt|].
  destruct (manifest_after _ _ _ _ _ _ E1 E2 M)
    as [(Z & D & W & _)|(Z & W & _ & R)].
  - split; [auto | lia].
  - split; [lia | auto].
Qed.

Lemma case_only_entry_is_up_to_date_witness :
  let ps2 := [Skip 10; Match (entry_groups zeros "0" "b.xml")] in
  exists nt s last,
    substitute here case_world case_manifest = Returned nt s
    /\ (forall s0, replace_match here (disk case_world) case_a s0
                   = Returned (group0 (with_hash (upper (g2 case_a)) case_a)) s0)
    /\ stdout (after here case_world)
       = stdout case_world ++ flat_map (spec_lines here (disk case_world)) []
         ++ flat_map (spec_lines here (disk case_world)) ps2 ++ [last]
    /\ updated s = (spec_count here (disk case_world) []
                    + spec_count here (disk case_world) ps2)%nat
    /\ nt = flat_map (render (new_hash here (disk case_world))) []
            ++ group0 (with_hash (upper (g2 case_a)) case_a)
            ++ flat_map (render (new_hash here (disk case_world))) ps2
    /\ (updated s = 0%nat ->
        writes (after here case_world) = writes case_world
        /\ disk (after here case_world) = disk case_world)
    /\ ((0 < updated s)%nat ->
        writes (after here case_world)
        = writes case_world ++ [(MODINFO here, encode_text (os here) nt)]
        /\ read_text (disk (after here case_world)) (MODINFO here) = inr nt).
Proof.
  intro ps2.
  pose proof (case_only_entry_is_up_to_date here case_world (after here case_world)
                case_manifest [] case_a ps2 []) as H.
  apply H; vm_compute; reflexivity.
Defined.

(** C3 as stated fails: in [case_manifest] the entry of [a.xml] records the
    digest of [a.xml] in lower case, and the manifest the run leaves on disk
    has that hash in upper case. *)
Lemma case_only_entry_is_rewritten :
  read_text (disk case_world) (MODINFO here) = inr case_manifest
  /\ upper (str "d41d8cd98f00b204e9800998ecf8427e") = upper (MD5.hexdigest [])
  /\ main here case_world = Exit (after here case_world)
  /\ read_text (disk (after here case_world)) (MODINFO here)
     = inr (entry_text [32] "D41D8CD98F00B204E9800998ECF8427E" "1" "a.xml"
            ++ 10 :: entry_text [32] "900150983CD24FB0D6963F7D28E17F72" "0" "b.xml").
Proof. repeat split; vm_compute; reflexivity. Qed.

(** ** The frame of a run, on disk *)

Lemma encode_app (a b : text) : Utf8.encode (a ++ b) = Utf8.encode a ++ Utf8.encode b.
Proof. unfold Utf8.encode. apply flat_map_app. Qed.

Lemma nl_out_app (o : platform) (a b : text) : nl_out o (a ++ b) = nl_out o a ++ nl_out o b.
Proof. destruct o; [reflexivity|]. cbn [nl_out]. apply flat_map_app. Qed.

Lemma encode_text_app (o : platform) (a b : text) :
  encode_text o (a ++ b) = encode_text o a ++ encode_text o b.
Proof. unfold encode_text. now rewrite nl_out_app, encode_app, map_app. Qed.

Lemma encode_text_flat (o : platform) (t : text) :
  encode_text o t = flat_map (char_bytes o) t.
Proof.
  induction t as [|c t IH]; [now destruct o|].
  change (c :: t) with ([c] ++ t). rewrite encode_text_app, IH. reflexivity.
Qed.

Lemma char_bytes_hex (o : platform) (c : N) :
  is_hex c = true -> List.length (char_bytes o c) = 1%nat.
Proof.
  intro H. unfold char_bytes, encode_text.
  assert (N10 : (c =? 10) = false) by (revert H; bools).
  assert (L : (c <? 128) = true) by (revert H; bools).
  assert (E : nl_out o [c] = [c]) by (destruct o; cbn; now rewrite ?N10).
  rewrite E. cbn. unfold Utf8.encode_char. now rewrite L.
Qed.

Lemma encode_text_hex_length (o : platform) (h : text) :
  Forall (fun c => is_hex c = true) h ->
  List.length (encode_text o h) = List.length h.
Proof.
  intro F. rewrite encode_text_flat. induction F as [|c h Hc F IH]; [reflexivity|].
  cbn [flat_map]. rewrite length_app, IH, (char_bytes_hex o c Hc). reflexivity.
Qed.

Lemma byte_mask_app (o : platform) (m1 m2 : list bool) (t1 t2 : text) :
  List.length m1 = List.length t1 ->
  byte_mask o (m1 ++ m2) (t1 ++ t2) = byte_mask o m1 t1 ++ byte_mask o m2 t2.
Proof.
  revert t1; induction m1 as [|b m1 IH]; intros [|c t1] L; try discriminate.
  - reflexivity.
  - unfold byte_mask in *. cbn [app combine flat_map]. rewrite <- app_assoc.
    f_equal. apply IH. now injection L.
Qed.

Lemma byte_mask_length (o : platform) (m : list bool) (t : text) :
  List.length m = List.length t ->
  List.length (byte_mask o m t) = List.length (encode_text o t).
Proof.
  rewrite encode_text_flat.
  revert t; induction m as [|b m IH]; intros [|c t] L; try discriminate.
  - reflexivity.
  - unfold byte_mask in *. cbn [combine flat_map]. rewrite !length_app, repeat_length.
    f_equal. apply IH. now injection L.
Qed.

Lemma byte_mask_repeat (o : platform) (b : bool) (t : text) :
  byte_mask o (repeat b (List.length t)) t = repeat b (List.length (encode_text o t)).
Proof.
  rewrite encode_text_flat. induction t as [|c t IH]; [reflexivity|].
  unfold byte_mask in *. cbn [List.length repeat combine flat_map].
  rewrite IH, length_app, repeat_app. reflexivity.
Qed.

Lemma outside_bytes_app (m1 m2 : list bool) (b1 b2 : bytes) :
  List.length m1 = List.length b1 ->
  outside_bytes (m1 ++ m2) (b1 ++ b2) = outside_bytes m1 b1 ++ outside_bytes m2 b2.
Proof.
  revert b1; induction m1 as [|x m1 IH]; intros [|c b1] L; try discriminate.
  - reflexivity.
  - unfold outside_bytes in *. cbn [app combine map]. f_equal. apply IH.
    now injection L.
Qed.

Lemma outside_bytes_marked (n : nat) (x y : bytes) :
  List.length x = n -> List.length y = n ->
  outside_bytes (repeat true n) x = outside_bytes (repeat true n) y.
Proof.
  revert x y; induction n as [|n IH]; intros [|a x] [|c y] Lx Ly; try discriminate.
  - reflexivity.
  - unfold outside_bytes in *. cbn [repeat combine map fst]. f_equal.
    apply IH; [now injection Lx | now injection Ly].
Qed.

Lemma hash_mask_length (sel : groups -> bool) (ps : list piece) :
  List.length (hash_mask sel ps) = List.length (flat_map (render g2) ps).
Proof.
  induction ps as [|[c|m] ps IH]; [reflexivity| |].
  - cbn [hash_mask flat_map render app List.length]. now rewrite IH.
  - cbn [hash_mask flat_map]. rewrite render_eq.
    rewrite !length_app, !repeat_length, IH. rewrite ?length_app. lia.
Qed.

(** On disk a substitution changes nothing outside the bytes of the hashes
    it changes. *)
Lemma outside_bytes_render (o : platform) (sel : groups -> bool)
    (hash : groups -> text) (ps : list piece) :
  (forall m, In (Match m) ps ->
     List.length (hash m) = List.length (g2 m)
     /\ Forall (fun c => is_hex c = true) (hash m)
     /\ Forall (fun c => is_hex c = true) (g2 m)) ->
  (forall m, In (Match m) ps -> sel m = false -> hash m = g2 m) ->
  let mask := byte_mask o (hash_mask sel ps) (flat_map (render g2) ps) in
  outside_bytes mask (encode_text o (flat_map (render hash) ps))
  = outside_bytes mask (encode_text o (flat_map (render g2) ps))
  /\ List.length (encode_text o (flat_map (render hash) ps))
     = List.length (encode_text o (flat_map (render g2) ps)).
Proof.
  induction ps as [|[c|m] ps IH]; intros Hx K.
  - split; reflexivity.
  - destruct IH as [I1 I2]; [intros; apply Hx; now right
                            | intros; apply K; [now right | assumption]|].
    cbn [hash_mask flat_map render]. cbv zeta.
    change (false :: ?x) with ([false] ++ x).
    rewrite !(byte_mask_app o [false] _ [c]) by reflexivity.
    rewrite !(encode_text_app o [c]). split.
    + rewrite !outside_bytes_app
        by (apply (byte_mask_length o [false] [c]); reflexivity).
      now rewrite I1.
    + now rewrite !length_app, I2.
  - destruct IH as [I1 I2]; [intros; apply Hx; now right
                            | intros; apply K; [now right | assumption]|].
    destruct (Hx m (or_introl eq_refl)) as (L & Fh & Fg).
    specialize (K m (or_introl eq_refl)).
    cbn [hash_mask flat_map]. cbv zeta. rewrite !render_eq.
    assert (A : forall y : text, g3 m ++ g4 m ++ g5 m ++ y = (g3 m ++ g4 m ++ g5 m) ++ y)
      by (intros; now rewrite <- !app_assoc).
    rewrite <- !app_assoc, !A.
    rewrite !(byte_mask_app o (repeat false _)) by now rewrite repeat_length.
    rewrite !(byte_mask_app o (repeat (sel m) _)) by now rewrite repeat_length.
    rewrite !(byte_mask_app o (repeat false _)) by now rewrite repeat_length.
    rewrite !byte_mask_repeat, !encode_text_app.
    assert (Lh : List.length (encode_text o (hash m))
                 = List.length (encode_text o (g2 m)))
      by (rewrite !encode_text_hex_length by assumption; exact L).
    split.
    + rewrite !outside_bytes_app;
        rewrite ?repeat_length; try reflexivity; try (symmetry; exact Lh).
      f_equal. f_equal; [|now rewrite I1].
      destruct (sel m); [|now rewrite K].
      now apply outside_bytes_marked.
    + rewrite !length_app, Lh, I2. reflexivity.
Qed.

(** On POSIX a file that holds no carriage return is in the form
    [write_text] gives its text. *)
Lemma posix_form (b : bytes) (t : text) :
  decode_text b = Some t -> ~ In x0d b -> encode_text Posix t = b.
Proof.
  intros R NC. unfold decode_text in R.
  destruct (Utf8.decode (map Byte.to_N b)) as [t0|] eqn:D; [|discriminate].
  injection R as <-. pose proof (encode_decode _ _ D) as Enc.
  assert (F : Forall (fun c => c <> 13) t0).
  { apply Forall_forall. intros c I ->. apply NC.
    assert (I13 : In 13 (Utf8.encode t0)).
    { unfold Utf8.encode. apply in_flat_map. exists 13. split; [exact I|now left]. }
    rewrite Enc in I13. apply in_map_iff in I13 as (x & Ex & Ix).
    apply to_N_cr in Ex. now subst x. }
  rewrite (nl_in_id _ F). unfold encode_text. cbn [nl_out]. rewrite Enc, map_map.
  rewrite <- (map_id b) at 2. apply map_ext. exact byte_of_N_to_N.
Qed.

(** C2, as the code has it.  A run that rewrites the manifest reads the bytes
    [b] of the file as the text [t] and leaves the bytes [b'], which read as
    the text [t'].  The two texts have the same length and are the same
    outside the 32 hash characters of the entries whose hash changes, where a
    change of letter case is a change; the entries of [t'] are the entries of
    [t] with the new hashes.  When [b] is what writing [t] gives, the same
    holds of the bytes: [b'] is as long as [b] and equal to it outside the
    bytes of those hash characters.  On POSIX [b] is of that form when it
    holds no carriage return. *)
Theorem preservation (e : env) (w w' : world) :
  main e w = Exit w' ->
  writes w' <> writes w ->
  exists b t b' t',
    disk w (MODINFO e) = Some (File b)
    /\ read_text (disk w) (MODINFO e) = inr t
    /\ disk w' (MODINFO e) = Some (File b')
    /\ read_text (disk w') (MODINFO e) = inr t'
    /\ List.length t' = List.length t
    /\ outside (hash_mask (hash_changes e (disk w)) (pieces t)) t'
       = outside (hash_mask (hash_changes e (disk w)) (pieces t)) t
    /\ pieces t' = map (rehash (new_hash e (disk w))) (pieces t)
    /\ (encode_text (os e) t = b ->
        List.length b' = List.length b
        /\ outside_bytes
             (byte_mask (os e) (hash_mask (hash_changes e (disk w)) (pieces t)) t) b'
           = outside_bytes
               (byte_mask (os e) (hash_mask (hash_changes e (disk w)) (pieces t)) t) b)
    /\ (os e = Posix -> ~ In x0d b -> encode_text (os e) t = b).
Proof.
  intros M W. destruct (main_exit_inv _ _ _ M) as (t & nt & s & E1 & E2).
  destruct (substitute_returned _ _ _ _ _ E2) as (_ & Nt & _ & _).
  destruct (Nat.eq_dec (updated s) 0) as [Z|Z].
  { rewrite (main_unchanged _ _ _ _ _ E1 E2 Z) in M. injection M as <-.
    now destruct W. }
  rewrite (main_written _ _ _ _ _ E1 E2) in M by lia. injection M as <-.
  destruct (read_text_file _ _ _ E1) as (b & Eb & Db).
  exists b, t, (encode_text (os e) nt), nt.
  split; [exact Eb|]. split; [exact E1|]. cbn [disk].
  rewrite text_eqb_refl. split; [reflexivity|].
  unfold read_text at 1. rewrite text_eqb_refl. subst nt.
  rewrite (read_back e (disk w) t _ (read_text_clean _ _ _ E1) (new_hash_ok e (disk w))).
  split; [reflexivity|].
  assert (K : forall m, In (Match m) (pieces t) ->
                hash_changes e (disk w) m = false -> new_hash e (disk w) m = g2 m).
  { intros m _ H. unfold hash_changes in H. apply negb_false_iff, text_eqb_eq in H.
    now symmetry. }
  destruct (outside_render (hash_changes e (disk w)) (new_hash e (disk w)) (pieces t))
    as [O L]; [intros m I; now apply (new_hash_length e (disk w) t) | exact K |].
  destruct (outside_bytes_render (os e) (hash_changes e (disk w)) (new_hash e (disk w))
              (pieces t)) as [Ob Lb]; [|exact K|].
  { intros m I. pose proof (pieces_shape _ _ I) as Sh.
    destruct (new_hash_ok e (disk w) m Sh) as [L1 F1].
    destruct (entry_shape_g2 m Sh) as [L2 F2].
    split; [congruence|]. now split. }
  rewrite pieces_spell in O, L, Ob, Lb.
  split; [exact L|]. split; [exact O|].
  split; [apply pieces_render, new_hash_ok|].
  split.
  - intros <-. split; [exact Lb | exact Ob].
  - intros Os NC. rewrite Os. now apply posix_form.
Qed.

Lemma preservation_witness :
  exists b b',
    disk scenario (MODINFO here) = Some (File b)
    /\ disk (after here scenario) (MODINFO here) = Some (File b')
    /\ ~ In x0d b
    /\ b' <> b
    /\ List.length b' = List.length b
    /\ outside_bytes
         (byte_mask Posix
            (hash_mask (hash_changes here (disk scenario)) (pieces scenario_manifest))
            scenario_manifest) b'
       = outside_bytes
           (byte_mask Posix
              (hash_mask (hash_changes here (disk scenario)) (pieces scenario_manifest))
              scenario_manifest) b.
Proof.
  pose proof (preservation here scenario (after here scenario)) as H.
  destruct H as (b & t & b' & t' & Eb & Et & Eb' & _ & _ & _ & _ & By & Px).
  - vm_compute; reflexivity.
  - vm_compute; discriminate.
  - assert (Rt : read_text (disk scenario) (MODINFO here) = inr scenario_manifest)
      by (vm_compute; reflexivity).
    rewrite Rt in Et. injection Et as <-.
    assert (Db : disk scenario (MODINFO here)
                 = Some (File (encode_text Posix scenario_manifest))) by reflexivity.
    rewrite Db in Eb. injection Eb as <-.
    assert (NC : ~ In x0d (encode_text Posix scenario_manifest))
      by (vm_compute; intuition discriminate).
    destruct (By (Px eq_refl NC)) as [L O].
    exists (encode_text Posix scenario_manifest), b'.
    split; [exact Db|]. split; [exact Eb'|]. split; [exact NC|].
    split; [|split; [exact L | exact O]].
    intros ->. vm_compute in Eb'. discriminate Eb'.
Defined.

(** C2 as stated fails, in two ways.  [case_manifest] is rewritten, and
    outside the hash characters of its one outdated entry the text has
    changed, in the entry of [a.xml], whose hash matched without regard to
    case.  [crlf_manifest] ends its line with a carriage return and a line
    feed; the run rewrites it from 70 bytes to 69: the carriage return,
    which stands outside every hash, is gone. *)
Lemma preservation_fails_on_case_and_line_ends :
  (read_text (disk case_world) (MODINFO here) = inr case_manifest
   /\ main here case_world = Exit (after here case_world)
   /\ writes (after here case_world) <> writes case_world
   /\ outdated here (disk case_world) case_a = false
   /\ exists t',
        read_text (disk (after here case_world)) (MODINFO here) = inr t'
        /\ outside (hash_mask (outdated here (disk case_world)) (pieces case_manifest)) t'
           <> outside (hash_mask (outdated here (disk case_world)) (pieces case_manifest))
                      case_manifest)
  /\ (main here crlf_world = Exit (after here crlf_world)
      /\ writes (after here crlf_world) <> writes crlf_world
      /\ exists b b',
           disk crlf_world (MODINFO here) = Some (File b)
           /\ disk (after here crlf_world) (MODINFO here) = Some (File b')
           /\ List.length b = 70%nat /\ List.length b' = 69%nat
           /\ skipn 68 b = [x0d; x0a] /\ skipn 68 b' = [x0a]
           /\ firstn 11 b' = firstn 11 b
           /\ firstn 25 (skipn 43 b') = firstn 25 (skipn 43 b)).
Proof.
  split.
  - split; [vm_compute; reflexivity|]. split; [vm_compute; reflexivity|].
    split; [vm_compute; discriminate|]. split; [vm_compute; reflexivity|].
    eexists. split; [vm_compute; reflexivity|]. vm_compute. discriminate.
  - split; [vm_compute; reflexivity|]. split; [vm_compute; discriminate|].
    do 2 eexists. split; [vm_compute; reflexivity|].
    split; [vm_compute; reflexivity|]. repeat split; vm_compute; reflexivity.
Qed.

(** ** Near misses *)

Lemma near_miss_text_app (ws1 h ws2 : text) (d : N) (p post : text) :
  near_miss_text ws1 h ws2 d p ++ post
  = tag_open ++ ws1 ++ md5_eq ++ h ++ quote :: ws2 ++ import_eq
    ++ d :: tag_end ++ p ++ tag_close ++ post.
Proof.
  unfold near_miss_text.
  repeat (rewrite <- app_assoc || rewrite <- app_comm_cons). reflexivity.
Qed.

Lemma match_at_not_lt (c : N) (s : text) : c <> 60 -> match_at (c :: s) = None.
Proof.
  intro H. unfold match_at. change tag_open with (60 :: str "File").
  rewrite lit_cons. destruct (60 =? c) eqn:E; [|reflexivity].
  apply N.eqb_eq in E. now destruct H.
Qed.

Lemma match_at_lt_other (c : N) (s : text) : c <> 70 -> match_at (60 :: c :: s) = None.
Proof.
  intro H. unfold match_at. change tag_open with (60 :: 70 :: str "ile").
  rewrite lit_cons, N.eqb_refl, lit_cons. destruct (70 =? c) eqn:E; [|reflexivity].
  apply N.eqb_eq in E. now destruct H.
Qed.

Lemma hexes_short (n : nat) (h r : text) :
  (List.length h < n)%nat -> hexes n (h ++ quote :: r) = None.
Proof.
  revert h; induction n as [|n IH]; intros h L; [lia|].
  destruct h as [|c h]; [reflexivity|]. cbn [app hexes].
  destruct (is_hex c); [|reflexivity]. rewrite IH; [reflexivity|]. cbn in L. lia.
Qed.

Lemma lit_tag_close_not_lt (c : N) (s : text) : c <> 60 -> lit tag_close (c :: s) = None.
Proof.
  intro H. rewrite tag_close_cons, lit_cons. destruct (60 =? c) eqn:E; [|reflexivity].
  apply N.eqb_eq in E. now destruct H.
Qed.

Lemma until_close_line_feed (p r : text) :
  Forall (fun x => x <> 60) p -> In 10 p -> until_close (p ++ r) = None.
Proof.
  intros F; induction F as [|c p Hc F IH]; intros I; [destruct I|].
  cbn [app]. rewrite until_close_eq, (lit_tag_close_not_lt c _ Hc).
  destruct I as [->|I]; [reflexivity|]. rewrite (IH I). now destruct (is_dot c).
Qed.

Lemma path1_line_feed (p r : text) :
  Forall (fun x => x <> 60) p -> In 10 p -> path1 (p ++ r) = None.
Proof.
  intros F I. destruct p as [|c p]; [destruct I|]. cbn [app path1].
  destruct I as [->|I]; [reflexivity|].
  rewrite (until_close_line_feed p r); [now destruct (is_dot c)| |exact I].
  now inversion F.
Qed.

Lemma until_close_closes (s : text) :
  ~ closes_on_line s -> until_close s = None.
Proof.
  intro N. destruct (until_close s) as [[p r]|] eqn:E; [|reflexivity].
  destruct N. destruct (until_close_spec _ _ _ E) as [-> F].
  exists p, r. split; [reflexivity|]. intro I.
  apply (proj1 (Forall_forall _ _) F) in I. discriminate I.
Qed.

Lemma closes_after_tag (post : text) :
  closes_on_line (str "/File>" ++ post) -> closes_on_line post.
Proof.
  intros (a & b & E & N). rewrite tag_close_cons in E.
  do 6 (destruct a as [|? a]; [discriminate E|];
        injection E as <- E; assert (N' : ~ In 10 a) by (intro; apply N; now right);
        clear N; rename N' into N).
  exists a, b. split; [|exact N]. rewrite tag_close_cons. exact E.
Qed.

Lemma path1_empty (post : text) :
  ~ closes_on_line post -> path1 (tag_close ++ post) = None.
Proof.
  intro N. rewrite tag_close_cons. cbn [app path1 is_dot N.eqb Pos.eqb negb].
  rewrite until_close_closes; [reflexivity|].
  intro C. apply N. now apply closes_after_tag.
Qed.

Lemma hexes_long_quote (h r : text) :
  Forall (fun c => is_hex c = true) h -> (32 < List.length h)%nat ->
  exists h' c r',
    hexes 32 (h ++ quote :: r) = Some (h', c :: r') /\ (quote =? c) = false.
Proof.
  intros F L. rewrite <- (firstn_skipn 32 h) in F |- *. rewrite <- app_assoc.
  apply Forall_app in F as [F1 F2].
  assert (L32 : List.length (firstn 32 h) = 32%nat) by (rewrite length_firstn; lia).
  pose proof (hexes_app (firstn 32 h) (skipn 32 h ++ quote :: r) F1) as H.
  rewrite L32 in H. rewrite H.
  destruct (skipn 32 h) as [|c k] eqn:K.
  { apply (f_equal (@List.length N)) in K. rewrite length_skipn in K. cbn in K. lia. }
  inversion F2 as [|? ? Hc _]. subst.
  exists (firstn 32 h), c, (k ++ quote :: r). split; [reflexivity|].
  destruct (quote =? c) eqn:E; [|reflexivity].
  apply N.eqb_eq in E. subst c. discriminate Hc.
Qed.

(** The pattern does not match at the start of a near miss. *)
Lemma near_miss_start (c post : text) :
  near_miss c post -> match_at (c ++ post) = None.
Proof.
  intros (ws1 & h & ws2 & d & p & -> & N1 & F1 & Fh & N2 & F2 & Hd & Fp & D).
  rewrite near_miss_text_app. unfold match_at.
  rewrite lit_app.
  rewrite (spaces1_app ws1) by (assumption || reflexivity).
  rewrite lit_app.
  destruct (Nat.lt_trichotomy (List.length h) 32) as [L|[L|L]].
  - now rewrite hexes_short.
  - pose proof (hexes_app h (quote :: ws2 ++ import_eq ++ d :: tag_end ++ p
                               ++ tag_close ++ post) Fh) as H.
    rewrite L in H. rewrite H, lit_quote.
    rewrite (spaces1_app ws2) by (assumption || reflexivity).
    rewrite lit_app.
    unfold digit01.
    destruct ((d =? 48) || (d =? 49)) eqn:Ed; [|reflexivity].
    rewrite lit_app.
    destruct D as [D|[[D1 D2]|[D|[-> D]]]].
    + now destruct D.
    + apply N.eqb_neq in D1, D2. rewrite D1, D2 in Ed. discriminate Ed.
    + now rewrite path1_line_feed.
    + cbn [app]. now rewrite path1_empty.
  - destruct (hexes_long_quote h (ws2 ++ import_eq ++ d :: tag_end ++ p
                                    ++ tag_close ++ post) Fh L)
      as (h' & c & r' & -> & Q).
    unfold lit. now rewrite Q.
Qed.

Lemma space_not_lt (ws : text) :
  Forall (fun x => is_space x = true) ws -> Forall (fun x => x <> 60) ws.
Proof. apply Forall_impl. intros x H ->. discriminate H. Qed.

Lemma hex_not_lt (h : text) :
  Forall (fun x => is_hex x = true) h -> Forall (fun x => x <> 60) h.
Proof. apply Forall_impl. intros x H ->. discriminate H. Qed.

(** After its first character a near miss has no [<] before its closing
    tag. *)
Lemma near_miss_body (c post : text) :
  near_miss c post ->
  exists body, c = 60 :: body ++ tag_close /\ Forall (fun x => x <> 60) body.
Proof.
  intros (ws1 & h & ws2 & d & p & -> & N1 & F1 & Fh & N2 & F2 & Hd & Fp & D).
  exists (str "File" ++ ws1 ++ md5_eq ++ h ++ quote :: ws2 ++ import_eq
          ++ d :: tag_end ++ p).
  split.
  - unfold near_miss_text. change tag_open with (60 :: str "File").
    repeat (rewrite <- app_assoc || rewrite <- app_comm_cons). reflexivity.
  - assert (Lt : forall l : text,
               forallb (fun x => negb (x =? 60)) l = true ->
               Forall (fun x => x <> 60) l).
    { intros l H. apply Forall_forall. intros x I ->.
      apply (proj1 (forallb_forall _ _) H) in I. discriminate I. }
    apply Forall_app; split; [now apply Lt|].
    apply Forall_app; split; [now apply space_not_lt|].
    apply Forall_app; split; [now apply Lt|].
    apply Forall_app; split; [now apply hex_not_lt|].
    apply Forall_cons; [discriminate|].
    apply Forall_app; split; [now apply space_not_lt|].
    apply Forall_app; split; [now apply Lt|].
    apply Forall_cons; [exact Hd|].
    apply Forall_app; split; [now apply Lt | exact Fp].
Qed.

Lemma suffix_no_match (body post a b : text) :
  Forall (fun x => x <> 60) body ->
  60 :: body ++ tag_close = a ++ b -> a <> [] -> b <> [] ->
  match_at (b ++ post) = None.
Proof.
  intros F E Na Nb. destruct a as [|x a]; [now destruct Na|].
  injection E as _ E. apply app_eq_app in E as [l [[E1 E2]|[E1 E2]]].
  - subst b. destruct l as [|y l].
    + cbn [app]. rewrite tag_close_cons. cbn [app].
      apply match_at_lt_other. discriminate.
    + cbn [app]. apply match_at_not_lt.
      rewrite E1 in F. apply Forall_app in F as [_ F]. now inversion F.
  - change tag_close with [60; 47; 70; 105; 108; 101; 62] in E2.
    do 8 (destruct l as [|? l];
          [cbn [app] in E2; subst b; cbn [app];
           try (apply match_at_lt_other; discriminate);
           try (apply match_at_not_lt; discriminate);
           try (now destruct Nb)
          |cbn [app] in E2; try discriminate E2; injection E2 as <- E2]).
Qed.

(** The pattern matches at no position of a near miss. *)
Lemma near_miss_no_match (c post : text) :
  near_miss c post ->
  forall a b, c = a ++ b -> b <> [] -> match_at (b ++ post) = None.
Proof.
  intros NM a b E Nb. destruct a as [|x a].
  - cbn in E. subst b. now apply near_miss_start.
  - destruct (near_miss_body _ _ NM) as (body & Eb & F).
    apply (suffix_no_match body post (x :: a) b F); [congruence|discriminate|exact Nb].
Qed.

(** ** The pieces of a text, by position *)

Lemma pieces_split (t : text) (ps1 ps2 : list piece) :
  pieces t = ps1 ++ ps2 ->
  exists r, t = flat_map (render g2) ps1 ++ r /\ pieces r = ps2.
Proof.
  revert ps1; induction t as [|c s E IH|s m r E IH] using pieces_ind; intros ps1 H.
  - rewrite pieces_nil in H. symmetry in H. apply app_eq_nil in H as [-> ->].
    exists []. now rewrite pieces_nil.
  - rewrite (pieces_skip _ _ E) in H. destruct ps1 as [|p ps1].
    + exists (c :: s). split; [reflexivity|]. now rewrite (pieces_skip _ _ E).
    + injection H as <- H. destruct (IH _ H) as (r & -> & Hr).
      exists r. now split.
  - rewrite (pieces_match _ _ _ E) in H. destruct ps1 as [|p ps1].
    + exists s. split; [reflexivity|]. now rewrite (pieces_match _ _ _ E).
    + injection H as <- H. destruct (IH _ H) as (r' & -> & Hr).
      exists r'. split; [|exact Hr].
      destruct (match_at_inv _ _ _ E) as (_ & -> & _).
      cbn [flat_map]. rewrite render_eq. unfold group0.
      now rewrite <- !app_assoc.
Qed.

Lemma pieces_head_match (r : text) (m : groups) (q : list piece) :
  pieces r = Match m :: q -> exists r', match_at r = Some (m, r').
Proof.
  destruct r as [|c s]; [rewrite pieces_nil; discriminate|].
  rewrite pieces_cons. destruct (match_at (c :: s)) as [[m' r']|]; [|discriminate].
  intro H. injection H as -> _. now exists r'.
Qed.

Lemma split_window (x r pre c post : text) :
  x ++ r = pre ++ c ++ post ->
  (List.length pre <= List.length x)%nat ->
  (List.length x < List.length pre + List.length c)%nat ->
  exists a b, c = a ++ b /\ b <> [] /\ r = b ++ post.
Proof.
  intros E L1 L2. apply app_eq_app in E as [l [[E1 E2]|[E1 E2]]].
  - subst x. rewrite length_app in L2.
    symmetry in E2. apply app_eq_app in E2 as [l2 [[E3 E4]|[E3 E4]]].
    + subst l. rewrite length_app in L2. exists c, []. lia.
    + exists l, l2. split; [exact E3|]. split; [|exact E4].
      intros ->. rewrite app_nil_r in E3. subst l. lia.
  - subst pre. rewrite length_app in L1.
    destruct l as [|y l]; [|cbn in L1; lia].
    rewrite app_nil_r in L2. exists [], c. split; [reflexivity|].
    split; [|exact E2]. intros ->. cbn in L2. lia.
Qed.

(** No entry of the scan begins inside a near miss. *)
Lemma no_entry_inside (t pre c post : text) (ps1 : list piece) (m : groups)
    (ps2 : list piece) :
  t = pre ++ c ++ post -> near_miss c post ->
  pieces t = ps1 ++ Match m :: ps2 ->
  (List.length (flat_map (render g2) ps1) < List.length pre
   \/ List.length pre + List.length c <= List.length (flat_map (render g2) ps1))%nat.
Proof.
  intros Et NM P. destruct (pieces_split _ _ _ P) as (r & Er & Pr).
  destruct (pieces_head_match _ _ _ Pr) as (r' & M).
  destruct (Nat.lt_ge_cases (List.length (flat_map (render g2) ps1)) (List.length pre))
    as [L|L]; [now left|].
  destruct (Nat.lt_ge_cases (List.length (flat_map (render g2) ps1))
              (List.length pre + List.length c)) as [L'|L']; [|now right].
  rewrite Et in Er. symmetry in Er.
  destruct (split_window _ _ _ _ _ Er L L') as (a & b & Ec & Nb & Eb).
  rewrite Eb, (near_miss_no_match c post NM a b Ec Nb) in M. discriminate M.
Qed.

Lemma skips_over (c : text) : forall (ps : list piece) (post : text),
  flat_map (render g2) ps = c ++ post ->
  (forall ps1 m ps2, ps = ps1 ++ Match m :: ps2 ->
     (List.length c <= List.length (flat_map (render g2) ps1))%nat) ->
  exists ps', ps = map Skip c ++ ps' /\ flat_map (render g2) ps' = post.
Proof.
  induction c as [|x c IH]; intros ps post E H.
  - exists ps. now split.
  - destruct ps as [|[y|m] ps].
    + discriminate E.
    + cbn [flat_map render app] in E. injection E as -> E.
      destruct (IH ps post E) as (ps' & -> & E').
      * intros ps1 m ps2 ->. specialize (H (Skip x :: ps1) m ps2 eq_refl).
        cbn [flat_map render app List.length] in H. lia.
      * exists ps'. now split.
    + specialize (H [] m ps eq_refl). cbn in H. lia.
Qed.

Lemma render_skips (hash : groups -> text) (c : text) :
  flat_map (render hash) (map Skip c) = c.
Proof. induction c as [|x c IH]; [reflexivity|]. cbn. now rewrite IH. Qed.

Lemma lines_skips (e : env) (fs : filesystem) (c : text) (ps : list piece) :
  flat_map (spec_lines e fs) (map Skip c ++ ps) = flat_map (spec_lines e fs) ps
  /\ spec_count e fs (map Skip c ++ ps) = spec_count e fs ps.
Proof.
  induction c as [|x c [I1 I2]]; [now split|]. split.
  - cbn [map app flat_map spec_lines]. exact I1.
  - cbn [map app]. rewrite spec_count_cons, I2. reflexivity.
Qed.

(** ** What a substitution leaves of a near miss *)

Lemma alike_refl (s : text) : alike s s.
Proof. induction s; constructor; auto. Qed.

Lemma alike_hex (h h' : text) :
  Forall (fun c => is_hex c = true) h -> Forall (fun c => is_hex c = true) h' ->
  List.length h = List.length h' -> alike h h'.
Proof.
  intros F; revert h'; induction F as [|c h Hc F IH]; intros [|c' h'] F' L;
    try discriminate; constructor.
  - right. split; [exact Hc|]. now inversion F'.
  - apply IH; [now inversion F' | now injection L].
Qed.

Lemma alike_app (a a' b b' : text) : alike a a' -> alike b b' -> alike (a ++ b) (a' ++ b').
Proof. apply Forall2_app. Qed.

Lemma alike_length (s t : text) : alike s t -> List.length t = List.length s.
Proof. intro A. symmetry. exact (Forall2_length A). Qed.

Lemma alike_encode_length (o : platform) (s t : text) :
  alike s t -> List.length (encode_text o t) = List.length (encode_text o s).
Proof.
  intro A. rewrite !encode_text_flat.
  induction A as [|a b s t [->|[Ha Hb]] A IH]; [reflexivity| |];
    cbn [flat_map]; rewrite !length_app, IH; [reflexivity|].
  now rewrite !char_bytes_hex.
Qed.

Lemma alike_entry (hash : groups -> text) (m : groups) :
  hash_ok hash -> entry_shape m ->
  alike (g1 m ++ g2 m) (g1 m ++ hash m).
Proof.
  intros Ok Sh. apply alike_app; [apply alike_refl|].
  destruct (Ok m Sh) as [L F]. destruct (entry_shape_g2 m Sh) as [L' F'].
  apply alike_hex; [assumption|assumption|congruence].
Qed.

Lemma alike_group (hash : groups -> text) (m : groups) :
  hash_ok hash -> entry_shape m ->
  alike (render g2 (Match m)) (render hash (Match m)).
Proof.
  intros Ok Sh. rewrite !render_eq. apply alike_app; [apply alike_refl|].
  destruct (Ok m Sh) as [L F]. destruct (entry_shape_g2 m Sh) as [L' F'].
  apply alike_app; [|apply alike_refl].
  apply alike_hex; [assumption|assumption|congruence].
Qed.

Lemma alike_render (hash : groups -> text) (ps : list piece) :
  hash_ok hash -> (forall m, In (Match m) ps -> entry_shape m) ->
  alike (flat_map (render g2) ps) (flat_map (render hash) ps).
Proof.
  intros Ok. induction ps as [|[c|m] ps IH]; intro Sh.
  - constructor.
  - cbn [flat_map render app]. constructor; [now left|].
    apply IH. intros m I. apply Sh. now right.
  - cbn [flat_map]. apply alike_app.
    + apply alike_group; [exact Ok|apply Sh; now left].
    + apply IH. intros m' I. apply Sh. now right.
Qed.

(** An entry begins with [<] and has no other [<] before the end of its
    hash. *)
Lemma entry_head (m : groups) :
  entry_shape m ->
  exists k, g1 m ++ g2 m = 60 :: k /\ Forall (fun x => x <> 60) k.
Proof.
  intros (ws1 & ws2 & d & G1 & N1 & F1 & L & Fh & _).
  exists (str "File" ++ ws1 ++ md5_eq ++ g2 m). split.
  - rewrite G1. change tag_open with (60 :: str "File").
    repeat (rewrite <- app_assoc || rewrite <- app_comm_cons). reflexivity.
  - assert (Lt : forall l : text,
               forallb (fun x => negb (x =? 60)) l = true ->
               Forall (fun x => x <> 60) l).
    { intros l H. apply Forall_forall. intros x I ->.
      apply (proj1 (forallb_forall _ _) H) in I. discriminate I. }
    apply Forall_app; split; [now apply Lt|].
    apply Forall_app; split; [now apply space_not_lt|].
    apply Forall_app; split; [now apply Lt | now apply hex_not_lt].
Qed.

Lemma window_at_start (hash : groups -> text) (ps : list piece) (c post : text) :
  hash_ok hash -> (forall m, In (Match m) ps -> entry_shape m) ->
  flat_map (render g2) ps = c ++ post ->
  (forall ps1 m ps2, ps = ps1 ++ Match m :: ps2 ->
     (List.length c <= List.length (flat_map (render g2) ps1))%nat) ->
  exists post', flat_map (render hash) ps = c ++ post' /\ alike post post'.
Proof.
  intros Ok Sh E H. destruct (skips_over c ps post E H) as (ps' & -> & <-).
  exists (flat_map (render hash) ps'). split.
  - now rewrite flat_map_app, render_skips.
  - apply alike_render; [exact Ok|]. intros m I. apply Sh, in_or_app. now right.
Qed.

(** A text that begins with [<] and inside which no entry of the scan begins
    stands in the new text where it stood, and what stands before and after
    it is like what stood there. *)
Lemma window_untouched (hash : groups -> text) (c0 post : text) :
  hash_ok hash ->
  forall (ps : list piece) (pre : text),
  (forall m, In (Match m) ps -> entry_shape m) ->
  flat_map (render g2) ps = pre ++ (60 :: c0) ++ post ->
  (forall ps1 m ps2, ps = ps1 ++ Match m :: ps2 ->
     (List.length (flat_map (render g2) ps1) < List.length pre
      \/ List.length pre + S (List.length c0)
         <= List.length (flat_map (render g2) ps1))%nat) ->
  exists pre' post',
    flat_map (render hash) ps = pre' ++ (60 :: c0) ++ post'
    /\ alike pre pre' /\ alike post post'.
Proof.
  intros Ok.
  assert (Start : forall ps, (forall m, In (Match m) ps -> entry_shape m) ->
            flat_map (render g2) ps = [] ++ (60 :: c0) ++ post ->
            (forall ps1 m ps2, ps = ps1 ++ Match m :: ps2 ->
               (List.length (flat_map (render g2) ps1) < List.length (@nil N)
                \/ List.length (@nil N) + S (List.length c0)
                   <= List.length (flat_map (render g2) ps1))%nat) ->
            exists pre' post',
              flat_map (render hash) ps = pre' ++ (60 :: c0) ++ post'
              /\ alike [] pre' /\ alike post post').
  { intros ps Sh E H.
    destruct (window_at_start hash ps (60 :: c0) post Ok Sh E) as (post' & E' & A).
    - intros ps1 m ps2 Eq. destruct (H ps1 m ps2 Eq) as [L|L]; cbn in L; cbn; lia.
    - exists [], post'. split; [exact E'|]. split; [constructor|exact A]. }
  induction ps as [|[y|m] ps IH]; intros pre Sh E H.
  - destruct pre; discriminate E.
  - destruct pre as [|x pre]; [now apply Start|].
    cbn [flat_map render app] in E. injection E as -> E.
    destruct (IH pre) as (pre' & post' & E' & A1 & A2); [| exact E | |].
    + intros m I. apply Sh. now right.
    + intros ps1 m ps2 ->. specialize (H (Skip x :: ps1) m ps2 eq_refl).
      cbn [flat_map render app List.length] in H. cbn [List.length]. lia.
    + exists (x :: pre'), post'. split; [|split; [|exact A2]].
      * cbn [flat_map render app]. now rewrite E'.
      * constructor; [now left|exact A1].
  - destruct pre as [|x pre0]; [now apply Start|].
    remember (x :: pre0) as pre eqn:Epre.
    assert (Shm : entry_shape m) by (apply Sh; now left).
    assert (Sh' : forall m', In (Match m') ps -> entry_shape m')
      by (intros m' I; apply Sh; now right).
    cbn [flat_map] in E. rewrite render_eq in E.
    assert (Whole : forall l, pre = (g1 m ++ g2 m ++ g3 m ++ g4 m ++ g5 m) ++ l ->
              flat_map (render g2) ps = l ++ (60 :: c0) ++ post ->
              exists pre' post',
                flat_map (render hash) (Match m :: ps) = pre' ++ (60 :: c0) ++ post'
                /\ alike pre pre' /\ alike post post').
    { intros l E1 E2.
      destruct (IH l) as (pre' & post' & E' & A1 & A2); [exact Sh' | exact E2 | |].
      - intros ps1 m' ps2 ->. specialize (H (Match m :: ps1) m' ps2 eq_refl).
        cbn [flat_map] in H. rewrite render_eq, E1 in H.
        rewrite !length_app in H. lia.
      - exists ((g1 m ++ hash m ++ g3 m ++ g4 m ++ g5 m) ++ pre'), post'.
        split; [|split; [|exact A2]].
        + cbn [flat_map]. rewrite render_eq, E'. now rewrite <- !app_assoc.
        + rewrite E1. apply alike_app; [|exact A1].
          rewrite <- !render_eq. now apply alike_group. }
    assert (E0 : (g1 m ++ g2 m ++ g3 m ++ g4 m ++ g5 m) ++ flat_map (render g2) ps
                 = pre ++ (60 :: c0) ++ post)
      by exact E.
    apply app_eq_app in E0 as [l [[E1 E2]|[E1 E2]]].
    2:{ now apply (Whole l). }
    destruct l as [|y l].
    { apply (Whole []); [now rewrite app_nil_r in E1 |- * | symmetry; exact E2]. }
    cbn [app] in E2. injection E2 as <- E2.
    destruct (entry_head m Shm) as (k & Ek & Fk).
    assert (E3 : (g1 m ++ g2 m) ++ (g3 m ++ g4 m ++ g5 m) = pre ++ 60 :: l)
      by (rewrite <- E1; now rewrite <- !app_assoc).
    rewrite Ek, Epre in E3. cbn [app] in E3. injection E3 as <- E3.
    assert (Inside : exists l2, pre0 = k ++ l2 /\ g3 m ++ g4 m ++ g5 m = l2 ++ 60 :: l).
    { apply app_eq_app in E3 as [l2 [[E4 E5]|[E4 E5]]].
      - destruct l2 as [|z l2].
        + exists []. rewrite app_nil_r in E4. subst k. cbn [app] in E5.
          now rewrite app_nil_r.
        + cbn [app] in E5. injection E5 as <- E5.
          rewrite E4 in Fk. apply Forall_app in Fk as [_ Fk].
          inversion Fk as [|? ? Bad _]. now destruct Bad.
      - now exists l2. }
    destruct Inside as (l2 & -> & E4).
    assert (Lg : List.length (g1 m ++ g2 m ++ g3 m ++ g4 m ++ g5 m)
                 = (List.length pre + S (List.length l))%nat)
      by (rewrite E1, length_app; reflexivity).
    assert (Apre : alike pre ((g1 m ++ hash m) ++ l2)).
    { rewrite Epre. change (60 :: k ++ l2) with ((60 :: k) ++ l2). rewrite <- Ek.
      apply alike_app; [now apply alike_entry | apply alike_refl]. }
    assert (R : flat_map (render hash) (Match m :: ps)
                = ((g1 m ++ hash m) ++ l2) ++ (60 :: l) ++ flat_map (render hash) ps).
    { cbn [flat_map]. rewrite render_eq.
      rewrite <- !app_assoc. do 2 f_equal.
      rewrite !app_assoc. f_equal. rewrite <- !app_assoc. exact E4. }
    apply app_eq_app in E2 as [l3 [[E5 E6]|[E5 E6]]].
    + (* the text ends beyond the entry *)
      destruct (skips_over l3 ps post E6) as (ps' & Eps & Epost).
      * intros ps1 m' ps2 Eq. specialize (H (Match m :: ps1) m' ps2).
        rewrite Eq in H. specialize (H eq_refl).
        cbn [flat_map] in H. rewrite render_eq in H.
        rewrite length_app, Lg in H. rewrite E5 in H.
        cbn [List.length] in H. rewrite length_app in H. lia.
      * exists ((g1 m ++ hash m) ++ l2), (flat_map (render hash) ps').
        split; [|split; [exact Apre|]].
        -- rewrite R, Eps, flat_map_app, render_skips, E5.
           cbn [app]. now rewrite <- !app_assoc.
        -- rewrite <- Epost. apply alike_render; [exact Ok|].
           intros m' I. apply Sh'. rewrite Eps. apply in_or_app. now right.
    + (* the text ends inside the entry *)
      exists ((g1 m ++ hash m) ++ l2), (l3 ++ flat_map (render hash) ps).
      split; [|split; [exact Apre|]].
      * rewrite R, E5. cbn [app]. now rewrite <- !app_assoc.
      * rewrite E6. apply alike_app; [apply alike_refl|].
        now apply alike_render.
Qed.

(** Where a position of the text falls among the pieces: between two
    pieces, or strictly inside an entry. *)
Lemma locate (ps : list piece) : forall pre rest : text,
  flat_map (render g2) ps = pre ++ rest ->
  (exists ps1 ps2, ps = ps1 ++ ps2 /\ flat_map (render g2) ps1 = pre)
  \/ (exists ps1 m ps2 x y,
        ps = ps1 ++ Match m :: ps2
        /\ pre = flat_map (render g2) ps1 ++ x
        /\ render g2 (Match m) = x ++ y
        /\ x <> [] /\ y <> []
        /\ rest = y ++ flat_map (render g2) ps2).
Proof.
  induction ps as [|p ps IH]; intros pre rest E.
  - left. exists [], []. cbn in E. symmetry in E. apply app_eq_nil in E as [-> _].
    now split.
  - destruct pre as [|c pre].
    { left. exists [], (p :: ps). now split. }
    cbn [flat_map] in E.
    apply app_eq_app in E as [l [[E1 E2]|[E1 E2]]].
    + (* the position falls inside or at the end of [p] *)
      destruct l as [|d l].
      * rewrite app_nil_r in E1. cbn [app] in E2. left.
        exists [p], ps. split; [reflexivity|]. cbn [flat_map]. now rewrite app_nil_r.
      * destruct p as [y|m].
        -- cbn [render] in E1. destruct pre; [discriminate E1|].
           injection E1 as _ E1. now destruct pre.
        -- right. exists [], m, ps, (c :: pre), (d :: l).
           split; [reflexivity|]. split; [reflexivity|]. split; [exact E1|].
           split; [discriminate|]. split; [discriminate|]. exact E2.
    + destruct (IH l rest E2) as [(ps1 & ps2 & -> & <-)
                                 |(ps1 & m & ps2 & x & y & -> & -> & G & Nx & Ny & Er)].
      * left. exists (p :: ps1), ps2. split; [reflexivity|].
        cbn [flat_map]. now rewrite E1.
      * right. exists (p :: ps1), m, ps2, x, y.
        split; [reflexivity|]. split; [|now repeat split].
        rewrite E1. cbn [flat_map]. now rewrite <- app_assoc.
Qed.

Lemma split_no_lt (k rest x y : text) :
  Forall (fun c => c <> 60) k ->
  k ++ rest = x ++ 60 :: y ->
  exists x2, x = k ++ x2 /\ rest = x2 ++ 60 :: y.
Proof.
  intros F E. apply app_eq_app in E as [l [[E1 E2]|[E1 E2]]].
  - destruct l as [|c l].
    + exists []. rewrite app_nil_r in E1 |- *. now split.
    + cbn [app] in E2. injection E2 as <- E2.
      rewrite E1 in F. apply Forall_app in F as [_ F].
      inversion F as [|? ? Bad _]. now destruct Bad.
  - now exists l.
Qed.

Lemma entry_tail (m : groups) :
  entry_shape m ->
  Forall (fun c => c <> 60) (g3 m) /\ g5 m = [60; 47; 70; 105; 108; 101; 62].
Proof.
  intros (ws1 & ws2 & d & _ & _ & _ & _ & _ & G3 & _ & F2 & D & _ & _ & G5).
  split; [|exact G5]. rewrite G3.
  assert (Lt : forall l : text,
             forallb (fun x => negb (x =? 60)) l = true ->
             Forall (fun x => x <> 60) l).
  { intros l H. apply Forall_forall. intros x I ->.
    apply (proj1 (forallb_forall _ _) H) in I. discriminate I. }
  apply Forall_cons; [discriminate|].
  apply Forall_app; split; [now apply space_not_lt|].
  apply Forall_app; split; [now apply Lt|].
  apply Forall_cons; [destruct D; subst d; discriminate | now apply Lt].
Qed.

(** A text that begins with [<F] and begins strictly inside an entry begins
    in the path of the entry. *)
Lemma inside_the_path (m : groups) (x y r r' : text) :
  entry_shape m ->
  render g2 (Match m) = x ++ y -> x <> [] -> y <> [] ->
  y ++ r = 60 :: 70 :: r' ->
  exists a z, x = g1 m ++ g2 m ++ g3 m ++ a /\ g4 m = a ++ 60 :: z.
Proof.
  intros Sh E Nx Ny Ey. destruct y as [|c y]; [now destruct Ny|].
  cbn [app] in Ey. injection Ey as -> Ey.
  destruct (entry_head m Sh) as (k & Ek & Fk).
  destruct (entry_tail m Sh) as (F3 & G5).
  rewrite render_eq, app_assoc, Ek in E.
  destruct x as [|c0 x]; [now destruct Nx|].
  cbn [app] in E. injection E as <- E.
  destruct (split_no_lt _ _ _ _ Fk E) as (x2 & -> & E2).
  destruct (split_no_lt _ _ _ _ F3 E2) as (x3 & -> & E3).
  assert (Ex : 60 :: k ++ g3 m ++ x3 = g1 m ++ g2 m ++ g3 m ++ x3).
  { change (60 :: k ++ g3 m ++ x3) with ((60 :: k) ++ g3 m ++ x3).
    rewrite <- Ek. now rewrite <- app_assoc. }
  rewrite G5 in E3.
  apply app_eq_app in E3 as [l [[E4 E5]|[E4 E5]]].
  - destruct l as [|d l].
    + cbn [app] in E5. injection E5 as E5. subst y.
      cbn [app] in Ey. discriminate Ey.
    + cbn [app] in E5. injection E5 as <- _.
      exists x3, l. split; [|exact E4].
      cbn [app]. rewrite <- ?app_assoc. exact Ex.
  - destruct l as [|d l].
    + cbn [app] in E5. injection E5 as E5. subst y.
      cbn [app] in Ey. discriminate Ey.
    + exfalso.
      assert (I : In 60 (l ++ 60 :: y)) by (apply in_or_app; right; now left).
      apply (f_equal (@tl N)) in E5. cbn [tl app] in E5. rewrite <- E5 in I.
      cbn in I. intuition discriminate.
Qed.

Lemma near_miss_head (c post : text) :
  near_miss c post -> exists r, c = 60 :: 70 :: r.
Proof.
  intros (ws1 & h & ws2 & d & p & -> & _). unfold near_miss_text.
  change tag_open with (60 :: 70 :: str "ile"). eexists. reflexivity.
Qed.

(** What a run leaves of a near miss in the manifest. *)
Lemma near_miss_kept (e : env) (w : world) (t pre c post : text) :
  read_text (disk w) (MODINFO e) = inr t ->
  t = pre ++ c ++ post ->
  near_miss c post ->
  exists pre' post',
    read_text (disk (after e w)) (MODINFO e) = inr (pre' ++ c ++ post')
    /\ alike pre pre' /\ alike post post'
    /\ forall b, disk w (MODINFO e) = Some (File b) -> encode_text (os e) t = b ->
         disk (after e w) (MODINFO e) = Some (File (encode_text (os e) (pre' ++ c ++ post'))).
Proof.
  intros R Et NM.
  assert (Same : disk (after e w) = disk w ->
            exists pre' post',
              read_text (disk (after e w)) (MODINFO e) = inr (pre' ++ c ++ post')
              /\ alike pre pre' /\ alike post post'
              /\ forall b, disk w (MODINFO e) = Some (File b) ->
                   encode_text (os e) t = b ->
                   disk (after e w) (MODINFO e)
                   = Some (File (encode_text (os e) (pre' ++ c ++ post')))).
  { intro D. exists pre, post. rewrite D, <- Et.
    split; [exact R|]. split; [apply alike_refl|]. split; [apply alike_refl|].
    intros b Eb <-. exact Eb. }
  destruct (substitute e w t) as [nt s|x s] eqn:S.
  2:{ apply Same. unfold after. now rewrite (main_raised _ _ _ _ _ R S). }
  destruct (main_completes _ _ _ _ _ R S) as (w' & last & M & _).
  assert (A : after e w = w') by (unfold after; now rewrite M).
  destruct (manifest_after _ _ _ _ _ _ R S M) as [(_ & D & _)|(_ & _ & D & R')].
  { apply Same. now rewrite A. }
  destruct (substitute_returned _ _ _ _ _ S) as (_ & Nt & _ & _).
  destruct (near_miss_body _ _ NM) as (body & Ec & _).
  destruct (window_untouched (new_hash e (disk w)) (body ++ tag_close) post
              (new_hash_ok e (disk w)) (pieces t) pre)
    as (pre' & post' & E' & A1 & A2).
  - intros m I. exact (pieces_shape _ _ I).
  - rewrite pieces_spell, Et, Ec. reflexivity.
  - intros ps1 m ps2 P.
    destruct (no_entry_inside t pre c post ps1 m ps2 Et NM P) as [L|L]; [now left|].
    right. rewrite Ec in L. exact L.
  - exists pre', post'. rewrite A, Ec, <- E', <- Nt.
    split; [exact R'|]. split; [exact A1|]. split; [exact A2|].
    intros b _ _. exact D.
Qed.

(** C9, as the code has it.  What [FILE_RE] matches has the shape [<File],
    white space, [md5=], a quoted hash of exactly 32 hexadecimal digits,
    white space, [import=], a quoted 0 or 1, [>], a path of at least one
    character without line feed, [</File>], and is a prefix of the text it is
    matched in; every entry a run processes has this shape.  A near miss
    that stands anywhere in the manifest, [t = pre ++ c ++ post], is no
    entry: no entry of the scan begins inside it; either the scan reaches
    its start and passes over it character by character, so that the lines
    and the count of the run are those of the pieces before and after it, or
    it begins in the path of an entry that began before it; in the manifest
    a run leaves, the near miss stands where it stood, and when the file was
    in the form [write_text] gives its text, the same holds of its bytes.  A text in which the
    pattern matches at no position comes back from the substitution
    unchanged, with nothing printed and nothing counted. *)
Theorem entries_have_the_shape :
  (forall s m r, match_at s = Some (m, r) -> entry_shape m /\ s = group0 m ++ r)
  /\ (forall t m, In (Match m) (pieces t) -> entry_shape m)
  /\ (forall e w t pre c post,
        read_text (disk w) (MODINFO e) = inr t ->
        t = pre ++ c ++ post ->
        near_miss c post ->
        (forall ps1 m ps2,
           pieces t = ps1 ++ Match m :: ps2 ->
           (List.length (flat_map (render g2) ps1) < List.length pre
            \/ List.length pre + List.length c
               <= List.length (flat_map (render g2) ps1))%nat)
        /\ ((exists ps1 ps3,
               pieces t = ps1 ++ map Skip c ++ ps3
               /\ flat_map (render g2) ps1 = pre
               /\ flat_map (render g2) ps3 = post
               /\ flat_map (spec_lines e (disk w)) (pieces t)
                  = flat_map (spec_lines e (disk w)) ps1
                    ++ flat_map (spec_lines e (disk w)) ps3
               /\ spec_count e (disk w) (pieces t)
                  = (spec_count e (disk w) ps1 + spec_count e (disk w) ps3)%nat)
            \/ (exists ps1 m ps2 a z,
                  pieces t = ps1 ++ Match m :: ps2
                  /\ pre = flat_map (render g2) ps1 ++ g1 m ++ g2 m ++ g3 m ++ a
                  /\ g4 m = a ++ 60 :: z))
        /\ exists pre' post',
             read_text (disk (after e w)) (MODINFO e) = inr (pre' ++ c ++ post')
             /\ List.length pre' = List.length pre
             /\ List.length post' = List.length post
             /\ forall b,
                  disk w (MODINFO e) = Some (File b) ->
                  encode_text (os e) t = b ->
                  b = encode_text (os e) pre ++ encode_text (os e) c
                      ++ encode_text (os e) post
                  /\ disk (after e w) (MODINFO e)
                     = Some (File (encode_text (os e) pre' ++ encode_text (os e) c
                                   ++ encode_text (os e) post'))
                  /\ List.length (encode_text (os e) pre')
                     = List.length (encode_text (os e) pre)
                  /\ List.length (encode_text (os e) post')
                     = List.length (encode_text (os e) post))
  /\ (forall e w t,
        (forall a b, t = a ++ b -> match_at b = None) ->
        substitute e w t = Returned t (RunState 0 (stdout w))).
Proof.
  split; [|split; [|split]].
  - intros s m r E. destruct (match_at_inv _ _ _ E) as (Sh & Eq & _). now split.
  - apply pieces_shape.
  - intros e w t pre c post R Et NM. split; [|split].
    + intros ps1 m ps2 P. exact (no_entry_inside t pre c post ps1 m ps2 Et NM P).
    + pose proof (pieces_spell t) as Sp. rewrite Et in Sp at 2.
      destruct (locate (pieces t) pre (c ++ post) Sp)
        as [(ps1 & ps2 & P & Epre)|(ps1 & m & ps2 & x & y & P & Epre & G & Nx & Ny & Er)].
      * left.
        assert (E2 : flat_map (render g2) ps2 = c ++ post).
        { rewrite P, flat_map_app, Epre in Sp. now apply app_inv_head in Sp. }
        destruct (skips_over c ps2 post E2) as (ps3 & -> & E3).
        -- intros q1 m q2 ->.
           destruct (no_entry_inside t pre c post (ps1 ++ q1) m q2 Et NM) as [L|L].
           ++ rewrite P. now rewrite <- app_assoc.
           ++ rewrite flat_map_app, length_app, Epre in L. lia.
           ++ rewrite flat_map_app, length_app, Epre in L. lia.
        -- exists ps1, ps3. split; [exact P|]. split; [exact Epre|].
           split; [exact E3|].
           destruct (lines_skips e (disk w) c ps3) as [Ls Cs].
           rewrite P, flat_map_app, spec_count_app, Ls, Cs. now split.
      * right. destruct (near_miss_head _ _ NM) as (r & Ec).
        assert (Sh : entry_shape m).
        { apply (pieces_shape t). rewrite P. apply in_or_app. right. now left. }
        destruct (inside_the_path m x y (flat_map (render g2) ps2) (r ++ post)
                    Sh G Nx Ny) as (a & z & Ex & Eg).
        { rewrite <- Er, Ec. reflexivity. }
        exists ps1, m, ps2, a, z. split; [exact P|]. split; [|exact Eg].
        rewrite Epre, Ex. reflexivity.
    + destruct (near_miss_kept e w t pre c post R Et NM)
        as (pre' & post' & R' & A1 & A2 & B).
      exists pre', post'. split; [exact R'|].
      split; [exact (alike_length _ _ A1)|]. split; [exact (alike_length _ _ A2)|].
      intros b Eb Enc. split; [|split; [|split]].
      * now rewrite <- Enc, Et, !encode_text_app.
      * rewrite (B b Eb Enc). now rewrite !encode_text_app.
      * exact (alike_encode_length _ _ _ A1).
      * exact (alike_encode_length _ _ _ A2).
  - intros e w t H0. pose proof (proj2 (no_match_anywhere t) H0) as H. clear H0.
    unfold substitute, re_sub. rewrite sub_pieces_returned.
    + cbn [updated printed]. f_equal.
      * rewrite <- (pieces_spell t) at 2.
        induction (pieces t) as [|[c|m] ps IH]; [reflexivity| |].
        -- cbn [flat_map render]. rewrite IH; [reflexivity|].
           intros m I. apply (H m). now right.
        -- destruct (H m). now left.
      * f_equal.
        -- apply spec_count_zero_skips. exact H.
        -- rewrite <- (app_nil_r (stdout w)) at 2. f_equal.
           induction (pieces t) as [|[c|m] ps IH]; [reflexivity| |].
           ++ cbn [flat_map spec_lines app]. apply IH.
              intros m I. apply (H m). now right.
           ++ destruct (H m). now left.
    + intros m I. now destruct (H m).
Qed.

Lemma entries_have_the_shape_witness :
  let pre := entry_text [32] zeros "1" "a.xml" ++ [10] in
  let post := 10 :: short_hash_manifest ++ 10 :: entry_text [32] zeros "0" "" in
  near_miss import2_manifest post
  /\ exists pre' post',
       read_text (disk (after here near_miss_world)) (MODINFO here)
       = inr (pre' ++ import2_manifest ++ post')
       /\ List.length pre' = List.length pre
       /\ List.length post' = List.length post
       /\ disk (after here near_miss_world) (MODINFO here)
          = Some (File (encode_text Posix pre' ++ encode_text Posix import2_manifest
                        ++ encode_text Posix post'))
       /\ List.length (encode_text Posix pre') = List.length (encode_text Posix pre)
       /\ writes (after here near_miss_world) <> writes near_miss_world.
Proof.
  intros pre post.
  assert (NM : near_miss import2_manifest post).
  { exists [32], (str zeros), [32], 50, (str "a.xml").
    split; [vm_compute; reflexivity|]. split; [discriminate|].
    split; [repeat constructor|]. split; [repeat constructor|].
    split; [discriminate|]. split; [repeat constructor|].
    split; [discriminate|].
    split; [repeat (apply Forall_cons; [discriminate|]); apply Forall_nil|].
    right; left. split; discriminate. }
  split; [exact NM|].
  pose proof (proj1 (proj2 (proj2 entries_have_the_shape)) here near_miss_world
                near_miss_manifest pre import2_manifest post) as H.
  destruct H as (_ & _ & pre' & post' & R & L1 & L2 & B).
  - vm_compute; reflexivity.
  - vm_compute; reflexivity.
  - exact NM.
  - destruct (B (encode_text Posix near_miss_manifest) eq_refl eq_refl)
      as (_ & D & L3 & _).
    exists pre', post'. split; [exact R|]. split; [exact L1|]. split; [exact L2|].
    split; [exact D|]. split; [exact L3|]. vm_compute. discriminate.
Defined.

(** C9 as stated fails four times.  A tab after [<File] is accepted, so a
    processed entry need not have the template's single spaces.  An entry
    with an empty path is not left alone when a closing tag follows on the
    same line: its path runs up to that tag, swallowing the entry of
    [b.xml], and a line is printed for it.  A near miss is not left byte for
    byte when its path holds a line end that the file writes as a carriage
    return and a line feed: the run that updates the entry of [a.xml] writes
    the near miss back without the carriage return.  And a candidate whose
    path holds a line feed is not left alone when an entry stands in that
    path: the entry is processed, a line is printed for it and its hash is
    replaced. *)
Lemma near_misses_are_processed :
  (exists m, pieces tab_manifest = [Match m] /\ ~ template_shape m)
  /\ (exists m,
        pieces empty_path_manifest = [Match m]
        /\ g4 m = str "</File><File md5=" ++ quote :: str zeros ++ quote
                  :: str " import=" ++ quote :: str "0" ++ quote :: str ">b.xml")
  /\ stdout (after here empty_path_world)
     = [ str "  MISSING: </File><File md5=" ++ quote :: str zeros ++ quote
         :: str " import=" ++ quote :: str "0" ++ quote :: str ">b.xml";
         str "All hashes up to date." ]
  /\ (exists b b',
        disk crlf_near_miss_world (MODINFO here) = Some (File b)
        /\ read_text (disk crlf_near_miss_world) (MODINFO here)
           = inr (entry_text [32] zeros "1" "a.xml"
                  ++ 10 :: near_miss_text [32] (str zeros) [32] 48 [97; 10; 98])
        /\ near_miss (near_miss_text [32] (str zeros) [32] 48 [97; 10; 98]) []
        /\ disk (after here crlf_near_miss_world) (MODINFO here) = Some (File b')
        /\ skipn 69 b
           = encode_text Posix (near_miss_text [32] (str zeros) [32] 48 [97; 13; 10; 98])
        /\ skipn 69 b'
           = encode_text Posix (near_miss_text [32] (str zeros) [32] 48 [97; 10; 98])
        /\ skipn 69 b' <> skipn 69 b)
  /\ (In 10 nested_path
      /\ read_text (disk nested_world) (MODINFO here)
         = inr (near_miss_text [32] (str zeros) [32] 48 nested_path)
      /\ stdout (after here nested_world)
         = [ str "  a.xml: " ++ str zeros ++ str " -> 900150983CD24FB0D6963F7D28E17F72";
             str "Updated 1 hash(es)." ]
      /\ read_text (disk (after here nested_world)) (MODINFO here)
         = inr (str "<File md5=" ++ quote :: str zeros ++ quote :: str " import="
                ++ quote :: str "0" ++ quote :: str ">a"
                ++ 10 :: entry_text [32] "900150983CD24FB0D6963F7D28E17F72" "1" "a.xml")).
Proof.
  split; [|split; [|split; [|split]]].
  - eexists. split; [vm_compute; reflexivity|].
    intros [G _]. vm_compute in G. discriminate G.
  - eexists. split; vm_compute; reflexivity.
  - vm_compute; reflexivity.
  - do 2 eexists. split; [vm_compute; reflexivity|].
    split; [vm_compute; reflexivity|]. split.
    { exists [32], (str zeros), [32], 48, [97; 10; 98].
      split; [reflexivity|]. split; [discriminate|].
      split; [repeat constructor|]. split; [repeat constructor|].
      split; [discriminate|]. split; [repeat constructor|].
      split; [discriminate|].
      split; [repeat (apply Forall_cons; [discriminate|]); apply Forall_nil|].
      right; right; left. right; left; reflexivity. }
    split; [vm_compute; reflexivity|]. split; [vm_compute; reflexivity|].
    split; [vm_compute; reflexivity|]. vm_compute. discriminate.
  - split; [right; left; reflexivity|].
    repeat split; vm_compute; reflexivity.
Qed.

(** Each kind of near miss, as it stands in [near_miss_manifest] or alone. *)
Example the_kinds_of_near_miss :
  near_miss short_hash_manifest (10 :: entry_text [32] zeros "0" "")
  /\ near_miss (entry_text [32] zeros "0" "") []
  /\ near_miss (near_miss_text [9] (str zeros) [32; 32] 48 [97; 10; 98]) [].
Proof.
  split; [|split].
  - exists [32], (str "0000000000000000000000000000000"), [32], 48, (str "a.xml").
    split; [vm_compute; reflexivity|]. split; [discriminate|].
    split; [repeat constructor|]. split; [repeat constructor|].
    split; [discriminate|]. split; [repeat constructor|].
    split; [discriminate|].
    split; [repeat (apply Forall_cons; [discriminate|]); apply Forall_nil|].
    left. discriminate.
  - exists [32], (str zeros), [32], 48, [].
    split; [vm_compute; reflexivity|]. split; [discriminate|].
    split; [repeat constructor|]. split; [repeat constructor|].
    split; [discriminate|]. split; [repeat constructor|].
    split; [discriminate|]. split; [apply Forall_nil|].
    right; right; right. split; [reflexivity|].
    intros (a & b & E & _). destruct a; discriminate E.
  - exists [9], (str zeros), [32; 32], 48, [97; 10; 98].
    split; [reflexivity|]. split; [discriminate|].
    split; [repeat constructor|]. split; [repeat constructor|].
    split; [discriminate|]. split; [repeat constructor|].
    split; [discriminate|].
    split; [repeat (apply Forall_cons; [discriminate|]); apply Forall_nil|].
    right; right; left. right; left; reflexivity.
Qed.

